(** * Letterboxd watchlist scraper: extraction and pagination

    A shallow embedding of the three deployment variants of the scraper:

    - [Api]      : [src/api/watchlist.js] (serverless function);
    - [Worker]   : first worker of [src/unnamed/part_000] (lines 1-211);
    - [Fallback] : second worker of [src/unnamed/part_000] (lines 212-479),
                   which first asks a third-party API and scrapes as a
                   fallback.

    JavaScript strings are sequences of code units; they are modelled as
    [list ascii].  None of the patterns of the program inspects a code unit
    beyond comparing it with an ASCII literal or testing it for an ASCII
    digit, and the case folding of the [i] flag never maps a non-ASCII code
    unit to an ASCII one, so the alphabet does not matter for what follows. *)

From Stdlib Require Import Ascii String DecimalString.
From Stdlib Require Import List ZArith Lia Bool Arith.
Import ListNotations.

(** ** JavaScript values, strings and exceptions *)

Module JS.

Definition jsstring := list ascii.

(** A string literal of the source. No literal below contains a double
    quote; that character is [dq]. *)
Definition lit (s : string) : jsstring := list_ascii_of_string s.

Definition dq : ascii := "034"%char.

(** The values that flow through the extractor: a capture group that did not
    take part in a match is [undefined], everything else is a string. *)
Inductive value :=
| Undefined
| Str (s : jsstring).

Fixpoint str_eqb (a b : jsstring) : bool :=
  match a, b with
  | [], [] => true
  | x :: a', y :: b' => Ascii.eqb x y && str_eqb a' b'
  | _, _ => false
  end.

(** [SameValueZero], the equality of [Set.prototype.has]. *)
Definition value_eqb (v w : value) : bool :=
  match v, w with
  | Undefined, Undefined => true
  | Str a, Str b => str_eqb a b
  | _, _ => false
  end.

(** [ToString] on the two kinds of value. *)
Definition to_string (v : value) : jsstring :=
  match v with
  | Undefined => lit "undefined"
  | Str s => s
  end.

(** Truthiness: [undefined] and the empty string are falsy. *)
Definition truthy (v : value) : bool :=
  match v with
  | Str (_ :: _) => true
  | _ => false
  end.

(** Outcome of running a piece of the program: a value, a thrown exception,
    or [OutOfFuel] when the fuel given to a loop of the model ran out before
    the loop finished. *)
Inductive result (A : Type) :=
| Ok (a : A)
| Throw (msg : string)
| OutOfFuel.

Arguments Ok {A} a.
Arguments Throw {A} msg.
Arguments OutOfFuel {A}.

Definition bind {A B} (r : result A) (f : A -> result B) : result B :=
  match r with
  | Ok a => f a
  | Throw m => Throw m
  | OutOfFuel => OutOfFuel
  end.

Notation "x <- c1 ;; c2" := (bind c1 (fun x => c2))
  (at level 61, c1 at next level, right associativity).

(** Method call on a value: [v.replace(..)], [v.match(..)], [v.length] throw
    a [TypeError] when [v] is [undefined]. *)
Definition receiver (v : value) : result jsstring :=
  match v with
  | Str s => Ok s
  | Undefined => Throw "TypeError: Cannot read properties of undefined"
  end.

(** *** String primitives *)

Fixpoint prefixb (p s : jsstring) : bool :=
  match p, s with
  | [], _ => true
  | x :: p', y :: s' => Ascii.eqb x y && prefixb p' s'
  | _ :: _, [] => false
  end.

(** [s.indexOf(needle)], searching from position [i] of the original string;
    [s] is the part of the string from [i] on. *)
Fixpoint indexOf_from (needle s : jsstring) (i : Z) : Z :=
  if prefixb needle s then i
  else match s with
       | [] => (-1)%Z
       | _ :: s' => indexOf_from needle s' (i + 1)%Z
       end.

Definition indexOf (s needle : jsstring) : Z := indexOf_from needle s 0%Z.

Definition includes (s needle : jsstring) : bool :=
  negb (indexOf s needle =? -1)%Z.

Definition clamp (len x : Z) : Z := Z.min (Z.max x 0) len.

(** [s.substring(a, b)]: both arguments are clamped to [0, s.length] and
    swapped when the first is the larger. *)
Definition substring (s : jsstring) (a b : Z) : jsstring :=
  let len := Z.of_nat (length s) in
  let a' := clamp len a in
  let b' := clamp len b in
  let from := Z.min a' b' in
  let to := Z.max a' b' in
  firstn (Z.to_nat (to - from)) (skipn (Z.to_nat from) s).

(** [s.replace(/-/g, ' ')]: every hyphen becomes a space. *)
Definition hyphens_to_spaces (s : jsstring) : jsstring :=
  map (fun c => if Ascii.eqb c "-"%char then " "%char else c) s.

(** Decimal rendering of a page number inside a template string. *)
Definition nat_to_string (n : nat) : jsstring :=
  lit (NilEmpty.string_of_uint (Nat.to_uint n)).

(** *** Regular expressions

    The fragment of the pattern language the program uses: literal text,
    one-character classes, [X*], [X+] and [X{n}] over a class, sequence,
    alternation and numbered capture groups.  Matching follows the
    continuation semantics of the language definition: a matcher receives the
    rest of the input, the captures so far and a continuation, and backtracks
    into the alternatives when the continuation fails. *)

Inductive cclass :=
| CChar (c : ascii)           (* a literal character *)
| CDigit                      (* \d *)
| CNot (cs : list ascii).     (* [^...] *)

Inductive regex :=
| RLit (s : jsstring)
| RSet (c : cclass)
| RStar (c : cclass)
| RPlus (c : cclass)
| RCount (n : nat) (c : cclass)
| RSeq (r1 r2 : regex)
| RAlt (r1 r2 : regex)
| RGroup (i : nat) (r : regex).

Definition is_digit (c : ascii) : bool :=
  let n := nat_of_ascii c in (48 <=? n) && (n <=? 57).

(** Canonicalisation under the [i] flag: ASCII lower case letters fold to
    upper case, everything else is left alone. *)
Definition canon (ci : bool) (c : ascii) : ascii :=
  if ci then
    let n := nat_of_ascii c in
    if (97 <=? n) && (n <=? 122) then ascii_of_nat (n - 32) else c
  else c.

Definition char_eq (ci : bool) (a b : ascii) : bool :=
  Ascii.eqb (canon ci a) (canon ci b).

Definition in_class (ci : bool) (c : cclass) (a : ascii) : bool :=
  match c with
  | CChar x => char_eq ci x a
  | CDigit => is_digit a
  | CNot cs => negb (existsb (fun x => char_eq ci x a) cs)
  end.

Definition captures := list (option jsstring).

Fixpoint set_cap (i : nat) (v : jsstring) (caps : captures) : captures :=
  match i, caps with
  | _, [] => []
  | 0, _ :: t => Some v :: t
  | S j, h :: t => h :: set_cap j v t
  end.

Definition state := (jsstring * captures)%type.
Definition cont := jsstring -> captures -> option state.

Fixpoint strip_lit (ci : bool) (l s : jsstring) : option jsstring :=
  match l, s with
  | [], _ => Some s
  | x :: l', y :: s' => if char_eq ci x y then strip_lit ci l' s' else None
  | _ :: _, [] => None
  end.

Fixpoint take_class (ci : bool) (c : cclass) (n : nat) (s : jsstring)
  : option jsstring :=
  match n, s with
  | 0, _ => Some s
  | S n', a :: s' => if in_class ci c a then take_class ci c n' s' else None
  | S _, [] => None
  end.

(** Greedy [X*]: take one more character whenever possible and give
    characters back one by one while the continuation fails. *)
Fixpoint star_class (ci : bool) (c : cclass) (s : jsstring) (caps : captures)
  (k : cont) : option state :=
  match s with
  | a :: s' =>
      if in_class ci c a then
        match star_class ci c s' caps k with
        | Some r => Some r
        | None => k s caps
        end
      else k s caps
  | [] => k s caps
  end.

(** [X+] is one [X] followed by [X*]. *)
Definition plus_class (ci : bool) (c : cclass) (s : jsstring) (caps : captures)
  (k : cont) : option state :=
  match s with
  | a :: s' => if in_class ci c a then star_class ci c s' caps k else None
  | [] => None
  end.

Fixpoint rmatch (ci : bool) (r : regex) (s : jsstring) (caps : captures)
  (k : cont) : option state :=
  match r with
  | RLit l =>
      match strip_lit ci l s with
      | Some s' => k s' caps
      | None => None
      end
  | RSet c =>
      match s with
      | a :: s' => if in_class ci c a then k s' caps else None
      | [] => None
      end
  | RStar c => star_class ci c s caps k
  | RPlus c => plus_class ci c s caps k
  | RCount n c =>
      match take_class ci c n s with
      | Some s' => k s' caps
      | None => None
      end
  | RSeq r1 r2 =>
      rmatch ci r1 s caps (fun s' caps' => rmatch ci r2 s' caps' k)
  | RAlt r1 r2 =>
      match rmatch ci r1 s caps k with
      | Some res => Some res
      | None => rmatch ci r2 s caps k
      end
  | RGroup i r1 =>
      rmatch ci r1 s caps
        (fun s' caps' =>
           k s' (set_cap (i - 1) (firstn (length s - length s') s) caps'))
  end.

(** A compiled pattern: its body, the [i] flag and its number of groups. *)
Record pattern := {
  p_re : regex;
  p_ci : bool;
  p_groups : nat
}.

(** The match array: [m_index] is [match.index], [m_all] is [match[0]] and
    [m_caps] holds [match[1]], [match[2]], ... *)
Record match_result := {
  m_index : nat;
  m_all : jsstring;
  m_caps : captures
}.

Definition match_here (p : pattern) (s : jsstring) : option state :=
  rmatch (p_ci p) (p_re p) s (repeat None (p_groups p))
    (fun s' caps => Some (s', caps)).

(** Leftmost match at or after position [i]; [s] is the input from [i] on. *)
Fixpoint search (p : pattern) (i : nat) (s : jsstring) : option match_result :=
  match match_here p s with
  | Some (s', caps) =>
      Some {| m_index := i;
              m_all := firstn (length s - length s') s;
              m_caps := caps |}
  | None =>
      match s with
      | [] => None
      | _ :: s' => search p (S i) s'
      end
  end.

(** [m[i]] for [i >= 1]. *)
Definition group (m : match_result) (i : nat) : value :=
  match nth_error (m_caps m) (i - 1) with
  | Some (Some s) => Str s
  | _ => Undefined
  end.

Definition m_end (m : match_result) : nat := m_index m + length (m_all m).

(** [s.match(p)] for a pattern without the [g] flag. *)
Definition str_match (s : jsstring) (p : pattern) : option match_result :=
  search p 0 s.

(** [p.exec(s)] for a pattern with the [g] flag whose [lastIndex] is [li]. *)
Definition exec_from (p : pattern) (s : jsstring) (li : nat)
  : option match_result :=
  if length s <? li then None else search p li (skipn li s).

(** [s.replace(p, by)] for a pattern without the [g] flag and a replacement
    text without [$]: the first match is replaced, the rest is kept. *)
Definition replace_first (s : jsstring) (p : pattern) (by_ : jsstring)
  : jsstring :=
  match str_match s p with
  | Some m => firstn (m_index m) s ++ by_ ++ skipn (m_end m) s
  | None => s
  end.

(** [while ((match = p.exec(s)) !== null) body(match)] with accumulator
    [acc]; [lastIndex] moves to the end of each match. *)
Fixpoint exec_loop {A} (fuel : nat) (p : pattern) (s : jsstring) (li : nat)
  (body : match_result -> A -> A) (acc : A) : result A :=
  match exec_from p s li with
  | None => Ok acc
  | Some m =>
      match fuel with
      | 0 => OutOfFuel
      | S fuel' => exec_loop fuel' p s (m_end m) body (body m acc)
      end
  end.

(** An insertion-ordered [Set]: [has] and [add]. *)
Definition set_has (seen : list value) (v : value) : bool :=
  existsb (value_eqb v) seen.

Definition set_add (seen : list value) (v : value) : list value :=
  if set_has seen v then seen else seen ++ [v].

Infix "+++" := RSeq (at level 60, right associativity).

(** *** Loops

    [while (cond) body]: the body either goes on with a new state or leaves
    the function ([return], or an exception on its way to the handler).
    The number of iterations performed is counted; [None] is the model
    running out of fuel. *)

Inductive step (St R : Type) :=
| Next (st : St)
| Leave (r : R).

Arguments Next {St R} st.
Arguments Leave {St R} r.

Section While.
Variables St R : Type.
Variable cond : St -> bool.
Variable body : St -> step St R.

Fixpoint while (fuel : nat) (iters : nat) (st : St)
  : option (nat * step St R) :=
  if cond st then
    match fuel with
    | 0 => None
    | S fuel' =>
        match body st with
        | Next st' => while fuel' (S iters) st'
        | Leave r => Some (S iters, Leave r)
        end
    end
  else Some (iters, Next st).
End While.

Arguments while {St R} cond body fuel iters st.

(** *** JSON bodies and HTTP responses

    A response is its status and its JSON body ([None] for the empty body
    of the answer to [OPTIONS]); the CORS and content-type headers, which
    are the same on every path, are left out. *)

Unset Elimination Schemes.
Inductive json :=
| JBool (b : bool)
| JNum (n : Z)
| JStr (s : jsstring)
| JArr (l : list json)
| JObj (fields : list (string * json)).
Set Elimination Schemes.

(** A property whose value is [undefined] is left out by [JSON.stringify]. *)
Definition jfield (k : string) (v : value) : list (string * json) :=
  match v with
  | Undefined => []
  | Str s => [(k, JStr s)]
  end.

Fixpoint obj_get (k : string) (fields : list (string * json)) : option json :=
  match fields with
  | [] => None
  | (k', v) :: rest => if String.eqb k k' then Some v else obj_get k rest
  end.

Definition get (k : string) (j : json) : option json :=
  match j with
  | JObj fields => obj_get k fields
  | _ => None
  end.

Record http_response := {
  status : Z;
  body : option json
}.

Definition respond (st : Z) (j : json) : http_response :=
  {| status := st; body := Some j |}.

Definition error_body (msg : string) : json :=
  JObj [("error"%string, JStr (lit msg))].

(** The query of a request: [null] is [None]. *)
Record request := {
  req_method : string;
  q_username : option jsstring;
  q_user : option jsstring;
  q_random : option jsstring
}.

(** [a || b] on query values, followed by the [!username] test: [null] and
    the empty string are falsy. *)
Definition first_truthy (a b : option jsstring) : option jsstring :=
  match a with
  | Some (c :: r) => Some (c :: r)
  | _ => match b with
         | Some (c :: r) => Some (c :: r)
         | _ => None
         end
  end.

Definition wants_random (r : request) : bool :=
  match q_random r with
  | Some v => str_eqb v (lit "true")
  | None => false
  end.

(** *** [Math.floor(Math.random() * n)]

    [Math.random()] returns a binary64 number in [0, 1): a number
    [mant / 2^expo] with [0 <= mant < 2^53] and [53 <= expo <= 1074].
    The product with the integer [n] is rounded to the nearest binary64
    number, ties to even, and then floored. *)

Record double01 := {
  mant : Z;
  expo : Z
}.

Definition valid_double01 (d : double01) : Prop :=
  (0 <= mant d < 2 ^ 53 /\ 53 <= expo d <= 1074)%Z.

(** The 53 leading bits of [p], rounded to nearest, ties to even, put back
    at their place: the binary64 number nearest to [p * 2^(-e)] is the
    result times [2^(-e)]. *)
Definition round53 (p : Z) : Z :=
  let bits := (Z.log2 p + 1)%Z in
  if (bits <=? 53)%Z then p
  else
    let d := (bits - 53)%Z in
    let q := (p / 2 ^ d)%Z in
    let rem := (p mod 2 ^ d)%Z in
    let half := (2 ^ (d - 1))%Z in
    let q' := if (rem <? half)%Z then q
              else if (half <? rem)%Z then (q + 1)%Z
              else if Z.even q then q else (q + 1)%Z in
    (q' * 2 ^ d)%Z.

Definition random_index (d : double01) (n : nat) : nat :=
  Z.to_nat (round53 (mant d * Z.of_nat n) / 2 ^ expo d).

End JS.

(** ** The extractor of the two workers

    [parseMovies] of [src/unnamed/part_000], lines 127-211, and its second
    copy at lines 415-479; the two differ in comments and braces only. *)

Module Worker.
Import JS.

Record Movie := {
  slug : value;
  title : value;
  year : value;
  poster : jsstring;
  link : jsstring
}.

(** [/data-film-slug=\x22([^\x22]+)\x22/g]; in these comments [\x22]
    stands for the double quote of the source. *)
Definition slugPattern1 : pattern :=
  {| p_re := RLit (lit "data-film-slug=" ++ [dq])
             +++ RGroup 1 (RPlus (CNot [dq])) +++ RLit [dq];
     p_ci := false; p_groups := 1 |}.

(** [/data-item-slug=\x22([^\x22]+)\x22/g] *)
Definition slugPattern2 : pattern :=
  {| p_re := RLit (lit "data-item-slug=" ++ [dq])
             +++ RGroup 1 (RPlus (CNot [dq])) +++ RLit [dq];
     p_ci := false; p_groups := 1 |}.

(** [/href=\x22\/film\/([^/\x22]+)\/\x22/g] *)
Definition slugPattern3 : pattern :=
  {| p_re := RLit (lit "href=" ++ [dq] ++ lit "/film/")
             +++ RGroup 1 (RPlus (CNot ["/"%char; dq]))
             +++ RLit (lit "/" ++ [dq]);
     p_ci := false; p_groups := 1 |}.

(** [/data-(?:film|item)-name=\x22([^\x22]+)\x22/] *)
Definition namePattern : pattern :=
  {| p_re := RLit (lit "data-")
             +++ RAlt (RLit (lit "film")) (RLit (lit "item"))
             +++ RLit (lit "-name=" ++ [dq])
             +++ RGroup 1 (RPlus (CNot [dq])) +++ RLit [dq];
     p_ci := false; p_groups := 1 |}.

(** [/alt=\x22([^\x22]+)\x22/] *)
Definition altPattern : pattern :=
  {| p_re := RLit (lit "alt=" ++ [dq])
             +++ RGroup 1 (RPlus (CNot [dq])) +++ RLit [dq];
     p_ci := false; p_groups := 1 |}.

(** [/src=\x22(https:\/\/[^\x22]*ltrbxd[^\x22]*\.(jpg|webp)[^\x22]{0,})\x22/i],
    the last star of the source written [{0,}] here. *)
Definition imgPattern : pattern :=
  {| p_re := RLit (lit "src=" ++ [dq])
             +++ RGroup 1 (RLit (lit "https://")
                           +++ RStar (CNot [dq])
                           +++ RLit (lit "ltrbxd")
                           +++ RStar (CNot [dq])
                           +++ RLit (lit ".")
                           +++ RGroup 2 (RAlt (RLit (lit "jpg"))
                                              (RLit (lit "webp")))
                           +++ RStar (CNot [dq]))
             +++ RLit [dq];
     p_ci := true; p_groups := 2 |}.

(** [/-0-\d+-0-\d+-crop/] *)
Definition cropPattern : pattern :=
  {| p_re := RLit (lit "-0-") +++ RPlus CDigit
             +++ RLit (lit "-0-") +++ RPlus CDigit +++ RLit (lit "-crop");
     p_ci := false; p_groups := 0 |}.

(** [/-0-150-0-225-/] and [/-0-125-0-187-/] *)
Definition posterPattern150 : pattern :=
  {| p_re := RLit (lit "-0-150-0-225-"); p_ci := false; p_groups := 0 |}.

Definition posterPattern125 : pattern :=
  {| p_re := RLit (lit "-0-125-0-187-"); p_ci := false; p_groups := 0 |}.

(** [/\((\d{4})\)/] *)
Definition yearPattern : pattern :=
  {| p_re := RLit (lit "(") +++ RGroup 1 (RCount 4 CDigit) +++ RLit (lit ")");
     p_ci := false; p_groups := 1 |}.

(** [if (!seen.has(match[1])) seen.add(match[1])] *)
Definition collect (m : match_result) (seen : list value) : list value :=
  if negb (set_has seen (group m 1)) then set_add seen (group m 1) else seen.

(** The three collecting loops, lines 142-156. *)
Definition collect_slugs (fuel : nat) (html : jsstring)
  : result (list value) :=
  s1 <- exec_loop fuel slugPattern1 html 0 collect [] ;;
  s2 <- exec_loop fuel slugPattern2 html 0 collect s1 ;;
  exec_loop fuel slugPattern3 html 0 collect s2.

(** Lines 164-166. *)
Definition section_of (html : jsstring) (slugIndex : Z) : jsstring :=
  let start := Z.max 0 (slugIndex - 1000) in
  let end_ := Z.min (Z.of_nat (length html)) (slugIndex + 1000) in
  substring html start end_.

(** Lines 169-181. *)
Definition resolve_name (slug : value) (section : jsstring) : result value :=
  s <- receiver slug ;;
  let name := Str (hyphens_to_spaces s) in
  match str_match section namePattern with
  | Some nameMatch => Ok (group nameMatch 1)
  | None =>
      match str_match section altPattern with
      | Some altMatch =>
          a <- receiver (group altMatch 1) ;;
          if 1 <? length a then Ok (group altMatch 1) else Ok name
      | None => Ok name
      end
  end.

(** The three rewrites of lines 189-191. *)
Definition enlarge (poster : jsstring) : jsstring :=
  let p1 := replace_first poster cropPattern (lit "-0-460-0-690-crop") in
  let p2 := replace_first p1 posterPattern150 (lit "-0-230-0-345-") in
  replace_first p2 posterPattern125 (lit "-0-230-0-345-").

(** Lines 184-192. *)
Definition find_poster (section : jsstring) : result jsstring :=
  match str_match section imgPattern with
  | Some imgMatch =>
      p <- receiver (group imgMatch 1) ;;
      Ok (enlarge p)
  | None => Ok []
  end.

(** Lines 195-199. *)
Definition extract_year (name : value) : result value :=
  n <- receiver name ;;
  match str_match n yearPattern with
  | Some yearMatch => Ok (group yearMatch 1)
  | None => Ok (Str [])
  end.

(** One turn of the [for (const slug of seen)] loop: [None] is [continue]. *)
Definition movie_of (html : jsstring) (slug : value) : result (option Movie) :=
  let slugIndex := indexOf html (to_string slug) in
  if (slugIndex =? -1)%Z then Ok None
  else
    let section := section_of html slugIndex in
    name <- resolve_name slug section ;;
    poster <- find_poster section ;;
    year <- extract_year name ;;
    Ok (Some {| slug := slug;
                title := name;
                year := year;
                poster := poster;
                link := lit "https://letterboxd.com/film/"
                        ++ to_string slug ++ lit "/" |}).

Fixpoint for_each_slug (html : jsstring) (seen : list value)
  (movies : list Movie) : result (list Movie) :=
  match seen with
  | [] => Ok movies
  | slug :: rest =>
      r <- movie_of html slug ;;
      for_each_slug html rest
        (match r with
         | Some m => movies ++ [m]
         | None => movies
         end)
  end.

Definition parseMovies_fuel (fuel : nat) (html : jsstring)
  : result (list Movie) :=
  seen <- collect_slugs fuel html ;;
  for_each_slug html seen [].

(** The collecting loops consume a non-empty match per turn, so they make
    fewer turns than the input has characters ([parseMovies_fuel_enough]). *)
Definition parseMovies (html : jsstring) : result (list Movie) :=
  parseMovies_fuel (length html) html.

Definition movie_json (m : Movie) : json :=
  JObj (jfield "slug" (slug m) ++ jfield "title" (title m)
        ++ jfield "year" (year m)
        ++ [("poster"%string, JStr (poster m));
            ("link"%string, JStr (link m))]).

(** *** The pagination loop of the workers

    Lines 40-117 ([handleWatchlistAPI], cap 20) and lines 340-405
    ([fallbackScrape], cap 10).  The network is an oracle: [net k url] is
    what the [k]-th [fetch] of the request gets for [url], an exception of
    [fetch] or of reading the body being a [FetchError]. *)

Inductive fetch_outcome :=
| FetchError (msg : string)
| Response (ok : bool) (ident : option jsstring) (text : jsstring).

Record loop_state := {
  allMovies : list Movie;
  page : nat;
  hasMore : bool;
  calls : nat
}.

Inductive leave :=
| Return (r : http_response)
| Raise (msg : string)
| Diverge.

Definition challenge (html : jsstring) : bool :=
  includes html (lit "challenge-platform")
  || includes html (lit "Just a moment").

Definition page_url (username : jsstring) (page : nat) : jsstring :=
  lit "https://letterboxd.com/" ++ username ++ lit "/watchlist/page/"
  ++ nat_to_string page ++ lit "/".

Section Scrape.
Variable cap : nat.
Variable net : nat -> jsstring -> fetch_outcome.
Variable extract : jsstring -> result (list Movie).
Variable username : jsstring.

Definition loop_cond (st : loop_state) : bool :=
  hasMore st && (page st <=? cap).

Definition loop_body (st : loop_state) : step loop_state leave :=
  let stop := {| allMovies := allMovies st; page := page st;
                 hasMore := false; calls := S (calls st) |} in
  match net (calls st) (page_url username (page st)) with
  | FetchError msg => Leave (Raise msg)
  | Response ok _ html =>
      if negb ok then
        if page st =? 1 then
          Leave (Return (respond 404
                   (error_body "User not found or watchlist is private")))
        else Next stop
      else if challenge html then
        if page st =? 1 then
          Leave (Return (respond 503
                   (JObj [("error"%string,
                           JStr (lit "Letterboxd is blocking requests. Try again later."));
                          ("cloudflare"%string, JBool true)])))
        else Next stop
      else
        match extract html with
        | Throw msg => Leave (Raise msg)
        | OutOfFuel => Leave Diverge
        | Ok movies =>
            if length movies =? 0 then Next stop
            else Next {| allMovies := allMovies st ++ movies;
                         page := S (page st);
                         hasMore := true;
                         calls := S (calls st) |}
        end
  end.

Definition scrape (fuel : nat) (calls0 : nat)
  : option (nat * step loop_state leave) :=
  while loop_cond loop_body fuel 0
    {| allMovies := []; page := 1; hasMore := true; calls := calls0 |}.
End Scrape.

Definition full_list (movies : list Movie) : http_response :=
  respond 200 (JObj [("movies"%string, JArr (map movie_json movies));
                     ("total"%string, JNum (Z.of_nat (length movies)))]).

(** [{ movie: allMovies[randomIndex], total: allMovies.length }]: an index
    out of range gives [undefined], and the property is left out. *)
Definition random_pick (rnd : double01) (movies : list Movie)
  : http_response :=
  let randomIndex := random_index rnd (length movies) in
  respond 200
    (JObj (match nth_error movies randomIndex with
           | Some m => [("movie"%string, movie_json m)]
           | None => []
           end ++ [("total"%string, JNum (Z.of_nat (length movies)))])).

Definition empty_watchlist : http_response :=
  respond 404 (error_body "Watchlist is empty or not accessible").

Definition failure (msg : string) : http_response :=
  respond 500 (error_body msg).

(** [handleWatchlistAPI] of the first worker, lines 17-125. *)
Definition handleWatchlistAPI (fuel : nat)
  (net : nat -> jsstring -> fetch_outcome) (rnd : double01) (req : request)
  : result http_response :=
  if String.eqb (req_method req) "OPTIONS" then
    Ok {| status := 200; body := None |}
  else
    match first_truthy (q_username req) (q_user req) with
    | None => Ok (respond 400 (error_body "Username required"))
    | Some username =>
        match scrape 20 net parseMovies username fuel 0 with
        | None => OutOfFuel
        | Some (_, Leave (Return r)) => Ok r
        | Some (_, Leave (Raise msg)) => Ok (failure msg)
        | Some (_, Leave Diverge) => OutOfFuel
        | Some (_, Next st) =>
            if length (allMovies st) =? 0 then Ok empty_watchlist
            else if wants_random req then Ok (random_pick rnd (allMovies st))
            else Ok (full_list (allMovies st))
        end
    end.

End Worker.

(** ** The second worker: third-party API first, scraping as a fallback

    [src/unnamed/part_000], lines 212-479.  Its [parseMovies] is the copy of
    the first worker's, so [Worker.parseMovies] stands for both. *)

Module Fallback.
Import JS Worker.

(** [fallbackScrape], lines 338-413: it is given the user name and the
    headers, and nothing of the query. *)
Definition fallbackScrape (fuel : nat)
  (net : nat -> jsstring -> fetch_outcome) (calls0 : nat)
  (username : jsstring) : result http_response :=
  match scrape 10 net parseMovies username fuel calls0 with
  | None => OutOfFuel
  | Some (_, Leave (Return r)) => Ok r
  | Some (_, Leave (Raise msg)) => Ok (failure msg)
  | Some (_, Leave Diverge) => OutOfFuel
  | Some (_, Next st) =>
      if length (allMovies st) =? 0 then Ok empty_watchlist
      else Ok (full_list (allMovies st))
  end.

Definition watchlist_url (username : jsstring) : jsstring :=
  lit "https://letterboxd.com/" ++ username ++ lit "/watchlist/".

Definition stremthru_url (letterboxdId : jsstring) : jsstring :=
  lit "https://stremthru.13377001.xyz/v0" ++ lit "/meta/letterboxd/users/"
  ++ letterboxdId ++ lit "/lists/watchlist".

(** [!letterboxdId]: a missing header and an empty one are falsy. *)
Definition header_value (h : option jsstring) : option jsstring :=
  match h with
  | Some (c :: r) => Some (c :: r)
  | _ => None
  end.

Section Handler.
(** Lines 290-326 decode the JSON of the third-party API and answer from
    it: [decode text req rnd] stands for them, an exception of theirs
    being a [Throw]. *)
Variable decode : jsstring -> request -> double01 -> result http_response.

(** [handleWatchlistAPI] of the second worker, lines 230-335. *)
Definition handleWatchlistAPI (fuel : nat)
  (net : nat -> jsstring -> fetch_outcome) (rnd : double01) (req : request)
  : result http_response :=
  if String.eqb (req_method req) "OPTIONS" then
    Ok {| status := 200; body := None |}
  else
    match first_truthy (q_username req) (q_user req) with
    | None => Ok (respond 400 (error_body "Username required"))
    | Some username =>
        match net 0 (watchlist_url username) with
        | FetchError msg => Ok (failure msg)
        | Response ok ident _ =>
            if negb ok then
              Ok (respond 404
                    (error_body "User not found or watchlist is private"))
            else
              match header_value ident with
              | None => fallbackScrape fuel net 1 username
              | Some letterboxdId =>
                  match net 1 (stremthru_url letterboxdId) with
                  | FetchError msg => Ok (failure msg)
                  | Response ok' _ text =>
                      if negb ok' then fallbackScrape fuel net 2 username
                      else
                        match decode text req rnd with
                        | Ok r => Ok r
                        | Throw msg => Ok (failure msg)
                        | OutOfFuel => OutOfFuel
                        end
                  end
              end
        end
    end.
End Handler.

End Fallback.

(** ** The serverless function, [src/api/watchlist.js] *)

Module Api.
Import JS.

Record Movie := {
  slug : value;
  title : value;
  poster : value;
  link : jsstring
}.

(** [/data-(?:film|item)-slug=\x22([^\x22]+)\x22/g].  The two other
    patterns declared at lines 11-12 are never used. *)
Definition slugPattern : pattern :=
  {| p_re := RLit (lit "data-")
             +++ RAlt (RLit (lit "film")) (RLit (lit "item"))
             +++ RLit (lit "-slug=" ++ [dq])
             +++ RGroup 1 (RPlus (CNot [dq])) +++ RLit [dq];
     p_ci := false; p_groups := 1 |}.

(** [/src=\x22(https:\/\/[^\x22]*ltrbxd[^\x22]*\.jpg[^\x22]{0,})\x22/],
    the last star of the source written [{0,}] here. *)
Definition imgPattern : pattern :=
  {| p_re := RLit (lit "src=" ++ [dq])
             +++ RGroup 1 (RLit (lit "https://")
                           +++ RStar (CNot [dq])
                           +++ RLit (lit "ltrbxd")
                           +++ RStar (CNot [dq])
                           +++ RLit (lit ".jpg")
                           +++ RStar (CNot [dq]))
             +++ RLit [dq];
     p_ci := false; p_groups := 1 |}.

(** [slugs.add(match[1])], lines 18-20. *)
Definition collect (m : match_result) (slugs : list value) : list value :=
  set_add slugs (group m 1).

Definition collect_slugs (fuel : nat) (html : jsstring)
  : result (list value) :=
  exec_loop fuel slugPattern html 0 collect [].

(** Lines 25-28. *)
Definition filmSection_of (html : jsstring) (slug : value) : jsstring :=
  substring html
    (Z.max 0 (indexOf html (to_string slug) - 500))
    (Z.min (Z.of_nat (length html)) (indexOf html (to_string slug) + 500)).

(** Lines 35-37; the third operand is evaluated only when it is chosen. *)
Definition resolve_name (slug : value) (filmSection : jsstring)
  : result value :=
  let altMatch := str_match filmSection Worker.altPattern in
  let nameMatch := str_match filmSection Worker.namePattern in
  match nameMatch with
  | Some nm => Ok (group nm 1)
  | None =>
      match altMatch with
      | Some am => Ok (Str (m_all am))
      | None => s <- receiver slug ;; Ok (Str (hyphens_to_spaces s))
      end
  end.

(** Lines 31-32. *)
Definition find_poster (filmSection : jsstring) : value :=
  match str_match filmSection imgPattern with
  | Some imgMatch => group imgMatch 1
  | None => Str []
  end.

(** Lines 40-42: a truthy poster is a non-empty string. *)
Definition enlarge (poster : value) : value :=
  match poster with
  | Str (c :: p) =>
      Str (replace_first (c :: p) Worker.cropPattern (lit "-0-460-0-690-crop"))
  | _ => poster
  end.

(** One turn of the [for (const slug of slugs)] loop, lines 23-50. *)
Definition movie_of (html : jsstring) (slug : value) : result Movie :=
  let filmSection := filmSection_of html slug in
  let poster := find_poster filmSection in
  name <- resolve_name slug filmSection ;;
  Ok {| slug := slug;
        title := name;
        poster := enlarge poster;
        link := lit "https://letterboxd.com/film/"
                ++ to_string slug ++ lit "/" |}.

Fixpoint for_each_slug (html : jsstring) (slugs : list value)
  (movies : list Movie) : result (list Movie) :=
  match slugs with
  | [] => Ok movies
  | slug :: rest =>
      m <- movie_of html slug ;;
      for_each_slug html rest (movies ++ [m])
  end.

Definition parseMovies_fuel (fuel : nat) (html : jsstring)
  : result (list Movie) :=
  slugs <- collect_slugs fuel html ;;
  for_each_slug html slugs [].

Definition parseMovies (html : jsstring) : result (list Movie) :=
  parseMovies_fuel (length html) html.

Definition movie_json (m : Movie) : json :=
  JObj (jfield "slug" (slug m) ++ jfield "title" (title m)
        ++ jfield "poster" (poster m)
        ++ [("link"%string, JStr (link m))]).

(** [fetchUrl], lines 56-87, follows redirects and then either resolves with
    the body of a 200 response or rejects. *)
Inductive fetch_outcome :=
| Rejected
| Resolved (html : jsstring).

Record loop_state := {
  allMovies : list Movie;
  page : nat;
  hasMore : bool;
  calls : nat
}.

Inductive leave :=
| Return (r : http_response)
| Diverge.

Section Scrape.
Variable net : nat -> jsstring -> fetch_outcome.
Variable extract : jsstring -> result (list Movie).
Variable username : jsstring.

Definition loop_cond (st : loop_state) : bool :=
  hasMore st && (page st <=? 20).

(** The body of the loop, lines 113-145; [caught] is the inner
    [catch]. *)
Definition loop_body (st : loop_state) : step loop_state leave :=
  let stop := {| allMovies := allMovies st; page := page st;
                 hasMore := false; calls := S (calls st) |} in
  let caught :=
    if page st =? 1 then
      Leave (Return (respond 404
               (error_body "User not found or watchlist is private")))
    else Next stop in
  match net (calls st) (Worker.page_url username (page st)) with
  | Rejected => caught
  | Resolved html =>
      if Worker.challenge html then
        if page st =? 1 then
          Leave (Return (respond 503
                   (JObj [("error"%string,
                           JStr (lit "Letterboxd is blocking requests. Try again later."));
                          ("cloudflare"%string, JBool true)])))
        else Next stop
      else
        match extract html with
        | Throw _ => caught
        | OutOfFuel => Leave Diverge
        | Ok movies =>
            if length movies =? 0 then Next stop
            else Next {| allMovies := allMovies st ++ movies;
                         page := S (page st);
                         hasMore := true;
                         calls := S (calls st) |}
        end
  end.

Definition scrape (fuel : nat) : option (nat * step loop_state leave) :=
  while loop_cond loop_body fuel 0
    {| allMovies := []; page := 1; hasMore := true; calls := 0 |}.
End Scrape.

Definition full_list (movies : list Movie) : http_response :=
  respond 200 (JObj [("movies"%string, JArr (map movie_json movies));
                     ("total"%string, JNum (Z.of_nat (length movies)))]).

Definition random_pick (rnd : double01) (movies : list Movie)
  : http_response :=
  let randomIndex := random_index rnd (length movies) in
  respond 200
    (JObj (match nth_error movies randomIndex with
           | Some m => [("movie"%string, movie_json m)]
           | None => []
           end ++ [("total"%string, JNum (Z.of_nat (length movies)))])).

(** The exported handler, lines 89-170. *)
Definition handler (fuel : nat) (net : nat -> jsstring -> fetch_outcome)
  (rnd : double01) (req : request) : result http_response :=
  if String.eqb (req_method req) "OPTIONS" then
    Ok {| status := 200; body := None |}
  else
    match first_truthy (q_username req) (q_user req) with
    | None => Ok (respond 400 (error_body "Username required"))
    | Some username =>
        match scrape net parseMovies username fuel with
        | None => OutOfFuel
        | Some (_, Leave (Return r)) => Ok r
        | Some (_, Leave Diverge) => OutOfFuel
        | Some (_, Next st) =>
            if length (allMovies st) =? 0 then Ok Worker.empty_watchlist
            else if wants_random req then Ok (random_pick rnd (allMovies st))
            else Ok (full_list (allMovies st))
        end
    end.

End Api.

(** * What the patterns mean

    The declarative reading of the pattern language, against which the
    backtracking matcher is checked, and the notions the statements about
    the extractor are written with. *)

Module Spec.
Import JS.

(** [derives ci r tok c c']: the text [tok] is in the language of [r], and
    matching it turns the captures [c] into [c']. *)
Inductive derives (ci : bool)
  : regex -> jsstring -> captures -> captures -> Prop :=
| D_lit l tok c :
    Forall2 (fun x y => char_eq ci x y = true) l tok ->
    derives ci (RLit l) tok c c
| D_set cl a c :
    in_class ci cl a = true ->
    derives ci (RSet cl) [a] c c
| D_star cl tok c :
    Forall (fun a => in_class ci cl a = true) tok ->
    derives ci (RStar cl) tok c c
| D_plus cl tok c :
    tok <> [] ->
    Forall (fun a => in_class ci cl a = true) tok ->
    derives ci (RPlus cl) tok c c
| D_count n cl tok c :
    length tok = n ->
    Forall (fun a => in_class ci cl a = true) tok ->
    derives ci (RCount n cl) tok c c
| D_seq r1 r2 t1 t2 c c1 c2 :
    derives ci r1 t1 c c1 ->
    derives ci r2 t2 c1 c2 ->
    derives ci (RSeq r1 r2) (t1 ++ t2) c c2
| D_alt_l r1 r2 tok c c' :
    derives ci r1 tok c c' ->
    derives ci (RAlt r1 r2) tok c c'
| D_alt_r r1 r2 tok c c' :
    derives ci r2 tok c c' ->
    derives ci (RAlt r1 r2) tok c c'
| D_group i r tok c c1 :
    derives ci r tok c c1 ->
    derives ci (RGroup i r) tok c (set_cap (i - 1) tok c1).

(** [tok] is a match of the pattern [p], with captures [caps]. *)
Definition matches (p : pattern) (tok : jsstring) (caps : captures) : Prop :=
  derives (p_ci p) (p_re p) tok (repeat None (p_groups p)) caps.

(** [p] matches somewhere in [s]. *)
Definition occurs (p : pattern) (s : jsstring) : Prop :=
  exists pre tok post caps, s = pre ++ tok ++ post /\ matches p tok caps.

(** [s = pre ++ tok ++ post] is a leftmost match of [p] in [s]. *)
Definition leftmost (p : pattern) (s pre tok post : jsstring)
  (caps : captures) : Prop :=
  s = pre ++ tok ++ post /\ matches p tok caps /\
  forall pre' tok' post' caps',
    s = pre' ++ tok' ++ post' -> matches p tok' caps' ->
    length pre <= length pre'.

(** The captures of the successive matches of [p] in [s], each searched
    for in what follows the one before. *)
Inductive successive (p : pattern) : jsstring -> list captures -> Prop :=
| succ_none s :
    ~ occurs p s -> successive p s []
| succ_match s pre tok post caps l :
    leftmost p s pre tok post caps ->
    successive p post l ->
    successive p s (caps :: l).

(** [match[1]] read off the captures. *)
Definition cap1 (caps : captures) : value :=
  match nth_error caps 0 with
  | Some (Some v) => Str v
  | _ => Undefined
  end.

(** *** Occurrences in a text, without patterns *)

(** [tok] is [key], a double quote, the non-empty quote-free [v] and a
    double quote: an attribute [key] with value [v]. *)
Definition quoted (key v tok : jsstring) : Prop :=
  tok = key ++ [dq] ++ v ++ [dq] /\ v <> [] /\ ~ In dq v.

Definition film_slug_attr (tok v : jsstring) : Prop :=
  quoted (lit "data-film-slug=") v tok.

Definition item_slug_attr (tok v : jsstring) : Prop :=
  quoted (lit "data-item-slug=") v tok.

(** A link to [/film/v/], [v] non-empty and free of slashes and quotes. *)
Definition film_link (tok v : jsstring) : Prop :=
  tok = lit "href=" ++ [dq] ++ lit "/film/" ++ v ++ lit "/" ++ [dq] /\
  v <> [] /\ ~ In "/"%char v /\ ~ In dq v.

Definition slug_attr (tok v : jsstring) : Prop :=
  film_slug_attr tok v \/ item_slug_attr tok v.

Definition name_attr (tok v : jsstring) : Prop :=
  quoted (lit "data-film-name=") v tok \/ quoted (lit "data-item-name=") v tok.

Definition alt_attr (tok v : jsstring) : Prop :=
  quoted (lit "alt=") v tok.

Definition all_digits (w : jsstring) : Prop :=
  Forall (fun c => is_digit c = true) w.

(** A parenthesised group of four digits. *)
Definition year_group (tok y : jsstring) : Prop :=
  tok = lit "(" ++ y ++ lit ")" /\ length y = 4 /\ all_digits y.

(** The size token of a cropped poster: [-0-W-0-H-crop]. *)
Definition crop_token (tok : jsstring) : Prop :=
  exists w h, tok = lit "-0-" ++ w ++ lit "-0-" ++ h ++ lit "-crop" /\
              w <> [] /\ h <> [] /\ all_digits w /\ all_digits h.

(** [s = pre ++ tok ++ post] is the first place of [s] where a text with
    the property [P] (and value [v]) starts. *)
Definition first_of (P : jsstring -> jsstring -> Prop)
  (s pre tok v post : jsstring) : Prop :=
  s = pre ++ tok ++ post /\ P tok v /\
  forall pre' tok' v' post',
    s = pre' ++ tok' ++ post' -> P tok' v' -> length pre <= length pre'.

Definition none_of (P : jsstring -> jsstring -> Prop) (s : jsstring) : Prop :=
  forall pre tok v post, s = pre ++ tok ++ post -> ~ P tok v.

(** [i] is the position of the first occurrence of [needle] in [s]. *)
Definition occurs_at (needle s : jsstring) (i : nat) : Prop :=
  exists pre post, s = pre ++ needle ++ post /\ length pre = i.

Definition first_occurrence (s needle : jsstring) (i : nat) : Prop :=
  occurs_at needle s i /\ forall j, occurs_at needle s j -> i <= j.

Definition contains (s needle : jsstring) : Prop :=
  exists i, occurs_at needle s i.

(** [v] is a string, and a piece of the page. *)
Definition page_string (html : jsstring) (v : value) : Prop :=
  exists s, v = Str s /\ contains html s.

(** The characters of [s] at the positions from [i - r] (or the start) up
    to [i + r] (or the end), [i + r] excluded. *)
Definition window (s : jsstring) (i r : nat) : jsstring :=
  firstn (Nat.min (length s) (i + r) - (i - r)) (skipn (i - r) s).

(** The record [m] is built for the identifier [v] from the window of
    radius 1000 around the first occurrence of [v] in the page: the
    extractor of the workers. *)
Definition worker_record (html : jsstring) (v : value) (m : Worker.Movie)
  : Prop :=
  exists s k t y,
    v = Str s /\ first_occurrence html s k /\
    Worker.slug m = Str s /\
    Worker.title m = Str t /\
    Worker.year m = Str y /\
    Worker.resolve_name (Str s) (window html k 1000) = Ok (Str t) /\
    Worker.find_poster (window html k 1000) = Ok (Worker.poster m) /\
    Worker.extract_year (Str t) = Ok (Str y) /\
    Worker.link m = lit "https://letterboxd.com/film/" ++ s ++ lit "/".

(** The same for the serverless function, with radius 500 and no year. *)
Definition api_record (html : jsstring) (v : value) (m : Api.Movie) : Prop :=
  exists s k t p,
    v = Str s /\ first_occurrence html s k /\
    Api.slug m = Str s /\
    Api.title m = Str t /\
    Api.poster m = Str p /\
    Api.resolve_name (Str s) (window html k 500) = Ok (Str t) /\
    Api.enlarge (Api.find_poster (window html k 500)) = Str p /\
    Api.link m = lit "https://letterboxd.com/film/" ++ s ++ lit "/".

(** [y] is the year read off the title [t]: the digits of its first
    parenthesised group of four digits, or the empty string. *)
Definition year_of_title (t y : jsstring) : Prop :=
  (exists pre tok post, first_of year_group t pre tok y post) \/
  (none_of year_group t /\ y = []).

(** The small-size tokens of the workers. *)
Definition small_token (tok : jsstring) : Prop :=
  crop_token tok \/ tok = lit "-0-150-0-225-" \/ tok = lit "-0-125-0-187-".

(** The values found by scanning [s] for texts with the property [P]: the
    first such text, then the first one in what follows it, and so on. *)
Inductive scan (P : jsstring -> jsstring -> Prop)
  : jsstring -> list jsstring -> Prop :=
| scan_none s :
    none_of P s -> scan P s []
| scan_hit s pre tok v post vs :
    first_of P s pre tok v post ->
    scan P post vs ->
    scan P s (v :: vs).

(** The pages [p], [p + 1], ... of a user are fetched by the calls [c],
    [c + 1], ... without failure or challenge, and the extractor finds the
    non-empty lists [lists] in them: the workers. *)
Inductive worker_pages (net : nat -> jsstring -> Worker.fetch_outcome)
  (extract : jsstring -> result (list Worker.Movie)) (username : jsstring)
  : nat -> nat -> list (list Worker.Movie) -> Prop :=
| wp_nil c p : worker_pages net extract username c p []
| wp_cons c p ident html ms rest :
    net c (Worker.page_url username p) = Worker.Response true ident html ->
    Worker.challenge html = false ->
    extract html = Ok ms ->
    ms <> [] ->
    worker_pages net extract username (S c) (S p) rest ->
    worker_pages net extract username c p (ms :: rest).

(** The same for the serverless function. *)
Inductive api_pages (net : nat -> jsstring -> Api.fetch_outcome)
  (extract : jsstring -> result (list Api.Movie)) (username : jsstring)
  : nat -> nat -> list (list Api.Movie) -> Prop :=
| ap_nil c p : api_pages net extract username c p []
| ap_cons c p html ms rest :
    net c (Worker.page_url username p) = Api.Resolved html ->
    Worker.challenge html = false ->
    extract html = Ok ms ->
    ms <> [] ->
    api_pages net extract username (S c) (S p) rest ->
    api_pages net extract username c p (ms :: rest).

(** The number of turns a loop in this state can still make. *)
Definition worker_measure (cap : nat) (st : Worker.loop_state) : nat :=
  if Worker.hasMore st then S cap - Worker.page st else 0.

Definition api_measure (st : Api.loop_state) : nat :=
  if Api.hasMore st then 21 - Api.page st else 0.

(** One of the two markers of a bot-challenge page is in the body. *)
Definition challenge_page (html : jsstring) : Prop :=
  contains html (lit "challenge-platform") \/
  contains html (lit "Just a moment").

(** The answer to a challenge on the first page. *)
Definition challenge_response (r : http_response) : Prop :=
  status r = 503%Z /\
  exists j, body r = Some j /\ get "cloudflare" j = Some (JBool true).

(** [u'] is [u] with its first token replaced by [large], or [u] itself
    when [u] has no token. *)
Definition rewritten (is_token : jsstring -> Prop) (large u u' : jsstring)
  : Prop :=
  (exists pre tok post,
      u = pre ++ tok ++ post /\ is_token tok /\
      (forall pre' tok' post',
          u = pre' ++ tok' ++ post' -> is_token tok' ->
          length pre <= length pre') /\
      u' = pre ++ large ++ post)
  \/ ((forall pre tok post, u = pre ++ tok ++ post -> ~ is_token tok) /\
      u' = u).

(** Whether a pattern can match the empty text. *)
Fixpoint nullable (r : regex) : bool :=
  match r with
  | RLit l => match l with [] => true | _ => false end
  | RSet _ => false
  | RStar _ => true
  | RPlus _ => false
  | RCount n _ => n =? 0
  | RSeq r1 r2 => nullable r1 && nullable r2
  | RAlt r1 r2 => nullable r1 || nullable r2
  | RGroup _ r1 => nullable r1
  end.

End Spec.

(** * Concrete pages and requests *)

Module Examples.
Import JS.

(** [s] between double quotes. *)
Definition quote (s : string) : jsstring := [dq] ++ lit s ++ [dq].

(** An image more than 500 and less than 1000 characters before the only
    film of the page. *)
Definition far_page : jsstring :=
  lit "<img alt=" ++ quote "Far" ++ lit ">" ++ repeat " "%char 600
  ++ lit "<li data-film-slug=" ++ quote "dune" ++ lit ">".

(** A page whose only film is a link. *)
Definition link_page : jsstring :=
  lit "<a href=" ++ quote "/film/dune/" ++ lit ">".

(** A film with an alternate text and no name attribute. *)
Definition alt_section : jsstring :=
  lit "<li data-film-slug=" ++ quote "dune" ++ lit "><img alt="
  ++ quote "Dune" ++ lit ">".

(** A film with a name attribute that holds a year. *)
Definition named_page : jsstring :=
  lit "<li data-film-slug=" ++ quote "dune" ++ lit " data-film-name="
  ++ quote "Dune (2021)" ++ lit ">".

(** A film with nothing but its slug. *)
Definition bare_page : jsstring :=
  lit "<li data-film-slug=" ++ quote "the-thing" ++ lit ">".

Definition plain_url : jsstring := lit "https://a.ltrbxd.com/resized/x.jpg".

Definition small_url : jsstring :=
  lit "https://a.ltrbxd.com/resized/poster-0-150-0-225-crop.jpg?v=1".

Definition large_url : jsstring :=
  lit "https://a.ltrbxd.com/resized/poster-0-460-0-690-crop.jpg?v=1".

Definition get_request (random : option jsstring) : request :=
  {| req_method := "GET"; q_username := Some (lit "bob"); q_user := None;
     q_random := random |}.

Definition zero : double01 := {| mant := 0; expo := 53 |}.

(** A network that serves [pages] one after the other and empty pages
    after them. *)
Definition serve (pages : list jsstring) (k : nat) (url : jsstring)
  : Worker.fetch_outcome :=
  Worker.Response true None (nth k pages []).

Definition api_serve (pages : list jsstring) (k : nat) (url : jsstring)
  : Api.fetch_outcome :=
  Api.Resolved (nth k pages []).

Definition challenge_body : jsstring := lit "<title>Just a moment...</title>".

(** A page without any film. *)
Definition empty_page : jsstring := lit "<html><body>No films</body></html>".

Definition dune_movie : Worker.Movie :=
  {| Worker.slug := Str (lit "dune");
     Worker.title := Str (lit "Dune (2021)");
     Worker.year := Str (lit "2021");
     Worker.poster := [];
     Worker.link := lit "https://letterboxd.com/film/dune/" |}.

End Examples.

(** * More of the code *)

(** ** [fetchUrl], [src/api/watchlist.js] lines 56-87

    [https.get] is an oracle: [get k url] is what the [k]-th request of one
    call of [fetchUrl] gets for [url]. *)

Module Fetch.
Import JS.

(** The body of a response arrives in chunks and then ends, or fails. *)
Inductive body_outcome :=
| BodyEnd (chunks : list jsstring)
| BodyError (msg : string).

Inductive get_outcome :=
| GetError (msg : string)
| GetResponse (statusCode : Z) (location : option jsstring)
    (body : body_outcome).

(** The message of [new Error(`HTTP ${res.statusCode}`)]. *)
Definition http_error (statusCode : Z) : string :=
  String.append "HTTP " (NilEmpty.string_of_int (Z.to_int statusCode)).

(** [res.headers.location] as a condition: a missing header and an empty
    one are falsy. *)
Definition location_of (location : option jsstring) : option jsstring :=
  match location with
  | Some (c :: r) => Some (c :: r)
  | _ => None
  end.

Definition is_redirect (statusCode : Z) (location : option jsstring)
  : option jsstring :=
  if (300 <=? statusCode)%Z && (statusCode <? 400)%Z
  then location_of location else None.

(** [fuel] counts the redirects that can still be followed. *)
Fixpoint fetchUrl (fuel : nat) (get : nat -> jsstring -> get_outcome)
  (k : nat) (url : jsstring) : result jsstring :=
  match get k url with
  | GetError msg => Throw msg
  | GetResponse statusCode location body =>
      match is_redirect statusCode location with
      | Some target =>
          match fuel with
          | 0 => OutOfFuel
          | S fuel' => fetchUrl fuel' get (S k) target
          end
      | None =>
          if negb (statusCode =? 200)%Z then Throw (http_error statusCode)
          else match body with
               | BodyEnd chunks => Ok (concat chunks)
               | BodyError msg => Throw msg
               end
      end
  end.

End Fetch.

(** ** The answer from the third-party API

    [src/unnamed/part_000] lines 290-326, the part of the second worker's
    handler that follows a successful request to the third-party API. *)

Module Stremthru.
Import JS.

Section Values.
(** The numbers of a parsed JSON text, of which this code needs the test
    against zero and the decimal rendering only. *)
Variable num : Type.
Variable num_nonzero : num -> bool.
Variable num_to_string : num -> jsstring.

Unset Elimination Schemes.
Inductive jv :=
| JNull
| JBool (b : bool)
| JNumber (n : num)
| JString (s : jsstring)
| JArray (l : list jv)
| JObject (fields : list (jsstring * jv)).
Set Elimination Schemes.

(** An own property of a parsed object; [None] is [undefined]. *)
Fixpoint lookup (key : jsstring) (fields : list (jsstring * jv))
  : option jv :=
  match fields with
  | [] => None
  | (k, v) :: rest => if str_eqb key k then Some v else lookup key rest
  end.

(** [v.key] for the property names this code reads other than [length]
    and [map]: reading from [null] throws, an object gives its own
    property, every other value gives [undefined]. *)
Definition prop (key : string) (v : jv) : result (option jv) :=
  match v with
  | JNull =>
      Throw (String.append "Cannot read properties of null (reading '"
               (String.append key "')"))
  | JObject fields => Ok (lookup (lit key) fields)
  | _ => Ok None
  end.

Definition truthy (v : option jv) : bool :=
  match v with
  | None => false
  | Some JNull => false
  | Some (JBool b) => b
  | Some (JNumber n) => num_nonzero n
  | Some (JString s) => match s with [] => false | _ => true end
  | Some (JArray _) => true
  | Some (JObject _) => true
  end.

(** [a || b] *)
Definition or_else (a b : option jv) : option jv :=
  if truthy a then a else b.

(** [items.length === 0] for a truthy [items]. *)
Definition length_is_zero (items : jv) : bool :=
  match items with
  | JArray l => length l =? 0
  | JString s => length s =? 0
  | JObject fields =>
      match lookup (lit "length") fields with
      | Some (JNumber n) => negb (num_nonzero n)
      | _ => false
      end
  | _ => false
  end.

(** [String(v)] and the [${v}] of a template. An array is joined with
    commas, [null] among its elements giving the empty string; an object
    with an own property [toString], which no parsed value can call, has
    no primitive value. *)
Fixpoint to_String (v : jv) : result jsstring :=
  match v with
  | JNull => Ok (lit "null")
  | JBool true => Ok (lit "true")
  | JBool false => Ok (lit "false")
  | JNumber n => Ok (num_to_string n)
  | JString s => Ok s
  | JArray l =>
      (fix join (l : list jv) : result jsstring :=
         match l with
         | [] => Ok []
         | e :: r =>
             s <- match e with JNull => Ok [] | _ => to_String e end ;;
             match r with
             | [] => Ok s
             | _ => t <- join r ;; Ok (s ++ lit "," ++ t)
             end
         end) l
  | JObject fields =>
      match lookup (lit "toString") fields with
      | Some _ => Throw "Cannot convert object to primitive value"
      | None => Ok (lit "[object Object]")
      end
  end.

Definition to_String_opt (v : option jv) : result jsstring :=
  match v with
  | None => Ok (lit "undefined")
  | Some w => to_String w
  end.

(** The object built for one item, lines 301-307; a property that is
    [None] is left out of the JSON text. *)
Record movie := {
  slug : option jv;
  title : option jv;
  year : jsstring;
  poster : jv;
  tmdb : option jv;
  imdb : option jv;
  link : jsstring
}.

Definition movie_of_item (item : jv) : result movie :=
  item_slug <- prop "slug" item ;;
  item_id <- prop "id" item ;;
  item_name <- prop "name" item ;;
  item_title <- prop "title" item ;;
  item_year <- prop "year" item ;;
  year_string <- (if truthy item_year then to_String_opt item_year
                  else Ok []) ;;
  item_poster <- prop "poster" item ;;
  item_tmdb <- prop "tmdb_id" item ;;
  item_imdb <- prop "imdb_id" item ;;
  slug_string <- to_String_opt (or_else item_slug item_id) ;;
  Ok {| slug := or_else item_slug item_id;
        title := or_else item_name item_title;
        year := year_string;
        poster := match or_else item_poster (Some (JString [])) with
                  | Some p => p
                  | None => JString []
                  end;
        tmdb := item_tmdb;
        imdb := item_imdb;
        link := lit "https://letterboxd.com/film/" ++ slug_string
                ++ lit "/" |}.

Fixpoint map_items (items : list jv) : result (list movie) :=
  match items with
  | [] => Ok []
  | item :: rest =>
      m <- movie_of_item item ;;
      ms <- map_items rest ;;
      Ok (m :: ms)
  end.

(** [items.map(...)]: only an array has [map]. *)
Definition call_map (items : jv) : result (list movie) :=
  match items with
  | JArray l => map_items l
  | _ => Throw "data.data.items.map is not a function"
  end.

(** The objects given to [JSON.stringify]. *)
Inductive body :=
| Failure (msg : string)
| Movies (movies : list movie) (total : nat)
| Movie (movie : option movie) (total : nat).

Record response := {
  status : Z;
  content : body
}.

Inductive parsed :=
| Parsed (data : jv)
| SyntaxError (msg : string).

Definition empty_watchlist : response :=
  {| status := 404; content := Failure "Watchlist is empty" |}.

(** Lines 290-326, up to the [catch]. *)
Definition from_items (data : jv) (random : bool) (rnd : double01)
  : result response :=
  d <- prop "data" data ;;
  match d with
  | None => Ok empty_watchlist
  | Some dv =>
      if negb (truthy d) then Ok empty_watchlist
      else
        items <- prop "items" dv ;;
        match items with
        | None => Ok empty_watchlist
        | Some iv =>
            if negb (truthy items) then Ok empty_watchlist
            else if length_is_zero iv then Ok empty_watchlist
            else
              movies <- call_map iv ;;
              if random then
                Ok {| status := 200;
                      content :=
                        Movie (nth_error movies
                                 (random_index rnd (length movies)))
                          (length movies) |}
              else
                Ok {| status := 200;
                      content := Movies movies (length movies) |}
        end
  end.

(** With the [catch] of lines 328-334. *)
Definition answer (p : parsed) (req : request) (rnd : double01)
  : result response :=
  match p with
  | SyntaxError msg => Ok {| status := 500; content := Failure msg |}
  | Parsed data =>
      match from_items data (wants_random req) rnd with
      | Ok r => Ok r
      | Throw msg => Ok {| status := 500; content := Failure msg |}
      | OutOfFuel => OutOfFuel
      end
  end.

(** What [v.key] is for a value that is not [null]. *)
Definition get (key : string) (v : jv) : option jv :=
  match v with
  | JObject fields => lookup (lit key) fields
  | _ => None
  end.

(** [data.data.items], when [data.data] is truthy. *)
Definition items_of (data : jv) : option jv :=
  match get "data" data with
  | Some dv => if truthy (Some dv) then get "items" dv else None
  | None => None
  end.

(** No object inside [v] has an own property [toString]. *)
Fixpoint plain (v : jv) : bool :=
  match v with
  | JArray l => forallb plain l
  | JObject fields =>
      match lookup (lit "toString") fields with
      | Some _ => false
      | None => true
      end
  | _ => true
  end.

(** An item that is an object whose [slug], [id] and [year] are plain. *)
Definition plain_item (item : jv) : Prop :=
  exists fields,
    item = JObject fields /\
    forall key v,
      In key ["slug"; "id"; "year"]%string ->
      lookup (lit key) fields = Some v -> plain v = true.

(** What the record of an item holds. *)
Definition record_of (item : jv) (m : movie) : Prop :=
  slug m = or_else (get "slug" item) (get "id" item) /\
  title m = or_else (get "name" item) (get "title" item) /\
  tmdb m = get "tmdb_id" item /\ imdb m = get "imdb_id" item /\
  exists s,
    to_String_opt (slug m) = Ok s /\
    link m = lit "https://letterboxd.com/film/" ++ s ++ lit "/".
End Values.

Arguments JNull {num}.
Arguments JBool {num} b.
Arguments JNumber {num} n.
Arguments JString {num} s.
Arguments JArray {num} l.
Arguments JObject {num} fields.
Arguments lookup {num} key fields.
Arguments prop {num} key v.
Arguments get {num} key v.
Arguments truthy {num} num_nonzero v.
Arguments or_else {num} num_nonzero a b.
Arguments length_is_zero {num} num_nonzero items.
Arguments to_String {num} num_to_string v.
Arguments to_String_opt {num} num_to_string v.
Arguments movie_of_item {num} num_nonzero num_to_string item.
Arguments map_items {num} num_nonzero num_to_string items.
Arguments call_map {num} num_nonzero num_to_string items.
Arguments from_items {num} num_nonzero num_to_string data random rnd.
Arguments answer {num} num_nonzero num_to_string p req rnd.
Arguments items_of {num} num_nonzero data.
Arguments plain {num} v.
Arguments plain_item {num} item.
Arguments record_of {num} num_nonzero num_to_string item m.
Arguments slug {num} m.
Arguments title {num} m.
Arguments year {num} m.
Arguments poster {num} m.
Arguments tmdb {num} m.
Arguments imdb {num} m.
Arguments link {num} m.
Arguments Failure {num} msg.
Arguments Movies {num} movies total.
Arguments Movie {num} movie total.
Arguments status {num} r.
Arguments content {num} r.
Arguments Parsed {num} data.
Arguments SyntaxError {num} msg.
Arguments empty_watchlist {num}.

End Stremthru.

(** ** Notions for the properties of the whole *)

Module Props.
Import JS Spec.

(** A non-empty string of the page without double quote. *)
Definition slug_like (html : jsstring) (v : value) : Prop :=
  exists s, v = Str s /\ s <> [] /\ ~ In dq s /\ contains html s.

Definition value_eq_dec (v w : value) : {v = w} + {v <> w}.
Proof. decide equality. apply (list_eq_dec ascii_dec). Defined.

(** The values of [l] in the order of their first occurrence. *)
Definition first_seen (l : list value) : list value :=
  rev (nodup value_eq_dec (rev l)).

(** A page that ends the loop of the workers: a response that is not OK, a
    challenge, or a page without films. *)
Definition worker_last_page (net : nat -> jsstring -> Worker.fetch_outcome)
  (extract : jsstring -> result (list Worker.Movie)) (username : jsstring)
  (c p : nat) : Prop :=
  exists ok ident html,
    net c (Worker.page_url username p) = Worker.Response ok ident html /\
    (ok = false \/ Worker.challenge html = true \/ extract html = Ok []).

(** The same for the serverless function: a rejected fetch, a challenge, a
    page without films. *)
Definition api_last_page (net : nat -> jsstring -> Api.fetch_outcome)
  (extract : jsstring -> result (list Api.Movie)) (username : jsstring)
  (c p : nat) : Prop :=
  net c (Worker.page_url username p) = Api.Rejected \/
  exists html,
    net c (Worker.page_url username p) = Api.Resolved html /\
    (Worker.challenge html = true \/ extract html = Ok []).

(** Two networks give the same for the calls a loop with this cap can
    make: call [c + k] for page [k + 1]. *)
Definition same_pages (A : Type) (cap c : nat) (username : jsstring)
  (net net' : nat -> jsstring -> A) : Prop :=
  forall k, k < cap ->
    net (c + k) (Worker.page_url username (S k))
    = net' (c + k) (Worker.page_url username (S k)).

Arguments same_pages {A} cap c username net net'.

(** A chain of redirects: the requests [k], [k + 1], ... for [url] and
    then for each target are answered by a status from 300 to 399 with
    the next target as non-empty [Location]; [last] is where it ends. *)
Inductive redirects (get : nat -> jsstring -> Fetch.get_outcome)
  : nat -> jsstring -> list jsstring -> jsstring -> Prop :=
| rd_nil k url : redirects get k url [] url
| rd_cons k url statusCode c target body rest last :
    get k url = Fetch.GetResponse statusCode (Some (c :: target)) body ->
    (300 <= statusCode < 400)%Z ->
    redirects get (S k) (c :: target) rest last ->
    redirects get k url ((c :: target) :: rest) last.

(** The outcomes of [fetchUrl] as the fetches of the serverless function:
    [get k] is what the requests made for the [k]-th fetch get. *)
Definition fetched (fuel : nat)
  (get : nat -> nat -> jsstring -> Fetch.get_outcome)
  (net : nat -> jsstring -> Api.fetch_outcome) : Prop :=
  forall k url,
    match Fetch.fetchUrl fuel (get k) 0 url with
    | Ok html => net k url = Api.Resolved html
    | Throw _ => net k url = Api.Rejected
    | OutOfFuel => True
    end.



(** Two outcomes of a fetch that differ in the body of the response at
    most. *)
Definition same_head (a b : Worker.fetch_outcome) : Prop :=
  match a, b with
  | Worker.FetchError m, Worker.FetchError m' => m = m'
  | Worker.Response ok ident _, Worker.Response ok' ident' _ =>
      ok = ok' /\ ident = ident'
  | _, _ => False
  end.

(** Integers as the numbers of a parsed JSON text: below [10^21] in
    magnitude the string of such a number is its decimal expansion. *)
Definition z_nonzero (n : Z) : bool := negb (n =? 0)%Z.

Definition z_show (n : Z) : jsstring :=
  lit (NilEmpty.string_of_int (Z.to_int n)).

Definition dune_item : Stremthru.jv Z :=
  Stremthru.JObject
    [(lit "slug", Stremthru.JString (lit "dune"));
     (lit "name", Stremthru.JString (lit "Dune"));
     (lit "year", Stremthru.JNumber 2021%Z)].

Definition watchlist_of (items : Stremthru.jv Z) : Stremthru.jv Z :=
  Stremthru.JObject
    [(lit "data", Stremthru.JObject [(lit "items", items)])].

End Props.

(** * The matcher against the declarative reading *)

Lemma firstn_consumed (A : Type) (tok rest : list A) :
  firstn (length (tok ++ rest) - length rest) (tok ++ rest) = tok.
Proof.
  rewrite length_app.
  replace (length tok + length rest - length rest) with (length tok) by lia.
  rewrite firstn_app, firstn_all, Nat.sub_diag. simpl. apply app_nil_r.
Qed.

Section Matcher.
Import JS Spec.

Variable ci : bool.

Lemma strip_lit_sound l : forall s s',
  strip_lit ci l s = Some s' ->
  exists tok, s = tok ++ s' /\
              Forall2 (fun x y => char_eq ci x y = true) l tok.
Proof.
  induction l as [|x l IH]; intros s s' H; simpl in H.
  - inversion H; subst. exists []. split; [reflexivity|constructor].
  - destruct s as [|y s0]; [discriminate|].
    destruct (char_eq ci x y) eqn:E; [|discriminate].
    destruct (IH _ _ H) as [tok [-> F]].
    exists (y :: tok). split; [reflexivity|constructor; assumption].
Qed.

Lemma strip_lit_complete l : forall tok s',
  Forall2 (fun x y => char_eq ci x y = true) l tok ->
  strip_lit ci l (tok ++ s') = Some s'.
Proof.
  induction l as [|x l IH]; intros tok s' F; inversion F; subst; simpl.
  - reflexivity.
  - rewrite H1. apply IH. assumption.
Qed.

Lemma take_class_sound c n : forall s s',
  take_class ci c n s = Some s' ->
  exists tok, s = tok ++ s' /\ length tok = n /\
              Forall (fun a => in_class ci c a = true) tok.
Proof.
  induction n as [|n IH]; intros s s' H; simpl in H.
  - inversion H; subst. exists []. repeat split; constructor.
  - destruct s as [|a s0]; [discriminate|].
    destruct (in_class ci c a) eqn:E; [|discriminate].
    destruct (IH _ _ H) as [tok [-> [L F]]].
    exists (a :: tok). repeat split; simpl; [congruence|constructor; assumption].
Qed.

Lemma take_class_complete c : forall tok s',
  Forall (fun a => in_class ci c a = true) tok ->
  take_class ci c (length tok) (tok ++ s') = Some s'.
Proof.
  induction tok as [|a tok IH]; intros s' F; simpl.
  - reflexivity.
  - inversion F; subst. rewrite H1. apply IH. assumption.
Qed.

Lemma star_class_sound c caps k : forall s res,
  star_class ci c s caps k = Some res ->
  exists tok s', s = tok ++ s' /\
                 Forall (fun a => in_class ci c a = true) tok /\
                 k s' caps = Some res.
Proof.
  induction s as [|a s IH]; intros res H; simpl in H.
  - exists [], []. repeat split; [constructor|assumption].
  - destruct (in_class ci c a) eqn:E.
    + destruct (star_class ci c s caps k) eqn:E2.
      * inversion H; subst.
        destruct (IH _ eq_refl) as [tok [s' [-> [F K]]]].
        exists (a :: tok), s'. repeat split; [constructor|]; assumption.
      * exists [], (a :: s). repeat split; [constructor|assumption].
    + exists [], (a :: s). repeat split; [constructor|assumption].
Qed.

Lemma star_class_complete c caps k : forall tok s',
  star_class ci c (tok ++ s') caps k = None ->
  Forall (fun a => in_class ci c a = true) tok ->
  k s' caps = None.
Proof.
  induction tok as [|a tok IH]; intros s' H F; simpl in H.
  - destruct s' as [|b s']; simpl in H; [assumption|].
    destruct (in_class ci c b); [|assumption].
    destruct (star_class ci c s' caps k); [discriminate|assumption].
  - inversion F; subst. rewrite H2 in H.
    destruct (star_class ci c (tok ++ s') caps k) eqn:E; [discriminate|].
    apply IH; assumption.
Qed.

(** Soundness: a successful run of the matcher consumed a text of the
    language and handed the rest to its continuation. *)
Lemma rmatch_sound r : forall s caps k res,
  rmatch ci r s caps k = Some res ->
  exists tok s' caps',
    s = tok ++ s' /\ derives ci r tok caps caps' /\ k s' caps' = Some res.
Proof.
  induction r as [l|c|c|c|n c|r1 IH1 r2 IH2|r1 IH1 r2 IH2|i r1 IH1];
    intros s caps k res H; simpl in H.
  - destruct (strip_lit ci l s) as [s'|] eqn:E; [|discriminate].
    destruct (strip_lit_sound _ _ _ E) as [tok [-> F]].
    exists tok, s', caps. repeat split; [constructor|]; assumption.
  - destruct s as [|a s0]; [discriminate|].
    destruct (in_class ci c a) eqn:E; [|discriminate].
    exists [a], s0, caps. repeat split; [constructor|]; assumption.
  - destruct (star_class_sound _ _ _ _ _ H) as [tok [s' [-> [F K]]]].
    exists tok, s', caps. repeat split; [constructor|]; assumption.
  - unfold plus_class in H.
    destruct s as [|a s0]; [discriminate|].
    destruct (in_class ci c a) eqn:E; [|discriminate].
    destruct (star_class_sound _ _ _ _ _ H) as [tok [s' [-> [F K]]]].
    exists (a :: tok), s', caps. repeat split; [|assumption].
    constructor; [discriminate|constructor; assumption].
  - destruct (take_class ci c n s) as [s'|] eqn:E; [|discriminate].
    destruct (take_class_sound _ _ _ _ E) as [tok [-> [L F]]].
    exists tok, s', caps. repeat split; [constructor|]; assumption.
  - destruct (IH1 _ _ _ _ H) as [t1 [s1 [c1 [-> [D1 K1]]]]].
    destruct (IH2 _ _ _ _ K1) as [t2 [s2 [c2 [-> [D2 K2]]]]].
    exists (t1 ++ t2), s2, c2. repeat split.
    + now rewrite app_assoc.
    + econstructor; eassumption.
    + assumption.
  - destruct (rmatch ci r1 s caps k) eqn:E.
    + inversion H; subst.
      destruct (IH1 _ _ _ _ E) as [tok [s' [c' [-> [D K]]]]].
      exists tok, s', c'. repeat split; [apply D_alt_l|]; assumption.
    + destruct (IH2 _ _ _ _ H) as [tok [s' [c' [-> [D K]]]]].
      exists tok, s', c'. repeat split; [apply D_alt_r|]; assumption.
  - destruct (IH1 _ _ _ _ H) as [tok [s' [c' [-> [D K]]]]].
    exists tok, s', (set_cap (i - 1) tok c'). repeat split.
    + constructor. assumption.
    + rewrite length_app in K.
      replace (length tok + length s' - length s') with (length tok) in K by lia.
      rewrite firstn_app, firstn_all, Nat.sub_diag in K. simpl in K.
      rewrite app_nil_r in K. assumption.
Qed.

(** Completeness: when the matcher fails, every way of reading a prefix of
    the input in the language leads to a failing continuation. *)
Lemma rmatch_complete r : forall tok caps caps',
  derives ci r tok caps caps' ->
  forall s' k, rmatch ci r (tok ++ s') caps k = None -> k s' caps' = None.
Proof.
  intros tok caps caps' D.
  induction D; intros s' k Hm; simpl in Hm.
  - rewrite (strip_lit_complete _ _ s' H) in Hm. assumption.
  - rewrite H in Hm. assumption.
  - eapply star_class_complete; eassumption.
  - unfold plus_class in Hm. destruct tok as [|a tok]; [congruence|].
    inversion H0; subst. simpl in Hm. rewrite H3 in Hm.
    eapply star_class_complete; eassumption.
  - subst n. rewrite (take_class_complete cl _ s' H0) in Hm. assumption.
  - rewrite <- app_assoc in Hm.
    apply IHD1 in Hm. apply IHD2 in Hm. assumption.
  - destruct (rmatch ci r1 (tok ++ s') c k) eqn:E; [discriminate|].
    apply IHD. assumption.
  - destruct (rmatch ci r1 (tok ++ s') c k) eqn:E; [discriminate|].
    apply IHD. assumption.
  - apply IHD in Hm.
    rewrite length_app in Hm.
    replace (length tok + length s' - length s') with (length tok) in Hm by lia.
    rewrite firstn_app, firstn_all, Nat.sub_diag in Hm. simpl in Hm.
    rewrite app_nil_r in Hm. assumption.
Qed.

Lemma derives_nonempty r tok c c' :
  derives ci r tok c c' -> nullable r = false -> tok <> [].
Proof.
  induction 1; simpl; intro N.
  - destruct l; [discriminate|]. inversion H; subst. discriminate.
  - discriminate.
  - discriminate.
  - assumption.
  - subst n. destruct tok; [discriminate|discriminate].
  - apply andb_false_iff in N. destruct N as [N|N].
    + specialize (IHderives1 N). destruct t1; [congruence|discriminate].
    + specialize (IHderives2 N). destruct t2; [congruence|].
      destruct t1; discriminate.
  - apply orb_false_iff in N. tauto.
  - apply orb_false_iff in N. tauto.
  - auto.
Qed.

End Matcher.

Section Search.
Import JS Spec.

Variable p : pattern.

Lemma match_here_sound s s' caps :
  match_here p s = Some (s', caps) ->
  exists tok, s = tok ++ s' /\ matches p tok caps.
Proof.
  unfold match_here. intro H.
  destruct (rmatch_sound _ _ _ _ _ _ H) as [tok [s1 [c1 [-> [D K]]]]].
  inversion K; subst. exists tok. split; [reflexivity|exact D].
Qed.

Lemma match_here_none tok post caps :
  match_here p (tok ++ post) = None -> ~ matches p tok caps.
Proof.
  unfold match_here. intros H D.
  pose proof (rmatch_complete _ _ _ _ _ D _ _ H) as K. discriminate.
Qed.

Lemma search_here i s s' caps :
  match_here p s = Some (s', caps) ->
  search p i s = Some {| m_index := i;
                         m_all := firstn (length s - length s') s;
                         m_caps := caps |}.
Proof. intro H. destruct s; simpl; rewrite H; reflexivity. Qed.

Lemma search_skip i a s :
  match_here p (a :: s) = None -> search p i (a :: s) = search p (S i) s.
Proof. intro H. simpl. rewrite H. reflexivity. Qed.

Lemma search_sound : forall s i m,
  search p i s = Some m ->
  exists pre post,
    leftmost p s pre (m_all m) post (m_caps m) /\
    m_index m = i + length pre.
Proof.
  assert (Here : forall s i m s' caps,
             match_here p s = Some (s', caps) -> search p i s = Some m ->
             exists pre post,
               leftmost p s pre (m_all m) post (m_caps m) /\
               m_index m = i + length pre).
  { intros s i m s' caps E H.
    rewrite (search_here i _ _ _ E) in H. injection H as <-.
    destruct (match_here_sound _ _ _ E) as [tok [Es M]].
    exists [], s'. cbv beta iota delta [m_all m_caps m_index].
    split; [|simpl; lia].
    rewrite Es, firstn_consumed.
    split; [reflexivity|]. split; [assumption|]. intros; simpl; lia. }
  induction s as [|a s IH]; intros i m H.
  - destruct (match_here p []) as [[s' caps]|] eqn:E.
    + eapply Here; eassumption.
    + simpl in H. rewrite E in H. discriminate.
  - destruct (match_here p (a :: s)) as [[s' caps]|] eqn:E.
    + eapply Here; eassumption.
    + rewrite (search_skip i _ _ E) in H.
      destruct (IH _ _ H) as [pre [post [[Es [M L]] Ei]]].
      exists (a :: pre), post. split; [|simpl; lia].
      split; [simpl; congruence|]. split; [assumption|].
      intros pre' tok' post' caps' Es' M'.
      destruct pre' as [|b pre'].
      * simpl in Es'. rewrite Es' in E.
        exfalso. exact (match_here_none _ _ _ E M').
      * simpl in Es'. inversion Es'; subst b.
        simpl. apply le_n_S. eapply L; eassumption.
Qed.

Lemma search_none : forall s i, search p i s = None -> ~ occurs p s.
Proof.
  induction s as [|a s IH]; intros i H; simpl in H.
  - destruct (match_here p []) as [[s' caps]|] eqn:E; [discriminate|].
    intros [pre [tok [post [caps [Es M]]]]].
    symmetry in Es. apply app_eq_nil in Es. destruct Es as [-> Es].
    apply app_eq_nil in Es. destruct Es as [-> ->].
    exact (match_here_none [] [] _ E M).
  - destruct (match_here p (a :: s)) as [[s' caps]|] eqn:E; [discriminate|].
    intros [pre [tok [post [caps [Es M]]]]].
    destruct pre as [|b pre].
    + simpl in Es. rewrite Es in E. exact (match_here_none _ _ _ E M).
    + simpl in Es. inversion Es; subst b.
      apply (IH _ H). exists pre, tok, post, caps. split; assumption.
Qed.

Lemma str_match_sound s m :
  str_match s p = Some m ->
  exists pre post,
    leftmost p s pre (m_all m) post (m_caps m) /\ m_index m = length pre.
Proof.
  unfold str_match. intro H.
  destruct (search_sound _ _ _ H) as [pre [post [L E]]].
  exists pre, post. split; [assumption|now rewrite E].
Qed.

Lemma str_match_none s : str_match s p = None -> ~ occurs p s.
Proof. apply search_none. Qed.

(** The leftmost match starts at one position only. *)
Lemma leftmost_position s pre tok post caps pre' tok' post' caps' :
  leftmost p s pre tok post caps ->
  leftmost p s pre' tok' post' caps' ->
  pre = pre'.
Proof.
  intros [E [M L]] [E' [M' L']].
  pose proof (L _ _ _ _ E' M'). pose proof (L' _ _ _ _ E M).
  assert (Hl : length pre = length pre') by lia.
  assert (F : forall x y : jsstring, firstn (length x) (x ++ y) = x).
  { intros x y. rewrite firstn_app, firstn_all, Nat.sub_diag.
    simpl. apply app_nil_r. }
  rewrite <- (F pre (tok ++ post)), <- (F pre' (tok' ++ post')).
  rewrite <- E, <- E', Hl. reflexivity.
Qed.

(** [replace] rewrites the leftmost match and nothing else. *)
Lemma replace_first_spec s by_ :
  (exists pre tok post caps,
      leftmost p s pre tok post caps /\
      replace_first s p by_ = pre ++ by_ ++ post)
  \/ (~ occurs p s /\ replace_first s p by_ = s).
Proof.
  unfold replace_first.
  destruct (str_match s p) as [m|] eqn:E.
  - left. destruct (str_match_sound _ _ E) as [pre [post [L Ei]]].
    exists pre, (m_all m), post, (m_caps m). split; [assumption|].
    destruct L as [Es _]. unfold m_end. rewrite Ei.
    rewrite Es at 1 2.
    rewrite firstn_app, firstn_all, Nat.sub_diag. simpl. rewrite app_nil_r.
    rewrite skipn_app, skipn_all2 by lia. simpl.
    replace (length pre + length (m_all m) - length pre)
      with (length (m_all m)) by lia.
    rewrite skipn_app, skipn_all, Nat.sub_diag. reflexivity.
  - right. split; [apply str_match_none; assumption|reflexivity].
Qed.

(** The collecting loop of a pattern that cannot match the empty text ends
    within [length s - li] turns and folds its body over the successive
    matches. *)
Lemma exec_loop_spec (A : Type) (body : match_result -> A -> A)
  (f : captures -> A -> A) s :
  nullable (p_re p) = false ->
  (forall m acc, body m acc = f (m_caps m) acc) ->
  forall fuel li acc,
    li <= length s -> length s - li <= fuel ->
    exists l,
      successive p (skipn li s) l /\
      exec_loop fuel p s li body acc
      = Ok (fold_left (fun a c => f c a) l acc).
Proof.
  intros N Hb.
  induction fuel as [|fuel IH]; intros li acc Hli Hf.
  - assert (li = length s) by lia. subst li.
    simpl. unfold exec_from. rewrite Nat.ltb_irrefl.
    rewrite skipn_all.
    destruct (search p (length s) []) as [m|] eqn:E.
    + destruct (search_sound _ _ _ E) as [pre [post [[Es [M _]] _]]].
      symmetry in Es. apply app_eq_nil in Es. destruct Es as [_ Es].
      apply app_eq_nil in Es. destruct Es as [Es _].
      exfalso. exact (derives_nonempty _ _ _ _ _ M N Es).
    + exists []. split; [|reflexivity].
      constructor. eapply search_none; eassumption.
  - simpl. unfold exec_from.
    destruct (length s <? li) eqn:El; [apply Nat.ltb_lt in El; lia|].
    destruct (search p li (skipn li s)) as [m|] eqn:E.
    + destruct (search_sound _ _ _ E) as [pre [post [L Ei]]].
      pose proof L as [Es [M _]].
      assert (Ht : m_all m <> []) by exact (derives_nonempty _ _ _ _ _ M N).
      assert (Hlen : length (skipn li s)
                     = length pre + length (m_all m) + length post).
      { rewrite Es, !length_app. lia. }
      rewrite length_skipn in Hlen.
      assert (Hpos : 0 < length (m_all m)).
      { destruct (m_all m); [congruence|simpl; lia]. }
      assert (Hend : skipn (m_end m) s = post).
      { unfold m_end. rewrite Ei.
        replace (li + length pre + length (m_all m))
          with ((length pre + length (m_all m)) + li) by lia.
        rewrite <- skipn_skipn, Es.
        rewrite app_assoc, skipn_app, skipn_all2 by (rewrite length_app; lia).
        rewrite length_app, Nat.sub_diag. reflexivity. }
      destruct (IH (m_end m) (body m acc)) as [l [Sl El']].
      * unfold m_end. lia.
      * unfold m_end. lia.
      * exists (m_caps m :: l). split.
        -- econstructor; [eassumption|]. rewrite <- Hend. assumption.
        -- rewrite El'. simpl. now rewrite Hb.
    + exists []. split; [|reflexivity].
      constructor. eapply search_none; eassumption.
Qed.

End Search.

(** * The patterns of the program, read declaratively *)

Section Inversion.
Import JS Spec.

Lemma char_eq_false_iff x y : char_eq false x y = true <-> x = y.
Proof. unfold char_eq, canon. apply Ascii.eqb_eq. Qed.

Lemma lit_exact l : forall tok,
  Forall2 (fun x y => char_eq false x y = true) l tok <-> tok = l.
Proof.
  induction l as [|x l IH]; intro tok; split; intro H.
  - inversion H. reflexivity.
  - subst. constructor.
  - inversion H; subst. apply char_eq_false_iff in H2. subst.
    f_equal. now apply IH.
  - subst. constructor; [now apply char_eq_false_iff|now apply IH].
Qed.

Lemma existsb_char_eq cs a :
  existsb (fun x => char_eq false x a) cs = true <-> In a cs.
Proof.
  rewrite existsb_exists. split.
  - intros [x [Hin He]]. apply char_eq_false_iff in He. now subst.
  - intro Hin. exists a. split; [assumption|now apply char_eq_false_iff].
Qed.

Lemma in_class_not cs a : in_class false (CNot cs) a = true <-> ~ In a cs.
Proof.
  simpl. rewrite negb_true_iff, <- not_true_iff_false.
  now rewrite existsb_char_eq.
Qed.

Lemma all_not_in cs v :
  Forall (fun a => in_class false (CNot cs) a = true) v <->
  (forall d, In d cs -> ~ In d v).
Proof.
  rewrite Forall_forall. split.
  - intros H d Hd Hv. apply H in Hv. apply in_class_not in Hv. tauto.
  - intros H a Ha. apply in_class_not. intro Hc. exact (H a Hc Ha).
Qed.

Variable ci : bool.

Lemma derives_seq_iff r1 r2 tok c c' :
  derives ci (RSeq r1 r2) tok c c' <->
  exists t1 t2 c1, tok = t1 ++ t2 /\ derives ci r1 t1 c c1 /\
                   derives ci r2 t2 c1 c'.
Proof.
  split.
  - intro H. inversion H; subst. eauto 6.
  - intros [t1 [t2 [c1 [-> [H1 H2]]]]]. econstructor; eassumption.
Qed.

Lemma derives_alt_iff r1 r2 tok c c' :
  derives ci (RAlt r1 r2) tok c c' <->
  derives ci r1 tok c c' \/ derives ci r2 tok c c'.
Proof.
  split.
  - intro H. inversion H; subst; tauto.
  - intros [H|H]; [apply D_alt_l|apply D_alt_r]; assumption.
Qed.

Lemma derives_group_iff i r tok c c' :
  derives ci (RGroup i r) tok c c' <->
  exists c1, derives ci r tok c c1 /\ c' = set_cap (i - 1) tok c1.
Proof.
  split.
  - intro H. inversion H; subst. eauto.
  - intros [c1 [H ->]]. constructor. assumption.
Qed.

Lemma derives_plus_iff cl tok c c' :
  derives ci (RPlus cl) tok c c' <->
  tok <> [] /\ Forall (fun a => in_class ci cl a = true) tok /\ c' = c.
Proof.
  split.
  - intro H. inversion H; subst. auto.
  - intros [H1 [H2 ->]]. constructor; assumption.
Qed.

Lemma derives_star_iff cl tok c c' :
  derives ci (RStar cl) tok c c' <->
  Forall (fun a => in_class ci cl a = true) tok /\ c' = c.
Proof.
  split.
  - intro H. inversion H; subst. auto.
  - intros [H2 ->]. constructor; assumption.
Qed.

Lemma derives_count_iff n cl tok c c' :
  derives ci (RCount n cl) tok c c' <->
  length tok = n /\ Forall (fun a => in_class ci cl a = true) tok /\ c' = c.
Proof.
  split.
  - intro H. inversion H; subst. auto.
  - intros [H1 [H2 ->]]. constructor; assumption.
Qed.

Lemma derives_lit_iff l tok c c' :
  derives ci (RLit l) tok c c' <->
  Forall2 (fun x y => char_eq ci x y = true) l tok /\ c' = c.
Proof.
  split.
  - intro H. inversion H; subst. auto.
  - intros [H1 ->]. constructor; assumption.
Qed.

End Inversion.

Lemma derives_exact l tok c c' :
  Spec.derives false (JS.RLit l) tok c c' <-> tok = l /\ c' = c.
Proof. rewrite derives_lit_iff, lit_exact. tauto. Qed.

Section Shapes.
Import JS Spec.

(** [key([^cs]+)close], the shape of the attribute and link patterns. *)
Lemma delimited_shape key cs close tok c c' :
  derives false (RLit key +++ RGroup 1 (RPlus (CNot cs)) +++ RLit close)
    tok c c' <->
  exists v, tok = key ++ v ++ close /\ v <> [] /\
            (forall d, In d cs -> ~ In d v) /\ c' = set_cap 0 v c.
Proof.
  rewrite derives_seq_iff. split.
  - intros [t1 [t2 [c1 [-> [H1 H2]]]]].
    apply derives_exact in H1. destruct H1 as [-> ->].
    apply derives_seq_iff in H2.
    destruct H2 as [v [t3 [c2 [-> [H2 H3]]]]].
    apply derives_exact in H3. destruct H3 as [-> ->].
    apply derives_group_iff in H2. destruct H2 as [c3 [H2 ->]].
    apply derives_plus_iff in H2. destruct H2 as [Hne [Hall ->]].
    exists v. repeat split; try assumption. now apply all_not_in.
  - intros [v [-> [Hne [Hall ->]]]].
    exists key, (v ++ close), c. split; [reflexivity|].
    split; [now apply derives_exact|].
    apply derives_seq_iff. exists v, close, (set_cap 0 v c).
    split; [reflexivity|]. split; [|now apply derives_exact].
    apply derives_group_iff. exists c. split; [|reflexivity].
    apply derives_plus_iff. repeat split; try assumption.
    now apply all_not_in.
Qed.

Lemma not_in_single (d : ascii) v : (forall x, In x [d] -> ~ In x v) <-> ~ In d v.
Proof.
  split.
  - intro H. apply H. now left.
  - intros H x [<-|[]]. assumption.
Qed.

Lemma quoted_shape key tok c c' :
  derives false
    (RLit (key ++ [dq]) +++ RGroup 1 (RPlus (CNot [dq])) +++ RLit [dq])
    tok c c' <->
  exists v, quoted key v tok /\ c' = set_cap 0 v c.
Proof.
  rewrite delimited_shape. unfold quoted.
  split; intros [v H]; exists v; rewrite not_in_single in *;
    rewrite <- app_assoc in *; tauto.
Qed.

Lemma slugPattern1_shape tok caps :
  matches Worker.slugPattern1 tok caps <->
  exists v, film_slug_attr tok v /\ caps = [Some v].
Proof. apply quoted_shape. Qed.

Lemma slugPattern2_shape tok caps :
  matches Worker.slugPattern2 tok caps <->
  exists v, item_slug_attr tok v /\ caps = [Some v].
Proof. apply quoted_shape. Qed.

Lemma altPattern_shape tok caps :
  matches Worker.altPattern tok caps <->
  exists v, alt_attr tok v /\ caps = [Some v].
Proof. apply quoted_shape. Qed.

Lemma slugPattern3_shape tok caps :
  matches Worker.slugPattern3 tok caps <->
  exists v, film_link tok v /\ caps = [Some v].
Proof.
  unfold matches, Worker.slugPattern3; simpl p_re; simpl p_ci; simpl p_groups.
  rewrite delimited_shape. unfold film_link.
  split.
  - intros [v [E [Hne [Hn Hc]]]]. exists v.
    split; [|exact Hc]. split; [exact E|]. split; [exact Hne|]. split.
    + apply Hn. now left.
    + apply Hn. right. now left.
  - intros [v [[E [Hne [Hn1 Hn2]]] Hc]]. exists v.
    split; [exact E|]. split; [exact Hne|]. split; [|exact Hc].
    intros d [<-|[<-|[]]]; assumption.
Qed.

(** [data-(?:film|item)-KEY=\x22([^\x22]+)\x22] *)
Lemma film_or_item_shape key tok c c' :
  derives false
    (RLit (lit "data-") +++ RAlt (RLit (lit "film")) (RLit (lit "item"))
     +++ RLit (key ++ [dq]) +++ RGroup 1 (RPlus (CNot [dq])) +++ RLit [dq])
    tok c c' <->
  exists v, (quoted (lit "data-film" ++ key) v tok \/
             quoted (lit "data-item" ++ key) v tok) /\ c' = set_cap 0 v c.
Proof.
  rewrite derives_seq_iff. split.
  - intros [t1 [t2 [c1 [-> [H1 H2]]]]].
    apply derives_exact in H1. destruct H1 as [-> ->].
    apply derives_seq_iff in H2.
    destruct H2 as [t3 [t4 [c2 [-> [H2 H3]]]]].
    apply quoted_shape in H3. destruct H3 as [v [[-> [Hne Hn]] ->]].
    exists v. apply derives_alt_iff in H2.
    destruct H2 as [H2|H2]; apply derives_exact in H2;
      destruct H2 as [-> ->]; (split; [|reflexivity]); [left|right];
      (split; [|split; assumption]); rewrite <- !app_assoc; reflexivity.
  - intros [v [[[-> [Hne Hn]]|[-> [Hne Hn]]] ->]].
    + exists (lit "data-"), (lit "film" ++ key ++ [dq] ++ v ++ [dq]), c.
      split; [now rewrite <- !app_assoc|]. split; [now apply derives_exact|].
      apply derives_seq_iff. exists (lit "film"), (key ++ [dq] ++ v ++ [dq]), c.
      split; [reflexivity|]. split.
      * apply derives_alt_iff. left. now apply derives_exact.
      * apply quoted_shape. exists v. split; [|reflexivity].
        split; [reflexivity|split; assumption].
    + exists (lit "data-"), (lit "item" ++ key ++ [dq] ++ v ++ [dq]), c.
      split; [now rewrite <- !app_assoc|]. split; [now apply derives_exact|].
      apply derives_seq_iff. exists (lit "item"), (key ++ [dq] ++ v ++ [dq]), c.
      split; [reflexivity|]. split.
      * apply derives_alt_iff. right. now apply derives_exact.
      * apply quoted_shape. exists v. split; [|reflexivity].
        split; [reflexivity|split; assumption].
Qed.

Lemma namePattern_shape tok caps :
  matches Worker.namePattern tok caps <->
  exists v, name_attr tok v /\ caps = [Some v].
Proof. apply (film_or_item_shape (lit "-name=")). Qed.

Lemma api_slugPattern_shape tok caps :
  matches Api.slugPattern tok caps <->
  exists v, (film_slug_attr tok v \/ item_slug_attr tok v) /\ caps = [Some v].
Proof. apply (film_or_item_shape (lit "-slug=")). Qed.

Lemma all_digits_class w :
  Forall (fun a => in_class false CDigit a = true) w <-> all_digits w.
Proof. reflexivity. Qed.

Lemma yearPattern_shape tok caps :
  matches Worker.yearPattern tok caps <->
  exists y, year_group tok y /\ caps = [Some y].
Proof.
  unfold matches, Worker.yearPattern; simpl p_re; simpl p_ci; simpl p_groups.
  rewrite derives_seq_iff. unfold year_group. split.
  - intros [t1 [t2 [c1 [-> [H1 H2]]]]].
    apply derives_exact in H1. destruct H1 as [-> ->].
    apply derives_seq_iff in H2.
    destruct H2 as [y [t3 [c2 [-> [H2 H3]]]]].
    apply derives_exact in H3. destruct H3 as [-> ->].
    apply derives_group_iff in H2. destruct H2 as [c3 [H2 ->]].
    apply derives_count_iff in H2. destruct H2 as [Hl [Hall ->]].
    exists y. repeat split; assumption.
  - intros [y [[-> [Hl Hd]] ->]].
    exists (lit "("), (y ++ lit ")"), [None].
    split; [reflexivity|]. split; [now apply derives_exact|].
    apply derives_seq_iff. exists y, (lit ")"), [Some y].
    split; [reflexivity|]. split; [|now apply derives_exact].
    apply derives_group_iff. exists [None]. split; [|reflexivity].
    apply derives_count_iff. repeat split; assumption.
Qed.

Lemma cropPattern_shape tok caps :
  matches Worker.cropPattern tok caps <-> crop_token tok /\ caps = [].
Proof.
  unfold matches, Worker.cropPattern; simpl p_re; simpl p_ci; simpl p_groups.
  unfold crop_token. split.
  - intro H.
    apply derives_seq_iff in H. destruct H as [t1 [t2 [c1 [-> [H1 H]]]]].
    apply derives_exact in H1. destruct H1 as [-> ->].
    apply derives_seq_iff in H. destruct H as [w [t2' [c1 [-> [H1 H]]]]].
    apply derives_plus_iff in H1. destruct H1 as [Hw [Dw ->]].
    apply derives_seq_iff in H. destruct H as [t1 [t2 [c1 [-> [H1 H]]]]].
    apply derives_exact in H1. destruct H1 as [-> ->].
    apply derives_seq_iff in H. destruct H as [h [t2' [c1 [-> [H1 H]]]]].
    apply derives_plus_iff in H1. destruct H1 as [Hh [Dh ->]].
    apply derives_exact in H. destruct H as [-> ->].
    split; [|reflexivity]. exists w, h. repeat split; assumption.
  - intros [[w [h [-> [Hw [Hh [Dw Dh]]]]]] ->].
    apply derives_seq_iff. eexists _, _, _.
    split; [reflexivity|]. split; [now apply derives_exact|].
    apply derives_seq_iff. eexists _, _, _.
    split; [reflexivity|]. split; [now apply derives_plus_iff|].
    apply derives_seq_iff. eexists _, _, _.
    split; [reflexivity|]. split; [now apply derives_exact|].
    apply derives_seq_iff. eexists _, _, _.
    split; [reflexivity|]. split; [now apply derives_plus_iff|].
    now apply derives_exact.
Qed.

Lemma posterPattern150_shape tok caps :
  matches Worker.posterPattern150 tok caps <->
  tok = lit "-0-150-0-225-" /\ caps = [].
Proof. apply derives_exact. Qed.

Lemma posterPattern125_shape tok caps :
  matches Worker.posterPattern125 tok caps <->
  tok = lit "-0-125-0-187-" /\ caps = [].
Proof. apply derives_exact. Qed.

End Shapes.

(** * From patterns to occurrences *)

Lemma app_same_length (A : Type) : forall (x x' y y' : list A),
  x ++ y = x' ++ y' -> length x = length x' -> x = x' /\ y = y'.
Proof.
  induction x as [|a x IH]; intros [|a' x'] y y' E L;
    simpl in *; try discriminate.
  - auto.
  - inversion E; subst. destruct (IH _ _ _ H1) as [-> ->]; [lia|auto].
Qed.

(** A run free of [d] that is followed by [d] ends at the first [d]. *)
Lemma run_until (d : ascii) : forall v v' r r',
  ~ In d v -> ~ In d v' -> v ++ d :: r = v' ++ d :: r' -> v = v' /\ r = r'.
Proof.
  induction v as [|a v IH]; intros [|a' v'] r r' N N' E; simpl in *.
  - inversion E. auto.
  - inversion E; subst. tauto.
  - inversion E; subst. tauto.
  - inversion E; subst. destruct (IH v' r r') as [-> ->]; tauto.
Qed.

Section Bridge.
Import JS Spec.

Variable p : pattern.
Variable P : jsstring -> jsstring -> Prop.

Hypothesis shape : forall tok caps,
  matches p tok caps <-> exists v, P tok v /\ caps = [Some v].

Hypothesis det : forall tok v post tok' v' post',
  tok ++ post = tok' ++ post' -> P tok v -> P tok' v' ->
  tok = tok' /\ v = v'.

Lemma str_match_some_first_of s m :
  str_match s p = Some m ->
  exists pre v post,
    first_of P s pre (m_all m) v post /\ m_caps m = [Some v] /\
    m_index m = length pre.
Proof.
  intro E. destruct (str_match_sound _ _ _ E) as [pre [post [[Es [M L]] Ei]]].
  apply shape in M. destruct M as [v [Pv Ec]].
  exists pre, v, post. repeat split; try assumption.
  intros pre' tok' v' post' Es' P'.
  apply (L pre' tok' post' [Some v']); [assumption|].
  apply shape. eauto.
Qed.

Lemma str_match_none_of s : none_of P s -> str_match s p = None.
Proof.
  intro N. destruct (str_match s p) as [m|] eqn:E; [|reflexivity].
  destruct (str_match_some_first_of _ _ E) as [pre [v [post [[Es [Pv _]] _]]]].
  exfalso. exact (N _ _ _ _ Es Pv).
Qed.

Lemma str_match_none_inv s : str_match s p = None -> none_of P s.
Proof.
  intros E pre tok v post Es Pv.
  apply (str_match_none _ _ E).
  exists pre, tok, post, [Some v]. split; [assumption|].
  apply shape. eauto.
Qed.

Lemma first_of_unique s pre tok v post pre' tok' v' post' :
  first_of P s pre tok v post -> first_of P s pre' tok' v' post' ->
  pre = pre' /\ tok = tok' /\ v = v' /\ post = post'.
Proof.
  intros [E [Pv L]] [E' [Pv' L']].
  pose proof (L _ _ _ _ E' Pv'). pose proof (L' _ _ _ _ E Pv).
  rewrite E in E'.
  destruct (app_same_length _ _ _ _ _ E') as [-> E2]; [lia|].
  destruct (det _ _ _ _ _ _ E2 Pv Pv') as [-> ->].
  apply app_inv_head in E2. auto.
Qed.

Lemma str_match_first_of s pre tok v post :
  first_of P s pre tok v post ->
  exists m, str_match s p = Some m /\ m_index m = length pre /\
            m_all m = tok /\ m_caps m = [Some v].
Proof.
  intro F. destruct (str_match s p) as [m|] eqn:E.
  - destruct (str_match_some_first_of _ _ E) as [pre0 [v0 [post0 [F0 [Ec Ei]]]]].
    destruct (first_of_unique _ _ _ _ _ _ _ _ _ F F0) as [-> [-> [-> ->]]].
    exists m. auto.
  - destruct F as [Es [Pv _]].
    exfalso. exact (str_match_none_inv _ E _ _ _ _ Es Pv).
Qed.

End Bridge.

Section Determinism.
Import JS Spec.

Lemma quoted_det key tok v post tok' v' post' :
  tok ++ post = tok' ++ post' -> quoted key v tok -> quoted key v' tok' ->
  tok = tok' /\ v = v'.
Proof.
  intros E [-> [_ N]] [-> [_ N']].
  rewrite <- !app_assoc in E. apply app_inv_head in E.
  simpl in E. inversion E as [E1].
  destruct (run_until _ _ _ _ _ N N' E1) as [-> _]. auto.
Qed.

Lemma name_attr_det tok v post tok' v' post' :
  tok ++ post = tok' ++ post' -> name_attr tok v -> name_attr tok' v' ->
  tok = tok' /\ v = v'.
Proof.
  intros E [Q|Q] [Q'|Q'].
  - eapply quoted_det; eassumption.
  - destruct Q as [-> _], Q' as [-> _]. discriminate.
  - destruct Q as [-> _], Q' as [-> _]. discriminate.
  - eapply quoted_det; eassumption.
Qed.

Lemma slug_attr_det tok v post tok' v' post' :
  tok ++ post = tok' ++ post' ->
  film_slug_attr tok v \/ item_slug_attr tok v ->
  film_slug_attr tok' v' \/ item_slug_attr tok' v' ->
  tok = tok' /\ v = v'.
Proof.
  intros E [Q|Q] [Q'|Q'].
  - eapply quoted_det; eassumption.
  - destruct Q as [-> _], Q' as [-> _]. discriminate.
  - destruct Q as [-> _], Q' as [-> _]. discriminate.
  - eapply quoted_det; eassumption.
Qed.

Lemma year_group_det tok y post tok' y' post' :
  tok ++ post = tok' ++ post' -> year_group tok y -> year_group tok' y' ->
  tok = tok' /\ y = y'.
Proof.
  intros E [-> [L _]] [-> [L' _]].
  simpl in E. inversion E as [E1].
  rewrite <- !app_assoc in E1.
  destruct (app_same_length _ _ _ _ _ E1) as [-> _]; [congruence|auto].
Qed.

End Determinism.

(** * String primitives *)

Section Strings.
Import JS Spec.

Lemma str_eqb_eq : forall a b, str_eqb a b = true <-> a = b.
Proof.
  induction a as [|x a IH]; intros [|y b]; simpl; split; intro H;
    try discriminate; try reflexivity.
  - apply andb_true_iff in H. destruct H as [H1 H2].
    apply Ascii.eqb_eq in H1. apply IH in H2. congruence.
  - inversion H; subst. apply andb_true_iff. split.
    + apply Ascii.eqb_refl.
    + now apply IH.
Qed.

Lemma value_eqb_eq v w : value_eqb v w = true <-> v = w.
Proof.
  destruct v as [|a], w as [|b]; simpl; split; intro H;
    try discriminate; try reflexivity.
  - apply str_eqb_eq in H. congruence.
  - inversion H; subst. now apply str_eqb_eq.
Qed.

Lemma prefixb_spec : forall p s,
  prefixb p s = true <-> exists post, s = p ++ post.
Proof.
  induction p as [|x p IH]; intros s; simpl.
  - split; [intros _; now exists s|reflexivity].
  - destruct s as [|y s].
    + split; [discriminate|intros [post H]; discriminate].
    + rewrite andb_true_iff, Ascii.eqb_eq, IH. split.
      * intros [-> [post ->]]. now exists post.
      * intros [post H]. inversion H; subst. split; [reflexivity|now exists post].
Qed.

Lemma occurs_at_0 needle s :
  occurs_at needle s 0 <-> exists post, s = needle ++ post.
Proof.
  split.
  - intros [pre [post [E L]]]. destruct pre; [|discriminate]. now exists post.
  - intros [post E]. now exists [], post.
Qed.

Lemma occurs_at_S needle a s j :
  occurs_at needle (a :: s) (S j) <-> occurs_at needle s j.
Proof.
  split.
  - intros [pre [post [E L]]]. destruct pre as [|b pre]; [discriminate|].
    inversion E; subst. exists pre, post. split; [reflexivity|].
    simpl in L. lia.
  - intros [pre [post [E L]]]. exists (a :: pre), post. subst.
    split; [reflexivity|simpl; lia].
Qed.

Lemma occurs_at_nil needle j : occurs_at needle [] j -> j = 0.
Proof.
  intros [pre [post [E L]]]. symmetry in E. apply app_eq_nil in E.
  destruct E as [-> _]. simpl in L. lia.
Qed.

(** [indexOf] returns the position of the first occurrence, or [-1]. *)
Lemma indexOf_from_spec needle : forall s i,
  (exists k, first_occurrence s needle k /\
             indexOf_from needle s i = (i + Z.of_nat k)%Z)
  \/ (~ contains s needle /\ indexOf_from needle s i = (-1)%Z).
Proof.
  induction s as [|a s IH]; intro i; simpl.
  - destruct (prefixb needle []) eqn:E.
    + left. exists 0. split; [|lia]. apply prefixb_spec in E.
      split; [now apply occurs_at_0|intros; lia].
    + right. split; [|reflexivity]. intros [j H].
      pose proof (occurs_at_nil _ _ H); subst j.
      apply occurs_at_0, prefixb_spec in H. congruence.
  - destruct (prefixb needle (a :: s)) eqn:E.
    + left. exists 0. split; [|lia]. apply prefixb_spec in E.
      split; [now apply occurs_at_0|intros; lia].
    + destruct (IH (i + 1)%Z) as [[k [[O L] Ek]]|[N Ek]].
      * left. exists (S k). split; [|lia]. split.
        -- now apply occurs_at_S.
        -- intros [|j] Hj.
           ++ apply occurs_at_0, prefixb_spec in Hj. congruence.
           ++ apply occurs_at_S in Hj. apply L in Hj. lia.
      * right. split; [|assumption]. intros [[|j] Hj].
        -- apply occurs_at_0, prefixb_spec in Hj. congruence.
        -- apply occurs_at_S in Hj. apply N. now exists j.
Qed.

Lemma first_occurrence_exists : forall s needle,
  contains s needle -> exists k, first_occurrence s needle k.
Proof.
  intros s needle C.
  destruct (indexOf_from_spec needle s 0) as [[k [F _]]|[N _]];
    [now exists k|contradiction].
Qed.

Lemma first_occurrence_unique s needle i j :
  first_occurrence s needle i -> first_occurrence s needle j -> i = j.
Proof.
  intros [O L] [O' L']. apply L in O'. apply L' in O. lia.
Qed.

Lemma indexOf_found s needle k :
  first_occurrence s needle k -> indexOf s needle = Z.of_nat k.
Proof.
  intro F. unfold indexOf.
  destruct (indexOf_from_spec needle s 0) as [[k' [F' E]]|[N _]].
  - rewrite E. rewrite (first_occurrence_unique _ _ _ _ F F'). lia.
  - exfalso. apply N. exists k. apply F.
Qed.

Lemma indexOf_missing s needle :
  ~ contains s needle -> indexOf s needle = (-1)%Z.
Proof.
  intro N. unfold indexOf.
  destruct (indexOf_from_spec needle s 0) as [[k [[O _] _]]|[_ E]];
    [|assumption].
  exfalso. apply N. now exists k.
Qed.

Lemma includes_spec s needle : includes s needle = true <-> contains s needle.
Proof.
  unfold includes, indexOf.
  destruct (indexOf_from_spec needle s 0) as [[k [[O _] E]]|[N E]]; rewrite E.
  - split; [intros _; now exists k|intros _].
    apply negb_true_iff, Z.eqb_neq. lia.
  - split; [discriminate|contradiction].
Qed.

Lemma occurs_at_bound needle s i : occurs_at needle s i -> i <= length s.
Proof.
  intros [pre [post [-> <-]]]. rewrite length_app. lia.
Qed.

(** The section cut by the program is the window around the position. *)
Lemma substring_window s (i r : nat) :
  i <= length s ->
  substring s (Z.max 0 (Z.of_nat i - Z.of_nat r))
              (Z.min (Z.of_nat (length s)) (Z.of_nat i + Z.of_nat r))
  = window s i r.
Proof.
  intro H. unfold substring, window, clamp.
  f_equal; [lia|f_equal; lia].
Qed.

End Strings.

(** * The extractor of the workers *)

Section WorkerExtractor.
Import JS Spec Worker.

Lemma set_cap_length i v : forall c, length (set_cap i v c) = length c.
Proof.
  induction i as [|i IH]; intros [|h c]; simpl; try reflexivity.
  now rewrite IH.
Qed.

Lemma derives_length ci r tok c c' :
  derives ci r tok c c' -> length c' = length c.
Proof.
  induction 1; try reflexivity.
  - congruence.
  - assumption.
  - assumption.
  - now rewrite set_cap_length.
Qed.

(** In a pattern [before(group 1)after] the first group always takes part
    in a match. *)
Lemma group1_defined p a inner b tok caps :
  p_re p = RLit a +++ RGroup 1 inner +++ RLit b ->
  0 < p_groups p ->
  matches p tok caps -> exists v, cap1 caps = Str v.
Proof.
  unfold matches. intros -> G H.
  apply derives_seq_iff in H. destruct H as [t1 [t2 [c1 [-> [H1 H]]]]].
  apply derives_lit_iff in H1. destruct H1 as [_ ->].
  apply derives_seq_iff in H. destruct H as [v [t3 [c2 [-> [H1 H]]]]].
  apply derives_lit_iff in H. destruct H as [_ ->].
  apply derives_group_iff in H1. destruct H1 as [c3 [H1 ->]].
  apply derives_length in H1. rewrite repeat_length in H1.
  exists v. destruct c3 as [|h c3]; [simpl in H1; lia|reflexivity].
Qed.

Lemma group_cap1 m : group m 1 = cap1 (m_caps m).
Proof. reflexivity. Qed.

(** The name of a record is always a string. *)
Lemma resolve_name_ok s section :
  exists t, resolve_name (Str s) section = Ok (Str t).
Proof.
  unfold resolve_name. simpl.
  destruct (str_match section namePattern) as [nm|] eqn:En.
  - destruct (str_match_some_first_of _ _ namePattern_shape _ _ En)
      as [pre [v [post [_ [Ec _]]]]].
    exists v. rewrite group_cap1, Ec. reflexivity.
  - destruct (str_match section altPattern) as [am|] eqn:Ea.
    + destruct (str_match_some_first_of _ _ altPattern_shape _ _ Ea)
        as [pre [v [post [_ [Ec _]]]]].
      rewrite group_cap1, Ec. simpl.
      change (cap1 [Some v]) with (Str v).
      destruct (1 <? length v); eauto.
    + eauto.
Qed.

Lemma find_poster_ok section : exists p, find_poster section = Ok p.
Proof.
  unfold find_poster.
  destruct (str_match section imgPattern) as [m|] eqn:E; [|eauto].
  destruct (str_match_sound _ _ _ E) as [pre [post [[_ [M _]] _]]].
  destruct (group1_defined imgPattern _ _ _ _ _ eq_refl (Nat.lt_0_succ 1) M)
    as [v Ev].
  rewrite group_cap1, Ev. simpl. eauto.
Qed.

Lemma extract_year_ok t : exists y, extract_year (Str t) = Ok (Str y).
Proof.
  unfold extract_year. simpl.
  destruct (str_match t yearPattern) as [m|] eqn:E; [|eauto].
  destruct (str_match_some_first_of _ _ yearPattern_shape _ _ E)
    as [pre [y [post [_ [Ec _]]]]].
  exists y. rewrite group_cap1, Ec. reflexivity.
Qed.

(** What one turn of the loop builds for a slug that occurs in the page. *)
Lemma movie_of_spec html s k :
  first_occurrence html s k ->
  exists t p y,
    resolve_name (Str s) (window html k 1000) = Ok (Str t) /\
    find_poster (window html k 1000) = Ok p /\
    extract_year (Str t) = Ok (Str y) /\
    movie_of html (Str s)
    = Ok (Some {| slug := Str s; title := Str t; year := Str y; poster := p;
                  link := lit "https://letterboxd.com/film/" ++ s ++ lit "/" |}).
Proof.
  intro F. unfold movie_of. simpl to_string.
  rewrite (indexOf_found _ _ _ F).
  destruct (Z.of_nat k =? -1)%Z eqn:E; [apply Z.eqb_eq in E; lia|].
  unfold section_of.
  change 1000%Z with (Z.of_nat 1000).
  rewrite substring_window by (apply (occurs_at_bound s); apply F).
  destruct (resolve_name_ok s (window html k 1000)) as [t Et].
  destruct (find_poster_ok (window html k 1000)) as [p Ep].
  destruct (extract_year_ok t) as [y Ey].
  exists t, p, y. rewrite Et, Ep. simpl. rewrite Ey. simpl. auto.
Qed.

End WorkerExtractor.

(** * Collecting the identifiers *)

Section Collecting.
Import JS Spec.

Lemma successive_occurs p s l :
  successive p s l ->
  Forall (fun caps => exists pre tok post,
              s = pre ++ tok ++ post /\ matches p tok caps) l.
Proof.
  induction 1 as [s N|s pre tok post caps l [Es [M _]] S IH].
  - constructor.
  - constructor.
    + exists pre, tok, post. auto.
    + eapply Forall_impl; [|exact IH].
      intros c [pre' [tok' [post' [E M']]]].
      exists (pre ++ tok ++ pre'), tok', post'. split; [|assumption].
      rewrite Es, E. now rewrite <- !app_assoc.
Qed.

Lemma exec_loop_more_fuel (A : Type) p s (body : match_result -> A -> A) :
  forall fuel li acc r,
    exec_loop fuel p s li body acc = Ok r ->
    forall fuel', fuel <= fuel' -> exec_loop fuel' p s li body acc = Ok r.
Proof.
  induction fuel as [|fuel IH]; intros li acc r H fuel' Hf.
  - destruct fuel'; simpl in *;
      destruct (exec_from p s li); try discriminate; assumption.
  - destruct fuel' as [|fuel']; [lia|]. simpl in *.
    destruct (exec_from p s li); [|assumption].
    apply IH; [assumption|lia].
Qed.

Lemma set_has_in seen v : set_has seen v = true <-> In v seen.
Proof.
  unfold set_has. rewrite existsb_exists. split.
  - intros [w [Hin He]]. apply value_eqb_eq in He. now subst.
  - intro Hin. exists v. split; [assumption|now apply value_eqb_eq].
Qed.

(** Adding to the set: nothing changes for a member, a new value goes to
    the end. *)
Lemma set_add_spec seen v :
  (In v seen /\ set_add seen v = seen) \/
  (~ In v seen /\ set_add seen v = seen ++ [v]).
Proof.
  unfold set_add. destruct (set_has seen v) eqn:E.
  - left. split; [now apply set_has_in|reflexivity].
  - right. split; [|reflexivity].
    intro H. apply set_has_in in H. congruence.
Qed.

Lemma worker_collect_set_add m seen :
  Worker.collect m seen = set_add seen (cap1 (m_caps m)).
Proof.
  unfold Worker.collect. rewrite group_cap1.
  unfold set_add. destruct (set_has seen (cap1 (m_caps m))); reflexivity.
Qed.

Lemma fold_set_add (l : list captures) : forall seen,
  NoDup seen ->
  NoDup (fold_left (fun a c => set_add a (cap1 c)) l seen) /\
  forall v, In v (fold_left (fun a c => set_add a (cap1 c)) l seen) <->
            In v seen \/ In v (map cap1 l).
Proof.
  induction l as [|c l IH]; intros seen ND; simpl.
  - split; [assumption|]. intro v. tauto.
  - destruct (set_add_spec seen (cap1 c)) as [[Hin ->]|[Hn ->]].
    + destruct (IH seen ND) as [N I]. split; [assumption|].
      intro v. rewrite I. split; [tauto|].
      intros [H|[<-|H]]; tauto.
    + assert (ND' : NoDup (seen ++ [cap1 c])).
      { apply NoDup_app; [assumption|repeat constructor; simpl; tauto|].
        intros x Hx [<-|[]]. contradiction. }
      destruct (IH _ ND') as [N I]. split; [assumption|].
      intro v. rewrite I, in_app_iff. simpl. tauto.
Qed.

Lemma contains_inside (s pre a v b post : jsstring) :
  s = pre ++ (a ++ v ++ b) ++ post -> contains s v.
Proof.
  intros ->. exists (length (pre ++ a)), (pre ++ a), (b ++ post).
  split; [now rewrite <- !app_assoc|reflexivity].
Qed.

Lemma quoted_page_string key html pre tok post v :
  html = pre ++ tok ++ post -> quoted key v tok -> page_string html (Str v).
Proof.
  intros E [-> _]. exists v. split; [reflexivity|].
  apply (contains_inside html pre (key ++ [dq]) v [dq] post).
  rewrite E. now rewrite <- !app_assoc.
Qed.

Lemma film_link_page_string html pre tok post v :
  html = pre ++ tok ++ post -> film_link tok v -> page_string html (Str v).
Proof.
  intros E [-> _]. exists v. split; [reflexivity|].
  apply (contains_inside html pre (lit "href=" ++ [dq] ++ lit "/film/") v
           (lit "/" ++ [dq]) post).
  rewrite E. now rewrite <- !app_assoc.
Qed.

Lemma successive_page_strings p html l :
  (forall pre tok post caps,
      html = pre ++ tok ++ post -> matches p tok caps ->
      page_string html (cap1 caps)) ->
  successive p html l ->
  Forall (page_string html) (map cap1 l).
Proof.
  intros Hp S. apply successive_occurs in S.
  apply Forall_map. eapply Forall_impl; [|exact S].
  intros c [pre [tok [post [E M]]]]. eapply Hp; eassumption.
Qed.

Lemma slugPattern1_page_string html pre tok post caps :
  html = pre ++ tok ++ post -> matches Worker.slugPattern1 tok caps ->
  page_string html (cap1 caps).
Proof.
  intros E M. apply slugPattern1_shape in M. destruct M as [v [Q ->]].
  eapply quoted_page_string; eassumption.
Qed.

Lemma slugPattern2_page_string html pre tok post caps :
  html = pre ++ tok ++ post -> matches Worker.slugPattern2 tok caps ->
  page_string html (cap1 caps).
Proof.
  intros E M. apply slugPattern2_shape in M. destruct M as [v [Q ->]].
  eapply quoted_page_string; eassumption.
Qed.

Lemma slugPattern3_page_string html pre tok post caps :
  html = pre ++ tok ++ post -> matches Worker.slugPattern3 tok caps ->
  page_string html (cap1 caps).
Proof.
  intros E M. apply slugPattern3_shape in M. destruct M as [v [Q ->]].
  eapply film_link_page_string; eassumption.
Qed.

Lemma api_slugPattern_page_string html pre tok post caps :
  html = pre ++ tok ++ post -> matches Api.slugPattern tok caps ->
  page_string html (cap1 caps).
Proof.
  intros E M. apply api_slugPattern_shape in M.
  destruct M as [v [[Q|Q] ->]]; eapply quoted_page_string; eassumption.
Qed.

(** The three loops of the workers. *)
Lemma worker_collect_slugs_spec html fuel :
  length html <= fuel ->
  exists l1 l2 l3 seen,
    successive Worker.slugPattern1 html l1 /\
    successive Worker.slugPattern2 html l2 /\
    successive Worker.slugPattern3 html l3 /\
    Worker.collect_slugs fuel html = Ok seen /\
    NoDup seen /\
    (forall v, In v seen <-> In v (map cap1 (l1 ++ l2 ++ l3))) /\
    Forall (page_string html) seen.
Proof.
  intro Hf. unfold Worker.collect_slugs.
  destruct (exec_loop_spec Worker.slugPattern1 _ Worker.collect
              (fun c a => set_add a (cap1 c)) html eq_refl
              worker_collect_set_add fuel 0 [])
    as [l1 [S1 E1]]; [lia|lia|].
  destruct (fold_set_add l1 [] (NoDup_nil _)) as [N1 I1].
  rewrite E1. simpl bind.
  destruct (exec_loop_spec Worker.slugPattern2 _ Worker.collect
              (fun c a => set_add a (cap1 c)) html eq_refl
              worker_collect_set_add fuel 0
              (fold_left (fun a c => set_add a (cap1 c)) l1 []))
    as [l2 [S2 E2]]; [lia|lia|].
  destruct (fold_set_add l2 _ N1) as [N2 I2].
  rewrite E2. simpl bind.
  destruct (exec_loop_spec Worker.slugPattern3 _ Worker.collect
              (fun c a => set_add a (cap1 c)) html eq_refl
              worker_collect_set_add fuel 0
              (fold_left (fun a c => set_add a (cap1 c)) l2
                 (fold_left (fun a c => set_add a (cap1 c)) l1 [])))
    as [l3 [S3 E3]]; [lia|lia|].
  destruct (fold_set_add l3 _ N2) as [N3 I3].
  simpl skipn in *.
  eexists l1, l2, l3, _. repeat split; try eassumption.
  - intro H. apply I3 in H. rewrite I2, I1 in H.
    rewrite !map_app, !in_app_iff. simpl in H. tauto.
  - intro H. rewrite !map_app, !in_app_iff in H.
    apply I3. rewrite I2, I1. simpl. tauto.
  - apply Forall_forall. intros v Hv.
    apply I3 in Hv. rewrite I2, I1 in Hv.
    pose proof (successive_page_strings _ _ _
                  (slugPattern1_page_string html) S1) as P1.
    pose proof (successive_page_strings _ _ _
                  (slugPattern2_page_string html) S2) as P2.
    pose proof (successive_page_strings _ _ _
                  (slugPattern3_page_string html) S3) as P3.
    rewrite Forall_forall in P1, P2, P3.
    destruct Hv as [[[[]|Hv]|Hv]|Hv]; auto.
Qed.

End Collecting.

Section WorkerParse.
Import JS Spec Worker.

Lemma worker_for_each_slug_cons html v seen acc :
  for_each_slug html (v :: seen) acc
  = match movie_of html v with
    | Ok r => for_each_slug html seen
                (match r with Some m => acc ++ [m] | None => acc end)
    | Throw msg => Throw msg
    | OutOfFuel => OutOfFuel
    end.
Proof. reflexivity. Qed.

Lemma worker_for_each_slug html : forall seen acc,
  Forall (page_string html) seen ->
  exists ms, for_each_slug html seen acc = Ok (acc ++ ms) /\
             Forall2 (worker_record html) seen ms.
Proof.
  induction seen as [|v seen IH]; intros acc F.
  - exists []. split; [simpl; now rewrite app_nil_r|constructor].
  - inversion F as [|? ? [s [-> C]] F']; subst.
    destruct (first_occurrence_exists _ _ C) as [k Fk].
    destruct (movie_of_spec html s k Fk) as [t [p [y [Et [Ep [Ey Em]]]]]].
    rewrite worker_for_each_slug_cons, Em.
    destruct (IH (acc ++ [{| slug := Str s; title := Str t; year := Str y;
                             poster := p;
                             link := lit "https://letterboxd.com/film/"
                                     ++ s ++ lit "/" |}]) F')
      as [ms [E R]].
    eexists (_ :: ms). split.
    + rewrite E. now rewrite <- app_assoc.
    + constructor; [|assumption].
      exists s, k, t, y. simpl. repeat split; try assumption; apply Fk.
Qed.

(** The whole extractor: identifiers collected by the three patterns, one
    record per identifier. *)
Lemma worker_parseMovies_spec html fuel :
  length html <= fuel ->
  exists l1 l2 l3 seen movies,
    successive slugPattern1 html l1 /\
    successive slugPattern2 html l2 /\
    successive slugPattern3 html l3 /\
    collect_slugs fuel html = Ok seen /\
    NoDup seen /\
    (forall v, In v seen <-> In v (map cap1 (l1 ++ l2 ++ l3))) /\
    Forall2 (worker_record html) seen movies /\
    parseMovies_fuel fuel html = Ok movies.
Proof.
  intro Hf.
  destruct (worker_collect_slugs_spec html fuel Hf)
    as [l1 [l2 [l3 [seen [S1 [S2 [S3 [E [N [I P]]]]]]]]]].
  destruct (worker_for_each_slug html seen [] P) as [ms [Em R]].
  exists l1, l2, l3, seen, ms. repeat split; try assumption.
  - apply I.
  - apply I.
  - unfold parseMovies_fuel. rewrite E. simpl. exact Em.
Qed.

Lemma worker_record_slug html seen movies :
  Forall2 (worker_record html) seen movies -> map slug movies = seen.
Proof.
  induction 1 as [|v m seen movies R _ IH]; [reflexivity|].
  destruct R as [s [k [t [y [-> [_ [Es _]]]]]]].
  simpl. now rewrite Es, IH.
Qed.

End WorkerParse.

(** * The extractor of the serverless function *)

Section ApiParse.
Import JS Spec Api.

Lemma api_collect_set_add m slugs :
  collect m slugs = set_add slugs (cap1 (m_caps m)).
Proof. reflexivity. Qed.

Lemma api_collect_slugs_spec html fuel :
  length html <= fuel ->
  exists l seen,
    successive slugPattern html l /\
    collect_slugs fuel html = Ok seen /\
    NoDup seen /\
    (forall v, In v seen <-> In v (map cap1 l)) /\
    Forall (page_string html) seen.
Proof.
  intro Hf. unfold collect_slugs.
  destruct (exec_loop_spec slugPattern _ collect
              (fun c a => set_add a (cap1 c)) html eq_refl
              api_collect_set_add fuel 0 [])
    as [l [S E]]; [lia|lia|].
  destruct (fold_set_add l [] (NoDup_nil _)) as [N I].
  simpl skipn in *.
  eexists l, _. repeat split; try eassumption.
  - intro H. apply I in H. simpl in H. tauto.
  - intro H. apply I. tauto.
  - apply Forall_forall. intros v Hv. apply I in Hv.
    pose proof (successive_page_strings _ _ _
                  (api_slugPattern_page_string html) S) as P.
    rewrite Forall_forall in P. destruct Hv as [[]|Hv]; auto.
Qed.

Lemma api_resolve_name_ok s section :
  exists t, resolve_name (Str s) section = Ok (Str t).
Proof.
  unfold resolve_name.
  destruct (str_match section Worker.namePattern) as [nm|] eqn:En.
  - destruct (str_match_some_first_of _ _ namePattern_shape _ _ En)
      as [pre [v [post [_ [Ec _]]]]].
    exists v. rewrite group_cap1, Ec. reflexivity.
  - destruct (str_match section Worker.altPattern) as [am|]; simpl; eauto.
Qed.

Lemma api_find_poster_ok section : exists p, find_poster section = Str p.
Proof.
  unfold find_poster.
  destruct (str_match section imgPattern) as [m|] eqn:E; [|eauto].
  destruct (str_match_sound _ _ _ E) as [pre [post [[_ [M _]] _]]].
  destruct (group1_defined imgPattern _ _ _ _ _ eq_refl (Nat.lt_0_succ 0) M)
    as [v Ev].
  rewrite group_cap1, Ev. eauto.
Qed.

Lemma api_enlarge_ok p : exists p', enlarge (Str p) = Str p'.
Proof. destruct p; simpl; eauto. Qed.

Lemma api_filmSection html s k :
  first_occurrence html s k ->
  filmSection_of html (Str s) = window html k 500.
Proof.
  intro F. unfold filmSection_of. simpl to_string.
  rewrite (indexOf_found _ _ _ F).
  change 500%Z with (Z.of_nat 500).
  apply substring_window. apply (occurs_at_bound s). apply F.
Qed.

Lemma api_for_each_slug_cons html v slugs acc :
  for_each_slug html (v :: slugs) acc
  = match movie_of html v with
    | Ok m => for_each_slug html slugs (acc ++ [m])
    | Throw msg => Throw msg
    | OutOfFuel => OutOfFuel
    end.
Proof. reflexivity. Qed.

Lemma api_for_each_slug html : forall slugs acc,
  Forall (page_string html) slugs ->
  exists ms, for_each_slug html slugs acc = Ok (acc ++ ms) /\
             Forall2 (api_record html) slugs ms.
Proof.
  induction slugs as [|v slugs IH]; intros acc F.
  - exists []. split; [simpl; now rewrite app_nil_r|constructor].
  - inversion F as [|? ? [s [-> C]] F']; subst.
    destruct (first_occurrence_exists _ _ C) as [k Fk].
    destruct (api_resolve_name_ok s (window html k 500)) as [t Et].
    destruct (api_find_poster_ok (window html k 500)) as [p0 Ep0].
    destruct (api_enlarge_ok p0) as [p Ep].
    rewrite api_for_each_slug_cons.
    unfold movie_of. rewrite (api_filmSection _ _ _ Fk), Et.
    unfold bind.
    destruct (IH (acc ++ [{| slug := Str s; title := Str t;
                             poster := enlarge (find_poster (window html k 500));
                             link := lit "https://letterboxd.com/film/"
                                     ++ to_string (Str s) ++ lit "/" |}]) F')
      as [ms [E R]].
    eexists (_ :: ms). split.
    + rewrite E. now rewrite <- app_assoc.
    + constructor; [|assumption].
      exists s, k, t, p. simpl. rewrite Ep0, Ep.
      repeat split; try assumption; apply Fk.
Qed.

Lemma api_parseMovies_spec html fuel :
  length html <= fuel ->
  exists l seen movies,
    successive slugPattern html l /\
    collect_slugs fuel html = Ok seen /\
    NoDup seen /\
    (forall v, In v seen <-> In v (map cap1 l)) /\
    Forall2 (api_record html) seen movies /\
    parseMovies_fuel fuel html = Ok movies.
Proof.
  intro Hf.
  destruct (api_collect_slugs_spec html fuel Hf)
    as [l [seen [S [E [N [I P]]]]]].
  destruct (api_for_each_slug html seen [] P) as [ms [Em R]].
  exists l, seen, ms. repeat split; try assumption.
  - apply I.
  - apply I.
  - unfold parseMovies_fuel. rewrite E. simpl. exact Em.
Qed.

Lemma api_record_slug html seen movies :
  Forall2 (api_record html) seen movies -> map slug movies = seen.
Proof.
  induction 1 as [|v m seen movies R _ IH]; [reflexivity|].
  destruct R as [s [k [t [p [-> [_ [Es _]]]]]]].
  simpl. now rewrite Es, IH.
Qed.

End ApiParse.

(** * Loops *)

Section WhileLemmas.
Import JS.

Variables St R : Type.
Variable cond : St -> bool.
Variable body : St -> step St R.

Lemma while_exit fuel it st :
  cond st = false -> while cond body fuel it st = Some (it, Next st).
Proof. intro H. destruct fuel; simpl; rewrite H; reflexivity. Qed.

Lemma while_next fuel it st st' :
  cond st = true -> body st = Next st' ->
  while cond body (S fuel) it st = while cond body fuel (S it) st'.
Proof. intros H B. simpl. rewrite H, B. reflexivity. Qed.

Lemma while_leave fuel it st r :
  cond st = true -> body st = Leave r ->
  while cond body (S fuel) it st = Some (S it, Leave r).
Proof. intros H B. simpl. rewrite H, B. reflexivity. Qed.

(** A loop whose body makes a measure decrease ends within that many
    turns. *)
Variable measure : St -> nat.
Hypothesis cond_positive : forall st, cond st = true -> 0 < measure st.
Hypothesis body_decreases : forall st st',
  cond st = true -> body st = Next st' -> measure st' < measure st.

Lemma while_bounded : forall fuel it st,
  measure st <= fuel ->
  exists n e, while cond body fuel it st = Some (n, e) /\
              n <= it + measure st.
Proof.
  induction fuel as [|fuel IH]; intros it st Hm.
  - destruct (cond st) eqn:C.
    + apply cond_positive in C. lia.
    + exists it, (Next st). split; [now apply while_exit|lia].
  - destruct (cond st) eqn:C.
    + destruct (body st) as [st'|r] eqn:B.
      * rewrite (while_next _ _ _ _ C B).
        pose proof (body_decreases _ _ C B).
        destruct (IH (S it) st') as [n [e [E L]]]; [lia|].
        exists n, e. split; [assumption|lia].
      * rewrite (while_leave _ _ _ _ C B).
        exists (S it), (Leave r). split; [reflexivity|].
        apply cond_positive in C. lia.
    + exists it, (Next st). split; [now apply while_exit|lia].
Qed.

(** A property kept by the body holds when the loop ends by itself. *)
Variable Inv : St -> Prop.
Hypothesis body_keeps : forall st st',
  cond st = true -> Inv st -> body st = Next st' -> Inv st'.

Lemma while_invariant : forall fuel it st n st',
  Inv st -> while cond body fuel it st = Some (n, Next st') ->
  Inv st' /\ cond st' = false.
Proof.
  induction fuel as [|fuel IH]; intros it st n st' I H; simpl in H.
  - destruct (cond st) eqn:C; [discriminate|].
    inversion H; subst. auto.
  - destruct (cond st) eqn:C.
    + destruct (body st) as [st1|r] eqn:B; [|discriminate].
      eapply IH; [|eassumption]. eapply body_keeps; eassumption.
    + inversion H; subst. auto.
Qed.

End WhileLemmas.

(** * The pagination loop of the workers *)

Section WorkerLoop.
Import JS Spec Worker.

Variable cap : nat.
Variable net : nat -> jsstring -> fetch_outcome.
Variable extract : jsstring -> result (list Movie).
Variable username : jsstring.

Let cond := loop_cond cap.
Let body := loop_body net extract username.

Lemma challenge_spec html : challenge html = true <-> challenge_page html.
Proof.
  unfold challenge, challenge_page.
  now rewrite orb_true_iff, !includes_spec.
Qed.

Lemma loop_body_cases st :
  (exists st', body st = Next st' /\ hasMore st' = false /\
               page st' = page st /\ allMovies st' = allMovies st /\
               calls st' = S (calls st))
  \/ (exists st', body st = Next st' /\ hasMore st' = true /\
                  page st' = S (page st) /\ calls st' = S (calls st))
  \/ (exists r, body st = Leave r).
Proof.
  unfold body, loop_body.
  destruct (net (calls st) (page_url username (page st))) as [msg|ok ident html].
  - right; right; eauto.
  - destruct ok; simpl negb; cbv iota.
    + destruct (challenge html).
      * destruct (page st =? 1); [right; right; eauto|left; eexists; simpl; eauto].
      * destruct (extract html) as [ms| |]; try (right; right; eauto; fail).
        destruct (length ms =? 0);
          [left; eexists; simpl; eauto|right; left; eexists; simpl; eauto].
    + destruct (page st =? 1); [right; right; eauto|left; eexists; simpl; eauto].
Qed.

Lemma loop_cond_positive st : cond st = true -> 0 < worker_measure cap st.
Proof.
  unfold cond, loop_cond, worker_measure. intro H.
  apply andb_true_iff in H. destruct H as [-> H].
  apply Nat.leb_le in H. lia.
Qed.

Lemma loop_body_decreases st st' :
  cond st = true -> body st = Next st' -> worker_measure cap st' < worker_measure cap st.
Proof.
  intros C B. pose proof (loop_cond_positive _ C) as Hp.
  unfold cond, loop_cond in C. apply andb_true_iff in C.
  destruct C as [Hm Hpg]. apply Nat.leb_le in Hpg.
  destruct (loop_body_cases st)
    as [[s1 [B1 [H1 _]]]|[[s1 [B1 [H1 [H2 _]]]]|[r B1]]];
    rewrite B1 in B; inversion B; subst.
  - unfold worker_measure at 1. rewrite H1. assumption.
  - unfold worker_measure. rewrite H1, Hm, H2. lia.
Qed.

(** The loop makes at most [cap] turns. *)
Lemma scrape_bounded fuel calls0 :
  cap <= fuel ->
  exists n e, scrape cap net extract username fuel calls0 = Some (n, e) /\
              n <= cap.
Proof.
  intro Hf. unfold scrape.
  destruct (while_bounded _ _ cond body (worker_measure cap)
              loop_cond_positive loop_body_decreases fuel 0
              {| allMovies := []; page := 1; hasMore := true;
                 calls := calls0 |}) as [n [e [E L]]].
  - unfold worker_measure. simpl. lia.
  - exists n, e. split; [exact E|]. unfold worker_measure in L. simpl in L. lia.
Qed.

Lemma loop_body_good st ident html ms :
  net (calls st) (page_url username (page st)) = Response true ident html ->
  challenge html = false -> extract html = Ok ms -> ms <> [] ->
  body st = Next {| allMovies := allMovies st ++ ms; page := S (page st);
                    hasMore := true; calls := S (calls st) |}.
Proof.
  intros N C E M. unfold body, loop_body. rewrite N. simpl negb. cbv iota.
  rewrite C, E. destruct ms; [congruence|reflexivity].
Qed.

Lemma loop_body_challenge_first st ident html :
  net (calls st) (page_url username (page st)) = Response true ident html ->
  challenge html = true -> page st = 1 ->
  exists r, body st = Leave (Return r) /\ challenge_response r.
Proof.
  intros N C P. unfold body, loop_body. rewrite N. simpl negb. cbv iota.
  rewrite C, P. simpl. eexists. split; [reflexivity|].
  split; [reflexivity|]. eexists. split; reflexivity.
Qed.

Lemma loop_body_challenge_later st ident html :
  net (calls st) (page_url username (page st)) = Response true ident html ->
  challenge html = true -> page st <> 1 ->
  body st = Next {| allMovies := allMovies st; page := page st;
                    hasMore := false; calls := S (calls st) |}.
Proof.
  intros N C P. unfold body, loop_body. rewrite N. simpl negb. cbv iota.
  rewrite C. apply Nat.eqb_neq in P. rewrite P. reflexivity.
Qed.

(** Turns over good pages: the lists are appended, the page advances. *)
Lemma worker_prefix lists : forall c p acc fuel it,
  worker_pages net extract username c p lists ->
  p + length lists <= S cap ->
  while cond body (length lists + fuel) it
    {| allMovies := acc; page := p; hasMore := true; calls := c |}
  = while cond body fuel (it + length lists)
      {| allMovies := acc ++ concat lists; page := p + length lists;
         hasMore := true; calls := c + length lists |}.
Proof.
  induction lists as [|ms lists IH]; intros c p acc fuel it W Hp.
  - simpl. rewrite app_nil_r, !Nat.add_0_r. reflexivity.
  - inversion W as [|? ? ident html ? ? N C E M W']; subst.
    simpl length in *. simpl plus.
    rewrite (while_next _ _ cond body (length lists + fuel) it
               {| allMovies := acc; page := p; hasMore := true;
                  calls := c |}
               {| allMovies := acc ++ ms; page := S p;
                  hasMore := true; calls := S c |}).
    + rewrite IH by (assumption || lia).
      simpl concat. rewrite app_assoc.
      replace (S it + length lists) with (it + S (length lists)) by lia.
      replace (S p + length lists) with (p + S (length lists)) by lia.
      replace (S c + length lists) with (c + S (length lists)) by lia.
      reflexivity.
    + unfold cond, loop_cond. simpl. apply Nat.leb_le. lia.
    + exact (loop_body_good
               {| allMovies := acc; page := p; hasMore := true; calls := c |}
               ident html ms N C E M).
Qed.

End WorkerLoop.

(** * The pagination loop of the serverless function *)

Section ApiLoop.
Import JS Spec Api.

Variable net : nat -> jsstring -> fetch_outcome.
Variable extract : jsstring -> result (list Movie).
Variable username : jsstring.

Let body := loop_body net extract username.

Lemma api_loop_body_cases st :
  (exists st', body st = Next st' /\ hasMore st' = false /\
               page st' = page st /\ allMovies st' = allMovies st /\
               calls st' = S (calls st))
  \/ (exists st', body st = Next st' /\ hasMore st' = true /\
                  page st' = S (page st) /\ calls st' = S (calls st))
  \/ (exists r, body st = Leave r).
Proof.
  unfold body, loop_body.
  destruct (net (calls st) (Worker.page_url username (page st))) as [|html].
  - destruct (page st =? 1); [right; right; eauto|left; eexists; simpl; eauto].
  - destruct (Worker.challenge html).
    + destruct (page st =? 1); [right; right; eauto|left; eexists; simpl; eauto].
    + destruct (extract html) as [ms| |].
      * destruct (length ms =? 0);
          [left; eexists; simpl; eauto|right; left; eexists; simpl; eauto].
      * destruct (page st =? 1);
          [right; right; eauto|left; eexists; simpl; eauto].
      * right; right; eauto.
Qed.

Lemma api_loop_cond_positive st : loop_cond st = true -> 0 < api_measure st.
Proof.
  unfold loop_cond, api_measure. intro H.
  apply andb_true_iff in H. destruct H as [-> H].
  apply Nat.leb_le in H. lia.
Qed.

Lemma api_loop_body_decreases st st' :
  loop_cond st = true -> body st = Next st' -> api_measure st' < api_measure st.
Proof.
  intros C B. pose proof (api_loop_cond_positive _ C) as Hp.
  unfold loop_cond in C. apply andb_true_iff in C.
  destruct C as [Hm Hpg]. apply Nat.leb_le in Hpg.
  destruct (api_loop_body_cases st)
    as [[s1 [B1 [H1 _]]]|[[s1 [B1 [H1 [H2 _]]]]|[r B1]]];
    rewrite B1 in B; inversion B; subst.
  - unfold api_measure at 1. rewrite H1. assumption.
  - unfold api_measure. rewrite H1, Hm, H2. lia.
Qed.

(** The loop makes at most 20 turns. *)
Lemma api_scrape_bounded fuel :
  20 <= fuel ->
  exists n e, scrape net extract username fuel = Some (n, e) /\ n <= 20.
Proof.
  intro Hf. unfold scrape.
  destruct (while_bounded _ _ loop_cond body api_measure
              api_loop_cond_positive api_loop_body_decreases fuel 0
              {| allMovies := []; page := 1; hasMore := true; calls := 0 |})
    as [n [e [E L]]].
  - unfold api_measure. simpl. lia.
  - exists n, e. split; [exact E|]. unfold api_measure in L. simpl in L. lia.
Qed.

Lemma api_loop_body_good st html ms :
  net (calls st) (Worker.page_url username (page st)) = Resolved html ->
  Worker.challenge html = false -> extract html = Ok ms -> ms <> [] ->
  body st = Next {| allMovies := allMovies st ++ ms; page := S (page st);
                    hasMore := true; calls := S (calls st) |}.
Proof.
  intros N C E M. unfold body, loop_body. rewrite N, C, E.
  destruct ms; [congruence|reflexivity].
Qed.

Lemma api_loop_body_challenge_first st html :
  net (calls st) (Worker.page_url username (page st)) = Resolved html ->
  Worker.challenge html = true -> page st = 1 ->
  exists r, body st = Leave (Return r) /\ challenge_response r.
Proof.
  intros N C P. unfold body, loop_body. rewrite N, C, P. simpl.
  eexists. split; [reflexivity|].
  split; [reflexivity|]. eexists. split; reflexivity.
Qed.

Lemma api_loop_body_challenge_later st html :
  net (calls st) (Worker.page_url username (page st)) = Resolved html ->
  Worker.challenge html = true -> page st <> 1 ->
  body st = Next {| allMovies := allMovies st; page := page st;
                    hasMore := false; calls := S (calls st) |}.
Proof.
  intros N C P. unfold body, loop_body. rewrite N, C.
  apply Nat.eqb_neq in P. rewrite P. reflexivity.
Qed.

Lemma api_prefix lists : forall c p acc fuel it,
  api_pages net extract username c p lists ->
  p + length lists <= 21 ->
  while loop_cond body (length lists + fuel) it
    {| allMovies := acc; page := p; hasMore := true; calls := c |}
  = while loop_cond body fuel (it + length lists)
      {| allMovies := acc ++ concat lists; page := p + length lists;
         hasMore := true; calls := c + length lists |}.
Proof.
  induction lists as [|ms lists IH]; intros c p acc fuel it W Hp.
  - simpl. rewrite app_nil_r, !Nat.add_0_r. reflexivity.
  - inversion W as [|? ? html ? ? N C E M W']; subst.
    simpl length in *. simpl plus.
    rewrite (while_next _ _ loop_cond body (length lists + fuel) it
               {| allMovies := acc; page := p; hasMore := true;
                  calls := c |}
               {| allMovies := acc ++ ms; page := S p;
                  hasMore := true; calls := S c |}).
    + rewrite IH by (assumption || lia).
      simpl concat. rewrite app_assoc.
      replace (S it + length lists) with (it + S (length lists)) by lia.
      replace (S p + length lists) with (p + S (length lists)) by lia.
      replace (S c + length lists) with (c + S (length lists)) by lia.
      reflexivity.
    + unfold loop_cond. simpl. apply Nat.leb_le. lia.
    + exact (api_loop_body_good
               {| allMovies := acc; page := p; hasMore := true; calls := c |}
               html ms N C E M).
Qed.

End ApiLoop.

(** * The random index *)

Section RandomIndex.
Import JS.
Open Scope Z_scope.

Lemma round53_upper p :
  0 <= p -> 53 < Z.log2 p + 1 ->
  round53 p <= p + 2 ^ (Z.log2 p + 1 - 53 - 1).
Proof.
  intros Hp Hb. unfold round53.
  destruct (Z.log2 p + 1 <=? 53) eqn:E; [apply Z.leb_le in E; lia|].
  set (d := Z.log2 p + 1 - 53).
  assert (Hd : 0 < d) by (unfold d; lia).
  assert (H2 : 2 ^ d = 2 * 2 ^ (d - 1)).
  { replace d with (Z.succ (d - 1)) at 1 by lia. apply Z.pow_succ_r. lia. }
  assert (Hpos : 0 < 2 ^ (d - 1)) by (apply Z.pow_pos_nonneg; lia).
  pose proof (Z.div_mod p (2 ^ d) ltac:(lia)) as Hdm.
  pose proof (Z.mod_pos_bound p (2 ^ d) ltac:(lia)) as Hm.
  destruct (p mod 2 ^ d <? 2 ^ (d - 1)) eqn:E1.
  - apply Z.ltb_lt in E1. nia.
  - apply Z.ltb_ge in E1.
    destruct (2 ^ (d - 1) <? p mod 2 ^ d) eqn:E2.
    + apply Z.ltb_lt in E2. nia.
    + apply Z.ltb_ge in E2. destruct (Z.even (p / 2 ^ d)); nia.
Qed.

Lemma round53_nonneg p : 0 <= p -> 0 <= round53 p.
Proof.
  intro Hp. unfold round53.
  destruct (Z.log2 p + 1 <=? 53) eqn:E; [assumption|].
  apply Z.leb_gt in E.
  set (d := Z.log2 p + 1 - 53).
  assert (Hpos : 0 < 2 ^ d) by (apply Z.pow_pos_nonneg; unfold d; lia).
  assert (Hq : 0 <= p / 2 ^ d) by (apply Z.div_pos; lia).
  destruct (p mod 2 ^ d <? 2 ^ (d - 1)); [nia|].
  destruct (2 ^ (d - 1) <? p mod 2 ^ d); [nia|].
  destruct (Z.even (p / 2 ^ d)); nia.
Qed.

(** The index drawn for a non-empty list of fewer than [2^53] records is
    a position of the list. *)
Lemma random_index_lt d n :
  valid_double01 d -> (0 < n)%nat -> Z.of_nat n < 2 ^ 53 ->
  (random_index d n < n)%nat.
Proof.
  intros [[Hm0 Hm1] [He0 He1]] Hn Hn53. unfold random_index.
  set (p := mant d * Z.of_nat n).
  assert (Hp : 0 <= p) by (unfold p; nia).
  assert (He : 0 < 2 ^ expo d) by (apply Z.pow_pos_nonneg; lia).
  assert (H53 : 2 ^ 53 <= 2 ^ expo d) by (apply Z.pow_le_mono_r; lia).
  assert (Hlt : round53 p < Z.of_nat n * 2 ^ expo d).
  { destruct (Z.leb_spec (Z.log2 p + 1) 53) as [Hb|Hb].
    - unfold round53. rewrite (proj2 (Z.leb_le _ _) Hb). unfold p. nia.
    - pose proof (round53_upper p Hp Hb) as Hu.
      assert (Hp0 : 0 < p) by (destruct (Z.eq_dec p 0) as [->|]; [simpl in Hb|]; lia).
      pose proof (Z.log2_spec p Hp0) as [Hl _].
      set (e := Z.log2 p + 1 - 53 - 1) in *.
      assert (El : Z.log2 p = e + 53) by (unfold e; lia).
      rewrite El, Z.pow_add_r in Hl by lia.
      assert (Hpe : 0 < 2 ^ e) by (apply Z.pow_pos_nonneg; lia).
      assert (Hen : 2 ^ e < Z.of_nat n) by (unfold p in Hl; nia).
      unfold p in *. nia. }
  pose proof (round53_nonneg p Hp) as H0.
  assert (Hq : round53 p / 2 ^ expo d < Z.of_nat n).
  { apply Z.div_lt_upper_bound; [assumption|]. lia. }
  assert (0 <= round53 p / 2 ^ expo d) by (apply Z.div_pos; lia).
  lia.
Qed.

End RandomIndex.

(** * Title, year and poster *)

Section Fields.
Import JS Spec.

Lemma alt_attr_det tok v post tok' v' post' :
  tok ++ post = tok' ++ post' -> alt_attr tok v -> alt_attr tok' v' ->
  tok = tok' /\ v = v'.
Proof. apply quoted_det. Qed.

Lemma worker_title_name slug section pre tok v post :
  first_of name_attr section pre tok v post ->
  Worker.resolve_name (Str slug) section = Ok (Str v).
Proof.
  intro F.
  destruct (str_match_first_of _ _ namePattern_shape name_attr_det
              _ _ _ _ _ F) as [m [E [_ [_ Ec]]]].
  unfold Worker.resolve_name. simpl. rewrite E, group_cap1, Ec. reflexivity.
Qed.

Lemma worker_title_alt slug section pre tok v post :
  none_of name_attr section ->
  first_of alt_attr section pre tok v post ->
  Worker.resolve_name (Str slug) section
  = Ok (Str (if 1 <? length v then v else hyphens_to_spaces slug)).
Proof.
  intros N F.
  destruct (str_match_first_of _ _ altPattern_shape alt_attr_det
              _ _ _ _ _ F) as [m [E [_ [_ Ec]]]].
  unfold Worker.resolve_name. simpl.
  rewrite (str_match_none_of _ _ namePattern_shape _ N).
  rewrite E, group_cap1, Ec. simpl.
  destruct (1 <? length v); reflexivity.
Qed.

Lemma worker_title_slug slug section :
  none_of name_attr section -> none_of alt_attr section ->
  Worker.resolve_name (Str slug) section = Ok (Str (hyphens_to_spaces slug)).
Proof.
  intros N A. unfold Worker.resolve_name. simpl.
  rewrite (str_match_none_of _ _ namePattern_shape _ N).
  rewrite (str_match_none_of _ _ altPattern_shape _ A). reflexivity.
Qed.

Lemma api_title_name slug section pre tok v post :
  first_of name_attr section pre tok v post ->
  Api.resolve_name (Str slug) section = Ok (Str v).
Proof.
  intro F.
  destruct (str_match_first_of _ _ namePattern_shape name_attr_det
              _ _ _ _ _ F) as [m [E [_ [_ Ec]]]].
  unfold Api.resolve_name. rewrite E, group_cap1, Ec. reflexivity.
Qed.

Lemma api_title_alt slug section pre tok v post :
  none_of name_attr section ->
  first_of alt_attr section pre tok v post ->
  Api.resolve_name (Str slug) section
  = Ok (Str (lit "alt=" ++ [dq] ++ v ++ [dq])) /\
  lit "alt=" ++ [dq] ++ v ++ [dq] <> v.
Proof.
  intros N F.
  destruct (str_match_first_of _ _ altPattern_shape alt_attr_det
              _ _ _ _ _ F) as [m [E [_ [Et _]]]].
  destruct F as [_ [[Q _] _]]. split.
  - unfold Api.resolve_name.
    rewrite (str_match_none_of _ _ namePattern_shape _ N).
    rewrite E, Et, Q. reflexivity.
  - intro H. apply (f_equal (@length ascii)) in H.
    rewrite !length_app in H. simpl in H. lia.
Qed.

Lemma api_title_slug slug section :
  none_of name_attr section -> none_of alt_attr section ->
  Api.resolve_name (Str slug) section = Ok (Str (hyphens_to_spaces slug)).
Proof.
  intros N A. unfold Api.resolve_name.
  rewrite (str_match_none_of _ _ namePattern_shape _ N).
  rewrite (str_match_none_of _ _ altPattern_shape _ A). reflexivity.
Qed.

Lemma year_first t pre tok y post :
  first_of year_group t pre tok y post ->
  Worker.extract_year (Str t) = Ok (Str y).
Proof.
  intro F.
  destruct (str_match_first_of _ _ yearPattern_shape year_group_det
              _ _ _ _ _ F) as [m [E [_ [_ Ec]]]].
  unfold Worker.extract_year. simpl. rewrite E, group_cap1, Ec. reflexivity.
Qed.

Lemma year_none t :
  none_of year_group t -> Worker.extract_year (Str t) = Ok (Str []).
Proof.
  intro N. unfold Worker.extract_year. simpl.
  now rewrite (str_match_none_of _ _ yearPattern_shape _ N).
Qed.

Lemma year_read_off t y :
  Worker.extract_year (Str t) = Ok (Str y) -> year_of_title t y.
Proof.
  unfold Worker.extract_year. simpl.
  destruct (str_match t Worker.yearPattern) as [m|] eqn:E; intro H.
  - destruct (str_match_some_first_of _ _ yearPattern_shape _ _ E)
      as [pre [y' [post [F [Ec _]]]]].
    rewrite group_cap1, Ec in H. inversion H; subst. left. eauto.
  - inversion H; subst. right. split; [|reflexivity].
    eapply str_match_none_inv; [apply yearPattern_shape|assumption].
Qed.

Lemma worker_year_field (m : Worker.Movie) s t y :
  Worker.slug m = Str s -> Worker.title m = Str t -> Worker.year m = Str y ->
  get "year" (Worker.movie_json m) = Some (JStr y).
Proof.
  intros Es Et Ey. unfold Worker.movie_json. rewrite Es, Et, Ey. reflexivity.
Qed.

Lemma api_no_year_field (m : Api.Movie) :
  get "year" (Api.movie_json m) = None.
Proof.
  unfold Api.movie_json.
  destruct (Api.slug m), (Api.title m), (Api.poster m); reflexivity.
Qed.

(** [replace] with a pattern without groups, read without patterns. *)
Lemma replace_first_rewritten p (is_token : jsstring -> Prop) by_ s :
  (forall tok caps, matches p tok caps <-> is_token tok /\ caps = []) ->
  rewritten is_token by_ s (replace_first s p by_).
Proof.
  intro Sh.
  destruct (replace_first_spec p s by_)
    as [[pre [tok [post [caps [[Es [M L]] E]]]]]|[N E]].
  - left. exists pre, tok, post. repeat split; try assumption.
    + apply Sh in M. tauto.
    + intros pre' tok' post' Es' T'.
      apply (L pre' tok' post' []); [assumption|]. apply Sh. auto.
  - right. split; [|assumption].
    intros pre tok post Es T. apply N.
    exists pre, tok, post, []. split; [assumption|]. apply Sh. auto.
Qed.

Lemma rewritten_none (is_token : jsstring -> Prop) by_ u u' :
  (forall pre tok post, u = pre ++ tok ++ post -> ~ is_token tok) ->
  rewritten is_token by_ u u' -> u' = u.
Proof.
  intros N [[pre [tok [post [E [T _]]]]]|[_ E]]; [|assumption].
  exfalso. exact (N _ _ _ E T).
Qed.

Lemma eq_token_shape p l :
  (forall tok caps, matches p tok caps <-> tok = l /\ caps = []) ->
  forall tok caps, matches p tok caps <-> l = tok /\ caps = [].
Proof. intros H tok caps. rewrite H. intuition congruence. Qed.

End Fields.

(** * Scanning, read without patterns *)

Section Scanning.
Import JS Spec.

Variable p : pattern.
Variable P : jsstring -> jsstring -> Prop.

Hypothesis shape : forall tok caps,
  matches p tok caps <-> exists v, P tok v /\ caps = [Some v].

Lemma leftmost_first_of s pre tok post caps :
  leftmost p s pre tok post caps ->
  exists v, caps = [Some v] /\ first_of P s pre tok v post.
Proof.
  intros [Es [M L]]. apply shape in M. destruct M as [v [Pv ->]].
  exists v. split; [reflexivity|]. repeat split; try assumption.
  intros pre' tok' v' post' Es' P'.
  apply (L pre' tok' post' [Some v']); [assumption|]. apply shape. eauto.
Qed.

Lemma not_occurs_none_of s : ~ occurs p s -> none_of P s.
Proof.
  intros N pre tok v post Es Pv. apply N.
  exists pre, tok, post, [Some v]. split; [assumption|]. apply shape. eauto.
Qed.

Lemma successive_scan s l :
  successive p s l ->
  exists vs, scan P s vs /\ map cap1 l = map Str vs.
Proof.
  induction 1 as [s N|s pre tok post caps l L S [vs [IH1 IH2]]].
  - exists []. split; [|reflexivity]. constructor.
    now apply not_occurs_none_of.
  - destruct (leftmost_first_of _ _ _ _ _ L) as [v [-> F]].
    exists (v :: vs). split; [econstructor; eassumption|].
    simpl. now rewrite IH2.
Qed.

(** The first match, with the text before and after it written out. *)
Lemma str_match_explicit s m :
  str_match s p = Some m ->
  exists v, m_caps m = [Some v] /\
            first_of P s (firstn (m_index m) s) (m_all m) v
              (skipn (m_end m) s).
Proof.
  intro E.
  destruct (str_match_sound _ _ _ E) as [pre [post [L Ei]]].
  destruct (leftmost_first_of _ _ _ _ _ L) as [v [Ec F]].
  exists v. split; [assumption|].
  pose proof F as [Es _].
  assert (E1 : firstn (m_index m) s = pre).
  { rewrite Ei, Es, firstn_app, firstn_all, Nat.sub_diag.
    simpl. apply app_nil_r. }
  assert (E2 : skipn (m_end m) s = post).
  { unfold m_end. rewrite Ei. rewrite Es at 1.
    rewrite app_assoc, skipn_app, skipn_all2 by (rewrite length_app; lia).
    rewrite length_app, Nat.sub_diag. reflexivity. }
  rewrite E1, E2. assumption.
Qed.

End Scanning.

Section Positions.
Import JS Spec.

Lemma indexOf_first s needle k :
  indexOf s needle = Z.of_nat k -> first_occurrence s needle k.
Proof.
  unfold indexOf. intro E.
  destruct (indexOf_from_spec needle s 0) as [[k' [F E']]|[_ E']];
    rewrite E' in E.
  - assert (k' = k) by lia. now subst.
  - lia.
Qed.

Lemma slug_attr_shape tok caps :
  matches Api.slugPattern tok caps <->
  exists v, slug_attr tok v /\ caps = [Some v].
Proof. apply api_slugPattern_shape. Qed.

Lemma worker_collect_more_fuel html fuel fuel' seen :
  Worker.collect_slugs fuel html = Ok seen -> fuel <= fuel' ->
  Worker.collect_slugs fuel' html = Ok seen.
Proof.
  unfold Worker.collect_slugs. intros H Hf.
  destruct (exec_loop fuel Worker.slugPattern1 html 0 Worker.collect [])
    as [s1| |] eqn:E1; try discriminate.
  rewrite (exec_loop_more_fuel _ _ _ _ _ _ _ _ E1 _ Hf). simpl in *.
  destruct (exec_loop fuel Worker.slugPattern2 html 0 Worker.collect s1)
    as [s2| |] eqn:E2; try discriminate.
  rewrite (exec_loop_more_fuel _ _ _ _ _ _ _ _ E2 _ Hf). simpl in *.
  exact (exec_loop_more_fuel _ _ _ _ _ _ _ _ H _ Hf).
Qed.

Lemma worker_parse_more_fuel html fuel movies :
  Worker.parseMovies html = Ok movies -> length html <= fuel ->
  Worker.parseMovies_fuel fuel html = Ok movies.
Proof.
  unfold Worker.parseMovies, Worker.parseMovies_fuel. intros H Hf.
  destruct (Worker.collect_slugs (length html) html) as [seen| |] eqn:E;
    try discriminate.
  now rewrite (worker_collect_more_fuel _ _ _ _ E Hf).
Qed.

Lemma api_parse_more_fuel html fuel movies :
  Api.parseMovies html = Ok movies -> length html <= fuel ->
  Api.parseMovies_fuel fuel html = Ok movies.
Proof.
  unfold Api.parseMovies, Api.parseMovies_fuel, Api.collect_slugs.
  intros H Hf.
  destruct (exec_loop (length html) Api.slugPattern html 0 Api.collect [])
    as [seen| |] eqn:E; try discriminate.
  now rewrite (exec_loop_more_fuel _ _ _ _ _ _ _ _ E _ Hf).
Qed.

End Positions.

(** * The claims about the extractor *)

Section ExtractorClaims.
Import JS Spec Examples.

(** C1, as amended: every identifier of the collected set gets one record,
    built from the window around the first occurrence of the identifier in
    the page, clipped to the page; the window reaches 1000 characters each
    way in the extractor of the two workers and 500 characters each way in
    the extractor of the serverless function. *)
Theorem C1_context_window : forall html,
  (exists seen movies,
      Worker.collect_slugs (length html) html = Ok seen /\
      Worker.parseMovies html = Ok movies /\
      Forall2 (worker_record html) seen movies) /\
  (exists seen movies,
      Api.collect_slugs (length html) html = Ok seen /\
      Api.parseMovies html = Ok movies /\
      Forall2 (api_record html) seen movies).
Proof.
  intro html. split.
  - destruct (worker_parseMovies_spec html (length html) (le_n _))
      as [l1 [l2 [l3 [seen [movies [_ [_ [_ [E [_ [_ [R P]]]]]]]]]]]].
    exists seen, movies. auto.
  - destruct (api_parseMovies_spec html (length html) (le_n _))
      as [l [seen [movies [_ [E [_ [_ [R P]]]]]]]].
    exists seen, movies. auto.
Qed.

(** C1 as stated fails on the serverless function: the context of the
    film of [far_page] is not the window of radius 1000, and the alternate
    text that window holds does not reach the title. *)
Lemma C1_counterexample :
  exists k m,
    first_occurrence far_page (lit "dune") k /\
    Api.collect_slugs (length far_page) far_page = Ok [Str (lit "dune")] /\
    Api.parseMovies far_page = Ok [m] /\
    Api.filmSection_of far_page (Str (lit "dune")) <> window far_page k 1000 /\
    Api.resolve_name (Str (lit "dune")) (window far_page k 1000)
    <> Ok (Api.title m).
Proof.
  exists 635. eexists. split; [|split; [|split; [|split]]].
  - apply indexOf_first. vm_compute. reflexivity.
  - vm_compute. reflexivity.
  - vm_compute. reflexivity.
  - intro H. apply (f_equal (@length ascii)) in H. vm_compute in H.
    discriminate.
  - vm_compute. discriminate.
Qed.

(** C2, as amended: the extractor of the two workers scans the page for
    [data-film-slug] attributes, for [data-item-slug] attributes and for
    links to [/film/<slug>/], and the records are built from the
    duplicate-free set of the values found; the extractor of the serverless
    function scans once for the two attributes, not for links, and builds
    its records from the duplicate-free set of the values found. *)
Theorem C2_identifier_patterns : forall html,
  (exists vs1 vs2 vs3 seen,
      scan film_slug_attr html vs1 /\
      scan item_slug_attr html vs2 /\
      scan film_link html vs3 /\
      Worker.collect_slugs (length html) html = Ok seen /\
      NoDup seen /\
      (forall v, In v seen <-> In v (map Str (vs1 ++ vs2 ++ vs3))) /\
      Worker.parseMovies html = Worker.for_each_slug html seen []) /\
  (exists vs seen,
      scan slug_attr html vs /\
      Api.collect_slugs (length html) html = Ok seen /\
      NoDup seen /\
      (forall v, In v seen <-> In v (map Str vs)) /\
      Api.parseMovies html = Api.for_each_slug html seen []).
Proof.
  intro html. split.
  - destruct (worker_collect_slugs_spec html (length html) (le_n _))
      as [l1 [l2 [l3 [seen [S1 [S2 [S3 [E [N [I _]]]]]]]]]].
    destruct (successive_scan _ _ slugPattern1_shape _ _ S1) as [vs1 [C1 M1]].
    destruct (successive_scan _ _ slugPattern2_shape _ _ S2) as [vs2 [C2 M2]].
    destruct (successive_scan _ _ slugPattern3_shape _ _ S3) as [vs3 [C3 M3]].
    exists vs1, vs2, vs3, seen. repeat split; try assumption.
    + intro H. apply I in H.
      rewrite !map_app in *. now rewrite <- M1, <- M2, <- M3.
    + intro H. apply I.
      rewrite !map_app in *. now rewrite M1, M2, M3.
    + unfold Worker.parseMovies, Worker.parseMovies_fuel. now rewrite E.
  - destruct (api_collect_slugs_spec html (length html) (le_n _))
      as [l [seen [S [E [N [I _]]]]]].
    destruct (successive_scan _ _ slug_attr_shape _ _ S) as [vs [C M]].
    exists vs, seen. repeat split; try assumption.
    + intro H. apply I in H. now rewrite <- M.
    + intro H. apply I. now rewrite M.
    + unfold Api.parseMovies, Api.parseMovies_fuel. now rewrite E.
Qed.

(** C2 as stated fails on the serverless function: the link of
    [link_page] is found by the scan for links, and the extractor collects
    nothing. *)
Lemma C2_counterexample :
  scan film_link link_page [lit "dune"] /\
  Api.collect_slugs (length link_page) link_page = Ok [] /\
  Api.parseMovies link_page = Ok [].
Proof.
  split; [|split; vm_compute; reflexivity].
  destruct (str_match link_page Worker.slugPattern3) as [m|] eqn:E;
    [|vm_compute in E; discriminate].
  destruct (str_match_explicit _ _ slugPattern3_shape _ _ E) as [v [Ec F]].
  vm_compute in E. injection E as <-.
  injection Ec as <-.
  econstructor; [exact F|].
  constructor.
  eapply str_match_none_inv; [apply slugPattern3_shape|].
  vm_compute. reflexivity.
Qed.

End ExtractorClaims.

Section Checks.
Import JS Spec.

Variable p : pattern.
Variable P : jsstring -> jsstring -> Prop.

Hypothesis shape : forall tok caps,
  matches p tok caps <-> exists v, P tok v /\ caps = [Some v].

(** Deciding [first_of] and [none_of] on a given text by running the
    matcher. *)
Lemma first_of_check s m v pre tok post :
  str_match s p = Some m -> m_caps m = [Some v] ->
  pre = firstn (m_index m) s -> tok = m_all m ->
  post = skipn (m_end m) s ->
  first_of P s pre tok v post.
Proof.
  intros E Ec -> -> ->.
  destruct (str_match_explicit _ _ shape _ _ E) as [v' [Ec' F]].
  rewrite Ec in Ec'. injection Ec' as <-. exact F.
Qed.

Lemma none_of_check s : str_match s p = None -> none_of P s.
Proof. apply str_match_none_inv. exact shape. Qed.

End Checks.

Section FieldClaims.
Import JS Spec Examples.

(** C3: in the extractor of the two workers the title is the value of the
    first name attribute of the window when there is one; otherwise the
    value of the first alternate text of the window when that value is
    longer than one character; otherwise the identifier with its hyphens
    replaced by spaces.  In the extractor of the serverless function the
    title is the value of the first name attribute of the window when
    there is one, and the identifier with its hyphens replaced by spaces
    when the window has neither a name attribute nor an alternate text;
    but when the window has no name attribute and an alternate text, the
    title is the whole matched text, [alt=], the quotes and the value, of
    whatever length the value is, and never the value. *)
Theorem C3_title_priority : forall slug section,
  (forall pre tok v post,
      first_of name_attr section pre tok v post ->
      Worker.resolve_name (Str slug) section = Ok (Str v)) /\
  (forall pre tok v post,
      none_of name_attr section ->
      first_of alt_attr section pre tok v post ->
      Worker.resolve_name (Str slug) section
      = Ok (Str (if 1 <? length v then v else hyphens_to_spaces slug))) /\
  (none_of name_attr section -> none_of alt_attr section ->
   Worker.resolve_name (Str slug) section
   = Ok (Str (hyphens_to_spaces slug))) /\
  (forall pre tok v post,
      first_of name_attr section pre tok v post ->
      Api.resolve_name (Str slug) section = Ok (Str v)) /\
  (forall pre tok v post,
      none_of name_attr section ->
      first_of alt_attr section pre tok v post ->
      Api.resolve_name (Str slug) section
      = Ok (Str (lit "alt=" ++ [dq] ++ v ++ [dq])) /\
      lit "alt=" ++ [dq] ++ v ++ [dq] <> v) /\
  (none_of name_attr section -> none_of alt_attr section ->
   Api.resolve_name (Str slug) section = Ok (Str (hyphens_to_spaces slug))).
Proof.
  intros slug section.
  split; [|split; [|split; [|split; [|split]]]].
  - apply worker_title_name.
  - intros pre tok v post N F. eapply worker_title_alt; eassumption.
  - apply worker_title_slug.
  - apply api_title_name.
  - intros pre tok v post N F. eapply api_title_alt; eassumption.
  - apply api_title_slug.
Qed.

Lemma C3_witness :
  Worker.resolve_name (Str (lit "dune")) named_page
  = Ok (Str (lit "Dune (2021)")) /\
  Worker.resolve_name (Str (lit "dune")) alt_section = Ok (Str (lit "Dune")) /\
  Worker.resolve_name (Str (lit "the-thing")) bare_page
  = Ok (Str (lit "the thing")) /\
  Api.resolve_name (Str (lit "dune")) named_page
  = Ok (Str (lit "Dune (2021)")) /\
  (Api.resolve_name (Str (lit "dune")) alt_section
   = Ok (Str (lit "alt=" ++ [dq] ++ lit "Dune" ++ [dq])) /\
   lit "alt=" ++ [dq] ++ lit "Dune" ++ [dq] <> lit "Dune") /\
  Api.resolve_name (Str (lit "the-thing")) bare_page
  = Ok (Str (lit "the thing")).
Proof.
  split; [|split; [|split; [|split; [|split]]]].
  - eapply (proj1 (C3_title_priority (lit "dune") named_page)).
    eapply (first_of_check _ _ namePattern_shape);
      [vm_compute; reflexivity|vm_compute; reflexivity|reflexivity..].
  - eapply (proj1 (proj2 (C3_title_priority (lit "dune") alt_section))
              _ _ (lit "Dune")).
    + apply (none_of_check _ _ namePattern_shape). vm_compute. reflexivity.
    + eapply (first_of_check _ _ altPattern_shape);
        [vm_compute; reflexivity|vm_compute; reflexivity|reflexivity..].
  - apply (proj1 (proj2 (proj2 (C3_title_priority (lit "the-thing") bare_page)))).
    + apply (none_of_check _ _ namePattern_shape). vm_compute. reflexivity.
    + apply (none_of_check _ _ altPattern_shape). vm_compute. reflexivity.
  - eapply (proj1 (proj2 (proj2 (proj2
              (C3_title_priority (lit "dune") named_page))))).
    eapply (first_of_check _ _ namePattern_shape);
      [vm_compute; reflexivity|vm_compute; reflexivity|reflexivity..].
  - eapply (proj1 (proj2 (proj2 (proj2 (proj2
              (C3_title_priority (lit "dune") alt_section)))))
              _ _ (lit "Dune")).
    + apply (none_of_check _ _ namePattern_shape). vm_compute. reflexivity.
    + eapply (first_of_check _ _ altPattern_shape);
        [vm_compute; reflexivity|vm_compute; reflexivity|reflexivity..].
  - apply (proj2 (proj2 (proj2 (proj2 (proj2
             (C3_title_priority (lit "the-thing") bare_page)))))).
    + apply (none_of_check _ _ namePattern_shape). vm_compute. reflexivity.
    + apply (none_of_check _ _ altPattern_shape). vm_compute. reflexivity.
Defined.

(** C3 as stated fails on the serverless function: the window
    [alt_section] has no name attribute and the alternate text [Dune], and
    the title is the whole matched text, attribute name and quotes
    included. *)
Lemma C3_counterexample :
  none_of name_attr alt_section /\
  (exists pre tok post, first_of alt_attr alt_section pre tok (lit "Dune") post) /\
  Api.resolve_name (Str (lit "dune")) alt_section
  = Ok (Str (lit "alt=" ++ quote "Dune")) /\
  Api.resolve_name (Str (lit "dune")) alt_section <> Ok (Str (lit "Dune")).
Proof.
  split; [|split; [|split]].
  - apply (none_of_check _ _ namePattern_shape). vm_compute. reflexivity.
  - eexists _, _, _. eapply (first_of_check _ _ altPattern_shape);
      [vm_compute; reflexivity|vm_compute; reflexivity|reflexivity..].
  - vm_compute. reflexivity.
  - vm_compute. discriminate.
Qed.

(** C4, as amended: the year read off a title is the four digits of the
    first parenthesised group of four digits of the title, and the empty
    string when the title has no such group; every record of the extractor
    of the two workers carries that year of its title in its [year] field.
    The records of the extractor of the serverless function have no [year]
    field. *)
Theorem C4_year_field :
  (forall t pre tok y post,
      first_of year_group t pre tok y post ->
      Worker.extract_year (Str t) = Ok (Str y)) /\
  (forall t, none_of year_group t ->
             Worker.extract_year (Str t) = Ok (Str [])) /\
  (forall html, exists movies,
      Worker.parseMovies html = Ok movies /\
      Forall (fun m => exists t y,
                  Worker.title m = Str t /\ Worker.year m = Str y /\
                  year_of_title t y /\
                  get "year" (Worker.movie_json m) = Some (JStr y)) movies) /\
  (forall html, exists movies,
      Api.parseMovies html = Ok movies /\
      Forall (fun m => get "year" (Api.movie_json m) = None) movies).
Proof.
  split; [|split; [|split]].
  - apply year_first.
  - apply year_none.
  - intro html.
    destruct (worker_parseMovies_spec html (length html) (le_n _))
      as [l1 [l2 [l3 [seen [movies [_ [_ [_ [_ [_ [_ [R P]]]]]]]]]]]].
    exists movies. split; [exact P|].
    clear P. induction R as [|v m seen movies Rm _ IH]; constructor;
      [|assumption].
    destruct Rm as [s [k [t [y [_ [_ [Es [Et [Ey [_ [_ [Ex _]]]]]]]]]]]].
    exists t, y. repeat split; try assumption.
    + now apply year_read_off.
    + eapply worker_year_field; eassumption.
  - intro html.
    destruct (api_parseMovies_spec html (length html) (le_n _))
      as [l [seen [movies [_ [_ [_ [_ [_ P]]]]]]]].
    exists movies. split; [exact P|].
    apply Forall_forall. intros m _. apply api_no_year_field.
Qed.

Lemma C4_witness :
  Worker.extract_year (Str (lit "Dune (2021)")) = Ok (Str (lit "2021")) /\
  Worker.extract_year (Str (lit "Dune")) = Ok (Str []).
Proof.
  split.
  - eapply (proj1 C4_year_field).
    eapply (first_of_check _ _ yearPattern_shape);
      [vm_compute; reflexivity|vm_compute; reflexivity|reflexivity..].
  - apply (proj1 (proj2 C4_year_field)).
    apply (none_of_check _ _ yearPattern_shape). vm_compute. reflexivity.
Defined.

(** C4 as stated fails on the serverless function: the record of
    [named_page] has the title [Dune (2021)] and no [year] field. *)
Lemma C4_counterexample :
  exists m,
    Api.parseMovies named_page = Ok [m] /\
    Api.title m = Str (lit "Dune (2021)") /\
    get "year" (Api.movie_json m) = None.
Proof.
  eexists. split; [vm_compute; reflexivity|].
  split; vm_compute; reflexivity.
Qed.

Lemma digits_no_hyphen w : all_digits w -> ~ In "-"%char w.
Proof.
  intros D H. unfold all_digits in D. rewrite Forall_forall in D.
  apply D in H. vm_compute in H. discriminate.
Qed.

Lemma crop_token_det tok post tok' post' :
  tok ++ post = tok' ++ post' -> crop_token tok -> crop_token tok' ->
  tok = tok'.
Proof.
  intros E [w [h [-> [_ [_ [Dw Dh]]]]]] [w' [h' [-> [_ [_ [Dw' Dh']]]]]].
  rewrite <- !app_assoc in E. apply app_inv_head in E.
  change (lit "-0-") with ("-"%char :: lit "0-") in E.
  simpl app in E.
  destruct (run_until _ _ _ _ _ (digits_no_hyphen _ Dw)
              (digits_no_hyphen _ Dw') E) as [-> E1].
  inversion E1 as [E2].
  change (lit "-crop") with ("-"%char :: lit "crop") in E2.
  simpl app in E2.
  destruct (run_until _ _ _ _ _ (digits_no_hyphen _ Dh)
              (digits_no_hyphen _ Dh') E2) as [-> _].
  reflexivity.
Qed.

(** When the place of the first token is known, so is the result. *)
Lemma rewritten_first (is_token : jsstring -> Prop) large u u' pre tok post :
  (forall t p t' p', t ++ p = t' ++ p' -> is_token t -> is_token t' ->
                     t = t') ->
  u = pre ++ tok ++ post -> is_token tok ->
  (forall pre' tok' post',
      u = pre' ++ tok' ++ post' -> is_token tok' ->
      length pre <= length pre') ->
  rewritten is_token large u u' ->
  u' = pre ++ large ++ post.
Proof.
  intros Det E T L [[pre0 [tok0 [post0 [E0 [T0 [L0 ->]]]]]]|[N _]].
  - pose proof (L _ _ _ E0 T0). pose proof (L0 _ _ _ E T).
    rewrite E in E0.
    destruct (app_same_length _ _ _ _ _ E0) as [-> E1]; [lia|].
    pose proof (Det _ _ _ _ E1 T T0) as ->.
    apply app_inv_head in E1. now subst.
  - exfalso. exact (N _ _ _ E T).
Qed.

Lemma eq_token_det (l t p t' p' : jsstring) :
  t ++ p = t' ++ p' -> l = t -> l = t' -> t = t'.
Proof. congruence. Qed.

(** C5: the rewrite of a poster address is a function of the address
    alone.  In the workers it replaces the first size token
    [-0-W-0-H-crop] by [-0-460-0-690-crop], then the first [-0-150-0-225-]
    by [-0-230-0-345-], then the first [-0-125-0-187-] by [-0-230-0-345-],
    each step leaving the text before and after the token as it is; an
    address without any of these tokens is returned as it is, and an
    address whose first crop token is at a known place, and which has no
    other token once that one is replaced, is returned with that token
    replaced and nothing else changed.  In the serverless function the
    rewrite is the first step alone. *)
Theorem C5_poster_rewrite : forall url,
  (exists u1 u2,
      rewritten crop_token (lit "-0-460-0-690-crop") url u1 /\
      rewritten (eq (lit "-0-150-0-225-")) (lit "-0-230-0-345-") u1 u2 /\
      rewritten (eq (lit "-0-125-0-187-")) (lit "-0-230-0-345-") u2
        (Worker.enlarge url)) /\
  ((forall pre tok post, url = pre ++ tok ++ post -> ~ small_token tok) ->
   Worker.enlarge url = url) /\
  (forall pre tok post,
      url = pre ++ tok ++ post -> crop_token tok ->
      (forall pre' tok' post',
          url = pre' ++ tok' ++ post' -> crop_token tok' ->
          length pre <= length pre') ->
      (forall pre' tok' post',
          pre ++ lit "-0-460-0-690-crop" ++ post = pre' ++ tok' ++ post' ->
          tok' <> lit "-0-150-0-225-" /\ tok' <> lit "-0-125-0-187-") ->
      Worker.enlarge url = pre ++ lit "-0-460-0-690-crop" ++ post) /\
  (exists u1,
      rewritten crop_token (lit "-0-460-0-690-crop") url u1 /\
      Api.enlarge (Str url) = Str u1) /\
  ((forall pre tok post, url = pre ++ tok ++ post -> ~ crop_token tok) ->
   Api.enlarge (Str url) = Str url) /\
  (forall pre tok post,
      url = pre ++ tok ++ post -> crop_token tok ->
      (forall pre' tok' post',
          url = pre' ++ tok' ++ post' -> crop_token tok' ->
          length pre <= length pre') ->
      Api.enlarge (Str url) = Str (pre ++ lit "-0-460-0-690-crop" ++ post)).
Proof.
  intro url.
  pose proof (replace_first_rewritten Worker.cropPattern crop_token
                (lit "-0-460-0-690-crop") url cropPattern_shape) as R1.
  set (u1 := replace_first url Worker.cropPattern (lit "-0-460-0-690-crop"))
    in *.
  pose proof (replace_first_rewritten Worker.posterPattern150
                (eq (lit "-0-150-0-225-")) (lit "-0-230-0-345-") u1
                (eq_token_shape _ _ posterPattern150_shape)) as R2.
  set (u2 := replace_first u1 Worker.posterPattern150 (lit "-0-230-0-345-"))
    in *.
  pose proof (replace_first_rewritten Worker.posterPattern125
                (eq (lit "-0-125-0-187-")) (lit "-0-230-0-345-") u2
                (eq_token_shape _ _ posterPattern125_shape)) as R3.
  assert (EA : Api.enlarge (Str url) = Str u1).
  { destruct url; [vm_compute; reflexivity|reflexivity]. }
  split; [|split; [|split; [|split; [|split]]]].
  - exists u1, u2. auto.
  - intro N. unfold Worker.enlarge. fold u1. fold u2.
    assert (E1 : u1 = url).
    { eapply rewritten_none; [|exact R1].
      intros pre tok post E T. apply (N _ _ _ E). now left. }
    assert (E2 : u2 = u1).
    { eapply rewritten_none; [|exact R2].
      intros pre tok post E T. rewrite E1 in E. apply (N _ _ _ E).
      right. left. congruence. }
    eapply eq_trans; [|exact E1]. eapply eq_trans; [|exact E2].
    eapply rewritten_none; [|exact R3].
    intros pre tok post E T. rewrite E2, E1 in E. apply (N _ _ _ E).
    right. right. congruence.
  - intros pre tok post E T L N. unfold Worker.enlarge. fold u1. fold u2.
    assert (E1 : u1 = pre ++ lit "-0-460-0-690-crop" ++ post).
    { exact (rewritten_first _ _ _ _ _ _ _ crop_token_det E T L R1). }
    assert (E2 : u2 = u1).
    { eapply rewritten_none; [|exact R2].
      intros pre' tok' post' E' T'. rewrite E1 in E'.
      destruct (N _ _ _ E') as [N1 _]. congruence. }
    eapply eq_trans; [|exact E1]. eapply eq_trans; [|exact E2].
    eapply rewritten_none; [|exact R3].
    intros pre' tok' post' E' T'. rewrite E2, E1 in E'.
    destruct (N _ _ _ E') as [_ N2]. congruence.
  - exists u1. auto.
  - intro N. rewrite EA. f_equal.
    eapply rewritten_none; [|exact R1]. exact N.
  - intros pre tok post E T L. rewrite EA. f_equal.
    exact (rewritten_first _ _ _ _ _ _ _ crop_token_det E T L R1).
Qed.

Lemma no_small_token_check url :
  str_match url Worker.cropPattern = None ->
  str_match url Worker.posterPattern150 = None ->
  str_match url Worker.posterPattern125 = None ->
  forall pre tok post, url = pre ++ tok ++ post -> ~ small_token tok.
Proof.
  intros E1 E2 E3 pre tok post E [T|[T|T]].
  - apply (str_match_none _ _ E1). exists pre, tok, post, [].
    split; [assumption|]. apply cropPattern_shape. auto.
  - apply (str_match_none _ _ E2). exists pre, tok, post, [].
    split; [assumption|]. apply posterPattern150_shape. auto.
  - apply (str_match_none _ _ E3). exists pre, tok, post, [].
    split; [assumption|]. apply posterPattern125_shape. auto.
Qed.

(** Deciding the place of the first crop token by running the matcher. *)
Lemma first_crop_check url m pre tok post :
  str_match url Worker.cropPattern = Some m ->
  pre = firstn (m_index m) url -> tok = m_all m ->
  post = skipn (m_end m) url ->
  url = pre ++ tok ++ post /\ crop_token tok /\
  forall pre' tok' post',
    url = pre' ++ tok' ++ post' -> crop_token tok' ->
    length pre <= length pre'.
Proof.
  intros E -> -> ->.
  destruct (str_match_sound _ _ _ E) as [pre [post [[Es [M L]] Ei]]].
  assert (E1 : firstn (m_index m) url = pre).
  { rewrite Ei, Es, firstn_app, firstn_all, Nat.sub_diag.
    simpl. apply app_nil_r. }
  assert (E2 : skipn (m_end m) url = post).
  { unfold m_end. rewrite Ei. rewrite Es at 1.
    rewrite app_assoc, skipn_app, skipn_all2 by (rewrite length_app; lia).
    rewrite length_app, Nat.sub_diag. reflexivity. }
  rewrite E1, E2. split; [assumption|]. split.
  - apply cropPattern_shape in M. tauto.
  - intros pre' tok' post' E' T'. apply (L pre' tok' post' []); [assumption|].
    apply cropPattern_shape. auto.
Qed.

Lemma no_plain_token_check u :
  str_match u Worker.posterPattern150 = None ->
  str_match u Worker.posterPattern125 = None ->
  forall pre tok post,
    u = pre ++ tok ++ post ->
    tok <> lit "-0-150-0-225-" /\ tok <> lit "-0-125-0-187-".
Proof.
  intros E2 E3 pre tok post E. split; intro T.
  - apply (str_match_none _ _ E2). exists pre, tok, post, [].
    split; [assumption|]. apply posterPattern150_shape. auto.
  - apply (str_match_none _ _ E3). exists pre, tok, post, [].
    split; [assumption|]. apply posterPattern125_shape. auto.
Qed.

Lemma C5_witness :
  Worker.enlarge plain_url = plain_url /\
  Api.enlarge (Str plain_url) = Str plain_url /\
  Worker.enlarge small_url = large_url /\
  Api.enlarge (Str small_url) = Str large_url.
Proof.
  split; [|split; [|split]].
  - apply (proj1 (proj2 (C5_poster_rewrite plain_url))).
    apply no_small_token_check; vm_compute; reflexivity.
  - apply (proj1 (proj2 (proj2 (proj2 (proj2 (C5_poster_rewrite plain_url)))))).
    intros pre tok post E T.
    apply (no_small_token_check plain_url) with (tok := tok) (pre := pre)
      (post := post); try (vm_compute; reflexivity); [exact E|now left].
  - pose proof (first_crop_check small_url
                  {| m_index := 35; m_all := lit "-0-150-0-225-crop";
                     m_caps := [] |}
                  (lit "https://a.ltrbxd.com/resized/poster")
                  (lit "-0-150-0-225-crop") (lit ".jpg?v=1")
                  eq_refl eq_refl eq_refl eq_refl) as [E [T L]].
    apply (proj1 (proj2 (proj2 (C5_poster_rewrite small_url)))
             _ _ _ E T L).
    apply no_plain_token_check; vm_compute; reflexivity.
  - pose proof (first_crop_check small_url
                  {| m_index := 35; m_all := lit "-0-150-0-225-crop";
                     m_caps := [] |}
                  (lit "https://a.ltrbxd.com/resized/poster")
                  (lit "-0-150-0-225-crop") (lit ".jpg?v=1")
                  eq_refl eq_refl eq_refl eq_refl) as [E [T L]].
    apply (proj2 (proj2 (proj2 (proj2 (proj2 (C5_poster_rewrite small_url)))))
             _ _ _ E T L).
Defined.

End FieldClaims.

(** * What leaves the loops *)

Section WhileLeave.
Import JS.

Variables St R : Type.
Variable cond : St -> bool.
Variable body : St -> step St R.

Lemma while_leave_inv : forall fuel it st n r,
  while cond body fuel it st = Some (n, Leave r) ->
  exists st', cond st' = true /\ body st' = Leave r.
Proof.
  induction fuel as [|fuel IH]; intros it st n r H; simpl in H.
  - destruct (cond st); discriminate.
  - destruct (cond st) eqn:C; [|discriminate].
    destruct (body st) as [st1|r1] eqn:B.
    + eapply IH; eassumption.
    + inversion H; subst. eauto.
Qed.

End WhileLeave.

Section Totality.
Import JS Spec.

Lemma worker_parse_total html :
  exists movies,
    Worker.parseMovies html = Ok movies /\ NoDup (map Worker.slug movies).
Proof.
  destruct (worker_parseMovies_spec html (length html) (le_n _))
    as [l1 [l2 [l3 [seen [movies [_ [_ [_ [_ [N [_ [R P]]]]]]]]]]]].
  exists movies. split; [exact P|].
  now rewrite (worker_record_slug _ _ _ R).
Qed.

Lemma api_parse_total html :
  exists movies,
    Api.parseMovies html = Ok movies /\ NoDup (map Api.slug movies).
Proof.
  destruct (api_parseMovies_spec html (length html) (le_n _))
    as [l [seen [movies [_ [_ [N [_ [R P]]]]]]]].
  exists movies. split; [exact P|].
  now rewrite (api_record_slug _ _ _ R).
Qed.

End Totality.

Section WorkerLeaving.
Import JS Spec Worker.

Variable cap : nat.
Variable net : nat -> jsstring -> fetch_outcome.
Variable extract : jsstring -> result (list Movie).
Variable username : jsstring.

Let body := loop_body net extract username.

(** Why the body leaves the function. *)
Lemma loop_body_leaves st l :
  body st = Leave l ->
  (exists msg, l = Raise msg /\
               ((exists url, net (calls st) url = FetchError msg) \/
                (exists html, extract html = Throw msg)))
  \/ (l = Diverge /\ exists html, extract html = OutOfFuel)
  \/ (exists r, l = Return r /\ (status r = 404 \/ status r = 503)%Z).
Proof.
  unfold body, loop_body.
  destruct (net (calls st) (page_url username (page st)))
    as [msg|ok ident html] eqn:N.
  - intro H. inversion H; subst. left. exists msg. split; [reflexivity|].
    left. eauto.
  - destruct ok; simpl negb; cbv iota.
    + destruct (challenge html).
      * destruct (page st =? 1); intro H; inversion H; subst.
        right; right. eexists. split; [reflexivity|]. right. reflexivity.
      * destruct (extract html) as [ms|msg|] eqn:E.
        -- destruct (length ms =? 0); discriminate.
        -- intro H. inversion H; subst. left. exists msg.
           split; [reflexivity|]. right. eauto.
        -- intro H. inversion H; subst. right; left. eauto.
    + destruct (page st =? 1); intro H; inversion H; subst.
      right; right. eexists. split; [reflexivity|]. left. reflexivity.
Qed.

(** What a turn that goes on does to the list. *)
Lemma loop_body_next st st' :
  body st = Next st' ->
  allMovies st' = allMovies st \/
  exists html ms, extract html = Ok ms /\ allMovies st' = allMovies st ++ ms.
Proof.
  unfold body, loop_body.
  destruct (net (calls st) (page_url username (page st)))
    as [msg|ok ident html]; [discriminate|].
  destruct ok; simpl negb; cbv iota.
  - destruct (challenge html).
    + destruct (page st =? 1); intro H; inversion H; subst. now left.
    + destruct (extract html) as [ms|msg|] eqn:E; try discriminate.
      destruct (length ms =? 0); intro H; inversion H; subst.
      * now left.
      * right. eauto.
  - destruct (page st =? 1); intro H; inversion H; subst. now left.
Qed.

(** The list is the concatenation of what the extractor found on the
    pages, in the order of the pages. *)
Lemma scrape_concat fuel calls0 n st :
  scrape cap net extract username fuel calls0 = Some (n, Next st) ->
  exists lists,
    allMovies st = concat lists /\
    Forall (fun ms => exists html, extract html = Ok ms) lists.
Proof.
  unfold scrape. intro H.
  apply (while_invariant _ _ (loop_cond cap) body
           (fun st => exists lists,
                allMovies st = concat lists /\
                Forall (fun ms => exists html, extract html = Ok ms) lists))
    in H.
  - apply H.
  - intros s s' _ [lists [E F]] B.
    destruct (loop_body_next _ _ B) as [E'|[html [ms [Ex E']]]].
    + exists lists. split; [congruence|assumption].
    + exists (lists ++ [ms]). split.
      * rewrite concat_app, E', E. simpl. now rewrite app_nil_r.
      * apply Forall_app. split; [assumption|]. constructor; eauto.
  - exists []. split; [reflexivity|constructor].
Qed.

(** A challenge on the first page. *)
Lemma scrape_challenge_first fuel calls0 ident html :
  0 < fuel -> 1 <= cap ->
  net calls0 (page_url username 1) = Response true ident html ->
  challenge_page html ->
  exists r, scrape cap net extract username fuel calls0
            = Some (1, Leave (Return r)) /\ challenge_response r.
Proof.
  intros Hf Hc N C. apply challenge_spec in C.
  destruct fuel as [|fuel]; [lia|].
  destruct (loop_body_challenge_first net extract username
              {| allMovies := []; page := 1; hasMore := true;
                 calls := calls0 |} ident html N C eq_refl) as [r [B Cr]].
  exists r. split; [|assumption].
  unfold scrape. apply while_leave; [|exact B].
  unfold loop_cond. cbn [hasMore page andb]. apply Nat.leb_le. lia.
Qed.

(** A challenge on a later page: the loop ends with the list it has. *)
Lemma scrape_challenge_later fuel calls0 lists ident html :
  worker_pages net extract username calls0 1 lists ->
  lists <> [] -> length lists < cap -> length lists < fuel ->
  net (calls0 + length lists) (page_url username (S (length lists)))
  = Response true ident html ->
  challenge_page html ->
  scrape cap net extract username fuel calls0
  = Some (S (length lists),
          Next {| allMovies := concat lists; page := S (length lists);
                  hasMore := false; calls := S (calls0 + length lists) |}).
Proof.
  intros W Hne Hc Hf N C. apply challenge_spec in C.
  unfold scrape.
  replace fuel with (length lists + S (fuel - length lists - 1)) by lia.
  rewrite (worker_prefix cap net extract username lists calls0 1 []
             (S (fuel - length lists - 1)) 0 W) by lia.
  simpl app. simpl plus.
  rewrite (while_next _ _ (loop_cond cap) body _ _ _
             {| allMovies := concat lists; page := S (length lists);
                hasMore := false; calls := S (calls0 + length lists) |}).
  - apply while_exit. reflexivity.
  - unfold loop_cond. cbn [hasMore page andb]. apply Nat.leb_le. lia.
  - apply (loop_body_challenge_later net extract username
             {| allMovies := concat lists; page := S (length lists);
                hasMore := true; calls := calls0 + length lists |}
             ident html N C).
    simpl. destruct lists; [congruence|simpl; lia].
Qed.

End WorkerLeaving.

Lemma worker_pages_nonempty net extract username c p lists :
  Spec.worker_pages net extract username c p lists -> lists <> [] ->
  concat lists <> [].
Proof.
  intros W Hne. destruct W as [|c p ident html ms rest _ _ _ M _];
    [congruence|].
  simpl. destruct ms; [congruence|discriminate].
Qed.

Lemma api_pages_nonempty net extract username c p lists :
  Spec.api_pages net extract username c p lists -> lists <> [] ->
  concat lists <> [].
Proof.
  intros W Hne. destruct W as [|c p html ms rest _ _ _ M _]; [congruence|].
  simpl. destruct ms; [congruence|discriminate].
Qed.

Lemma length_eqb_nonempty (A : Type) (l : list A) :
  l <> [] -> (length l =? 0) = false.
Proof. destruct l; [congruence|reflexivity]. Qed.

Section ApiLeaving.
Import JS Spec Api.

Variable net : nat -> jsstring -> fetch_outcome.
Variable extract : jsstring -> result (list Movie).
Variable username : jsstring.

Let body := loop_body net extract username.

Lemma api_loop_body_leaves st l :
  body st = Leave l ->
  (l = Diverge /\ exists html, extract html = OutOfFuel)
  \/ (exists r, l = Return r /\ (status r = 404 \/ status r = 503)%Z).
Proof.
  unfold body, loop_body.
  destruct (net (calls st) (Worker.page_url username (page st))) as [|html].
  - destruct (page st =? 1); intro H; inversion H; subst.
    right. eexists. split; [reflexivity|]. left. reflexivity.
  - destruct (Worker.challenge html).
    + destruct (page st =? 1); intro H; inversion H; subst.
      right. eexists. split; [reflexivity|]. right. reflexivity.
    + destruct (extract html) as [ms|msg|] eqn:E.
      * destruct (length ms =? 0); discriminate.
      * destruct (page st =? 1); intro H; inversion H; subst.
        right. eexists. split; [reflexivity|]. left. reflexivity.
      * intro H. inversion H; subst. left. eauto.
Qed.

Lemma api_loop_body_next st st' :
  body st = Next st' ->
  allMovies st' = allMovies st \/
  exists html ms, extract html = Ok ms /\ allMovies st' = allMovies st ++ ms.
Proof.
  unfold body, loop_body.
  destruct (net (calls st) (Worker.page_url username (page st))) as [|html].
  - destruct (page st =? 1); intro H; inversion H; subst. now left.
  - destruct (Worker.challenge html).
    + destruct (page st =? 1); intro H; inversion H; subst. now left.
    + destruct (extract html) as [ms|msg|] eqn:E.
      * destruct (length ms =? 0); intro H; inversion H; subst.
        -- now left.
        -- right. eauto.
      * destruct (page st =? 1); intro H; inversion H; subst. now left.
      * discriminate.
Qed.

Lemma api_scrape_concat fuel n st :
  scrape net extract username fuel = Some (n, Next st) ->
  exists lists,
    allMovies st = concat lists /\
    Forall (fun ms => exists html, extract html = Ok ms) lists.
Proof.
  unfold scrape. intro H.
  apply (while_invariant _ _ loop_cond body
           (fun st => exists lists,
                allMovies st = concat lists /\
                Forall (fun ms => exists html, extract html = Ok ms) lists))
    in H.
  - apply H.
  - intros s s' _ [lists [E F]] B.
    destruct (api_loop_body_next _ _ B) as [E'|[html [ms [Ex E']]]].
    + exists lists. split; [congruence|assumption].
    + exists (lists ++ [ms]). split.
      * rewrite concat_app, E', E. simpl. now rewrite app_nil_r.
      * apply Forall_app. split; [assumption|]. constructor; eauto.
  - exists []. split; [reflexivity|constructor].
Qed.

Lemma api_scrape_challenge_first fuel html :
  0 < fuel ->
  net 0 (Worker.page_url username 1) = Resolved html ->
  challenge_page html ->
  exists r, scrape net extract username fuel = Some (1, Leave (Return r)) /\
            challenge_response r.
Proof.
  intros Hf N C. apply challenge_spec in C.
  destruct fuel as [|fuel]; [lia|].
  destruct (api_loop_body_challenge_first net extract username
              {| allMovies := []; page := 1; hasMore := true; calls := 0 |}
              html N C eq_refl) as [r [B Cr]].
  exists r. split; [|assumption].
  unfold scrape. apply while_leave; [reflexivity|exact B].
Qed.

Lemma api_scrape_challenge_later fuel lists html :
  api_pages net extract username 0 1 lists ->
  lists <> [] -> length lists < 20 -> length lists < fuel ->
  net (length lists) (Worker.page_url username (S (length lists)))
  = Resolved html ->
  challenge_page html ->
  scrape net extract username fuel
  = Some (S (length lists),
          Next {| allMovies := concat lists; page := S (length lists);
                  hasMore := false; calls := S (length lists) |}).
Proof.
  intros W Hne Hc Hf N C. apply challenge_spec in C.
  unfold scrape.
  replace fuel with (length lists + S (fuel - length lists - 1)) by lia.
  rewrite (api_prefix net extract username lists 0 1 []
             (S (fuel - length lists - 1)) 0 W) by lia.
  simpl app. simpl plus.
  rewrite (while_next _ _ loop_cond body _ _ _
             {| allMovies := concat lists; page := S (length lists);
                hasMore := false; calls := S (length lists) |}).
  - apply while_exit. reflexivity.
  - unfold loop_cond. cbn [hasMore page andb]. apply Nat.leb_le. lia.
  - apply (api_loop_body_challenge_later net extract username
             {| allMovies := concat lists; page := S (length lists);
                hasMore := true; calls := length lists |}
             html N C).
    simpl. destruct lists; [congruence|simpl; lia].
Qed.

End ApiLeaving.

(** * The handlers *)

Section Handlers.
Import JS Spec.

Lemma worker_scrape_leaves cap net username fuel calls0 n l :
  Worker.scrape cap net Worker.parseMovies username fuel calls0
  = Some (n, Leave l) ->
  (exists msg k url, l = Worker.Raise msg /\ net k url = Worker.FetchError msg)
  \/ (exists r, l = Worker.Return r /\ (status r = 404 \/ status r = 503)%Z).
Proof.
  unfold Worker.scrape. intro H.
  apply while_leave_inv in H. destruct H as [st [_ B]].
  destruct (loop_body_leaves net Worker.parseMovies username st l B)
    as [[msg [-> [[url N]|[html E]]]]|[[-> [html E]]|R]].
  - left. eauto 6.
  - destruct (worker_parse_total html) as [ms [E' _]]. congruence.
  - destruct (worker_parse_total html) as [ms [E' _]]. congruence.
  - now right.
Qed.

Lemma api_scrape_leaves net username fuel n l :
  Api.scrape net Api.parseMovies username fuel = Some (n, Leave l) ->
  exists r, l = Api.Return r /\ (status r = 404 \/ status r = 503)%Z.
Proof.
  unfold Api.scrape. intro H.
  apply while_leave_inv in H. destruct H as [st [_ B]].
  destruct (api_loop_body_leaves net Api.parseMovies username st l B)
    as [[-> [html E]]|R]; [|assumption].
  destruct (api_parse_total html) as [ms [E' _]]. congruence.
Qed.

Lemma worker_handler_run fuel net rnd req username :
  String.eqb (req_method req) "OPTIONS" = false ->
  first_truthy (q_username req) (q_user req) = Some username ->
  Worker.handleWatchlistAPI fuel net rnd req
  = match Worker.scrape 20 net Worker.parseMovies username fuel 0 with
    | None => OutOfFuel
    | Some (_, Leave (Worker.Return r)) => Ok r
    | Some (_, Leave (Worker.Raise msg)) => Ok (Worker.failure msg)
    | Some (_, Leave Worker.Diverge) => OutOfFuel
    | Some (_, Next st) =>
        if length (Worker.allMovies st) =? 0 then Ok Worker.empty_watchlist
        else if wants_random req
             then Ok (Worker.random_pick rnd (Worker.allMovies st))
             else Ok (Worker.full_list (Worker.allMovies st))
    end.
Proof.
  intros Hm Hu. unfold Worker.handleWatchlistAPI. now rewrite Hm, Hu.
Qed.

Lemma api_handler_run fuel net rnd req username :
  String.eqb (req_method req) "OPTIONS" = false ->
  first_truthy (q_username req) (q_user req) = Some username ->
  Api.handler fuel net rnd req
  = match Api.scrape net Api.parseMovies username fuel with
    | None => OutOfFuel
    | Some (_, Leave (Api.Return r)) => Ok r
    | Some (_, Leave Api.Diverge) => OutOfFuel
    | Some (_, Next st) =>
        if length (Api.allMovies st) =? 0 then Ok Worker.empty_watchlist
        else if wants_random req
             then Ok (Api.random_pick rnd (Api.allMovies st))
             else Ok (Api.full_list (Api.allMovies st))
    end.
Proof.
  intros Hm Hu. unfold Api.handler. now rewrite Hm, Hu.
Qed.

(** The handlers always answer. *)
Lemma worker_handler_total fuel net rnd req :
  20 <= fuel -> exists r, Worker.handleWatchlistAPI fuel net rnd req = Ok r.
Proof.
  intro Hf. unfold Worker.handleWatchlistAPI.
  destruct (String.eqb (req_method req) "OPTIONS"); [eauto|].
  destruct (first_truthy (q_username req) (q_user req)) as [username|];
    [|eauto].
  destruct (scrape_bounded 20 net Worker.parseMovies username fuel 0 Hf)
    as [n [e [E _]]].
  rewrite E. destruct e as [st|l].
  - destruct (length (Worker.allMovies st) =? 0); [eauto|].
    destruct (wants_random req); eauto.
  - destruct (worker_scrape_leaves _ _ _ _ _ _ _ E)
      as [[msg [k [url [-> _]]]]|[r [-> _]]]; eauto.
Qed.

Lemma fallback_scrape_total fuel net calls0 username :
  10 <= fuel ->
  exists r, Fallback.fallbackScrape fuel net calls0 username = Ok r.
Proof.
  intro Hf. unfold Fallback.fallbackScrape.
  destruct (scrape_bounded 10 net Worker.parseMovies username fuel calls0 Hf)
    as [n [e [E _]]].
  rewrite E. destruct e as [st|l].
  - destruct (length (Worker.allMovies st) =? 0); eauto.
  - destruct (worker_scrape_leaves _ _ _ _ _ _ _ E)
      as [[msg [k [url [-> _]]]]|[r [-> _]]]; eauto.
Qed.

Lemma api_handler_total fuel net rnd req :
  20 <= fuel -> exists r, Api.handler fuel net rnd req = Ok r.
Proof.
  intro Hf. unfold Api.handler.
  destruct (String.eqb (req_method req) "OPTIONS"); [eauto|].
  destruct (first_truthy (q_username req) (q_user req)) as [username|];
    [|eauto].
  destruct (api_scrape_bounded net Api.parseMovies username fuel Hf)
    as [n [e [E _]]].
  rewrite E. destruct e as [st|l].
  - destruct (length (Api.allMovies st) =? 0); [eauto|].
    destruct (wants_random req); eauto.
  - destruct (api_scrape_leaves _ _ _ _ _ E) as [r [-> _]]. eauto.
Qed.



End Handlers.

(** * The claims about the handlers *)

Section HandlerClaims.
Import JS Spec Examples.

Lemma worker_challenge_first fuel net rnd req username ident html :
  String.eqb (req_method req) "OPTIONS" = false ->
  first_truthy (q_username req) (q_user req) = Some username ->
  0 < fuel ->
  net 0 (Worker.page_url username 1) = Worker.Response true ident html ->
  challenge_page html ->
  exists r, Worker.handleWatchlistAPI fuel net rnd req = Ok r /\
            challenge_response r.
Proof.
  intros Hm Hu Hf N C.
  rewrite (worker_handler_run fuel net rnd req username Hm Hu).
  destruct (scrape_challenge_first 20 net Worker.parseMovies username fuel 0
              ident html Hf ltac:(lia) N C) as [r [E Cr]].
  rewrite E. eauto.
Qed.

Lemma fallback_challenge_first fuel net calls0 username ident html :
  0 < fuel ->
  net calls0 (Worker.page_url username 1) = Worker.Response true ident html ->
  challenge_page html ->
  exists r, Fallback.fallbackScrape fuel net calls0 username = Ok r /\
            challenge_response r.
Proof.
  intros Hf N C. unfold Fallback.fallbackScrape.
  destruct (scrape_challenge_first 10 net Worker.parseMovies username fuel
              calls0 ident html Hf ltac:(lia) N C) as [r [E Cr]].
  rewrite E. eauto.
Qed.

Lemma api_challenge_first fuel net rnd req username html :
  String.eqb (req_method req) "OPTIONS" = false ->
  first_truthy (q_username req) (q_user req) = Some username ->
  0 < fuel ->
  net 0 (Worker.page_url username 1) = Api.Resolved html ->
  challenge_page html ->
  exists r, Api.handler fuel net rnd req = Ok r /\ challenge_response r.
Proof.
  intros Hm Hu Hf N C.
  rewrite (api_handler_run fuel net rnd req username Hm Hu).
  destruct (api_scrape_challenge_first net Api.parseMovies username fuel
              html Hf N C) as [r [E Cr]].
  rewrite E. eauto.
Qed.

Lemma worker_challenge_later fuel net rnd req username lists ident html :
  String.eqb (req_method req) "OPTIONS" = false ->
  first_truthy (q_username req) (q_user req) = Some username ->
  worker_pages net Worker.parseMovies username 0 1 lists ->
  lists <> [] -> length lists < 20 -> length lists < fuel ->
  net (length lists) (Worker.page_url username (S (length lists)))
  = Worker.Response true ident html ->
  challenge_page html ->
  Worker.handleWatchlistAPI fuel net rnd req
  = Ok (if wants_random req then Worker.random_pick rnd (concat lists)
        else Worker.full_list (concat lists)).
Proof.
  intros Hm Hu W Hne Hc Hf N C.
  rewrite (worker_handler_run fuel net rnd req username Hm Hu).
  rewrite (scrape_challenge_later 20 net Worker.parseMovies username fuel 0
             lists ident html W Hne Hc Hf N C).
  cbn [Worker.allMovies].
  rewrite (length_eqb_nonempty _ _ (worker_pages_nonempty _ _ _ _ _ _ W Hne)).
  destruct (wants_random req); reflexivity.
Qed.

Lemma fallback_challenge_later fuel net calls0 username lists ident html :
  worker_pages net Worker.parseMovies username calls0 1 lists ->
  lists <> [] -> length lists < 10 -> length lists < fuel ->
  net (calls0 + length lists) (Worker.page_url username (S (length lists)))
  = Worker.Response true ident html ->
  challenge_page html ->
  Fallback.fallbackScrape fuel net calls0 username
  = Ok (Worker.full_list (concat lists)).
Proof.
  intros W Hne Hc Hf N C. unfold Fallback.fallbackScrape.
  rewrite (scrape_challenge_later 10 net Worker.parseMovies username fuel
             calls0 lists ident html W Hne Hc Hf N C).
  cbn [Worker.allMovies].
  now rewrite (length_eqb_nonempty _ _
                 (worker_pages_nonempty _ _ _ _ _ _ W Hne)).
Qed.

Lemma api_challenge_later fuel net rnd req username lists html :
  String.eqb (req_method req) "OPTIONS" = false ->
  first_truthy (q_username req) (q_user req) = Some username ->
  api_pages net Api.parseMovies username 0 1 lists ->
  lists <> [] -> length lists < 20 -> length lists < fuel ->
  net (length lists) (Worker.page_url username (S (length lists)))
  = Api.Resolved html ->
  challenge_page html ->
  Api.handler fuel net rnd req
  = Ok (if wants_random req then Api.random_pick rnd (concat lists)
        else Api.full_list (concat lists)).
Proof.
  intros Hm Hu W Hne Hc Hf N C.
  rewrite (api_handler_run fuel net rnd req username Hm Hu).
  rewrite (api_scrape_challenge_later net Api.parseMovies username fuel
             lists html W Hne Hc Hf N C).
  cbn [Api.allMovies].
  rewrite (length_eqb_nonempty _ _ (api_pages_nonempty _ _ _ _ _ _ W Hne)).
  destruct (wants_random req); reflexivity.
Qed.

(** C6: when the body of the first page holds one of the two challenge
    markers, the handler answers 503 with a JSON body whose [cloudflare]
    field is [true]; when the pages before it were good ones and the body
    of a later page holds a marker, the loop ends there and the answer is
    made from the records collected on the pages before.  This holds for
    the first worker, for the fallback of the second worker and for the
    serverless function. *)
Theorem C6_bot_challenge :
  (forall fuel net rnd req username ident html,
      String.eqb (req_method req) "OPTIONS" = false ->
      first_truthy (q_username req) (q_user req) = Some username ->
      0 < fuel ->
      net 0 (Worker.page_url username 1) = Worker.Response true ident html ->
      challenge_page html ->
      exists r, Worker.handleWatchlistAPI fuel net rnd req = Ok r /\
                challenge_response r) /\
  (forall fuel net calls0 username ident html,
      0 < fuel ->
      net calls0 (Worker.page_url username 1)
      = Worker.Response true ident html ->
      challenge_page html ->
      exists r, Fallback.fallbackScrape fuel net calls0 username = Ok r /\
                challenge_response r) /\
  (forall fuel net rnd req username html,
      String.eqb (req_method req) "OPTIONS" = false ->
      first_truthy (q_username req) (q_user req) = Some username ->
      0 < fuel ->
      net 0 (Worker.page_url username 1) = Api.Resolved html ->
      challenge_page html ->
      exists r, Api.handler fuel net rnd req = Ok r /\ challenge_response r) /\
  (forall fuel net rnd req username lists ident html,
      String.eqb (req_method req) "OPTIONS" = false ->
      first_truthy (q_username req) (q_user req) = Some username ->
      worker_pages net Worker.parseMovies username 0 1 lists ->
      lists <> [] -> length lists < 20 -> length lists < fuel ->
      net (length lists) (Worker.page_url username (S (length lists)))
      = Worker.Response true ident html ->
      challenge_page html ->
      Worker.handleWatchlistAPI fuel net rnd req
      = Ok (if wants_random req then Worker.random_pick rnd (concat lists)
            else Worker.full_list (concat lists))) /\
  (forall fuel net calls0 username lists ident html,
      worker_pages net Worker.parseMovies username calls0 1 lists ->
      lists <> [] -> length lists < 10 -> length lists < fuel ->
      net (calls0 + length lists)
        (Worker.page_url username (S (length lists)))
      = Worker.Response true ident html ->
      challenge_page html ->
      Fallback.fallbackScrape fuel net calls0 username
      = Ok (Worker.full_list (concat lists))) /\
  (forall fuel net rnd req username lists html,
      String.eqb (req_method req) "OPTIONS" = false ->
      first_truthy (q_username req) (q_user req) = Some username ->
      api_pages net Api.parseMovies username 0 1 lists ->
      lists <> [] -> length lists < 20 -> length lists < fuel ->
      net (length lists) (Worker.page_url username (S (length lists)))
      = Api.Resolved html ->
      challenge_page html ->
      Api.handler fuel net rnd req
      = Ok (if wants_random req then Api.random_pick rnd (concat lists)
            else Api.full_list (concat lists))).
Proof.
  split; [exact worker_challenge_first|].
  split; [exact fallback_challenge_first|].
  split; [exact api_challenge_first|].
  split; [exact worker_challenge_later|].
  split; [exact fallback_challenge_later|exact api_challenge_later].
Qed.

Lemma challenge_body_marked : challenge_page challenge_body.
Proof. right. apply includes_spec. vm_compute. reflexivity. Qed.

Lemma C6_witness :
  (exists r, Worker.handleWatchlistAPI 20 (serve [challenge_body]) zero
               (get_request None) = Ok r /\ challenge_response r) /\
  Worker.handleWatchlistAPI 20 (serve [named_page; challenge_body]) zero
    (get_request None)
  = Ok (Worker.full_list (concat [[dune_movie]])).
Proof.
  split.
  - apply (proj1 C6_bot_challenge 20 (serve [challenge_body]) zero
             (get_request None) (lit "bob") None challenge_body).
    + reflexivity.
    + reflexivity.
    + lia.
    + reflexivity.
    + exact challenge_body_marked.
  - apply (proj1 (proj2 (proj2 (proj2 C6_bot_challenge))) 20
             (serve [named_page; challenge_body]) zero (get_request None)
             (lit "bob") [[dune_movie]] None challenge_body).
    + reflexivity.
    + reflexivity.
    + eapply wp_cons with (html := named_page).
      * reflexivity.
      * vm_compute. reflexivity.
      * vm_compute. reflexivity.
      * discriminate.
      * constructor.
    + discriminate.
    + simpl. lia.
    + simpl. lia.
    + reflexivity.
    + exact challenge_body_marked.
Defined.

(** C7 fails on the fallback of the second worker: with [random=true], no
    identifier header on the watchlist page and one film on the first page,
    the answer is the whole list under [movies], and has no [movie]. *)
Theorem C7_fallback_ignores_random : forall decode rnd,
  wants_random (get_request (Some (lit "true"))) = true /\
  Fallback.handleWatchlistAPI decode 10 (serve [[]; named_page]) rnd
    (get_request (Some (lit "true")))
  = Ok (Worker.full_list [dune_movie]) /\
  get "movie" (JObj [("movies"%string, JArr [Worker.movie_json dune_movie]);
                     ("total"%string, JNum 1)]) = None /\
  body (Worker.full_list [dune_movie])
  = Some (JObj [("movies"%string, JArr [Worker.movie_json dune_movie]);
                ("total"%string, JNum 1)]).
Proof.
  intros decode rnd. repeat split; vm_compute; reflexivity.
Qed.

(** C8: whatever the network and the extractor do, the loop of the workers
    makes at most as many turns as its cap, 20 in the first worker and 10
    in the fallback of the second, the loop of the serverless function
    makes at most 20 turns, and the handlers answer. *)
Theorem C8_page_cap :
  (forall cap net extract username fuel calls0,
      cap <= fuel ->
      exists n e,
        Worker.scrape cap net extract username fuel calls0 = Some (n, e) /\
        n <= cap) /\
  (forall net extract username fuel,
      20 <= fuel ->
      exists n e, Api.scrape net extract username fuel = Some (n, e) /\
                  n <= 20) /\
  (forall fuel net rnd req,
      20 <= fuel ->
      exists r, Worker.handleWatchlistAPI fuel net rnd req = Ok r) /\
  (forall fuel net calls0 username,
      10 <= fuel ->
      exists r, Fallback.fallbackScrape fuel net calls0 username = Ok r) /\
  (forall fuel net rnd req,
      20 <= fuel -> exists r, Api.handler fuel net rnd req = Ok r).
Proof.
  split; [exact scrape_bounded|].
  split; [exact api_scrape_bounded|].
  split; [exact worker_handler_total|].
  split; [exact fallback_scrape_total|exact api_handler_total].
Qed.

(** A network whose every page is good, and an extractor that finds a
    record on every page. *)
Lemma C8_witness :
  (exists n e,
      Worker.scrape 20 (serve []) (fun _ => Ok [dune_movie]) (lit "bob") 20 0
      = Some (n, e) /\ n <= 20) /\
  (exists r, Fallback.fallbackScrape 10 (serve []) 0 (lit "bob") = Ok r).
Proof.
  split.
  - apply (proj1 C8_page_cap 20 (serve []) (fun _ => Ok [dune_movie])
             (lit "bob") 20 0). lia.
  - apply (proj1 (proj2 (proj2 (proj2 C8_page_cap))) 10 (serve []) 0
             (lit "bob")). lia.
Defined.

End HandlerClaims.

(** * The pages behind an answer *)

Section PagesOfARun.
Import JS Spec Props Worker.

Variable cap : nat.
Variable net : nat -> jsstring -> fetch_outcome.
Variable extract : jsstring -> result (list Movie).
Variable username : jsstring.




End PagesOfARun.

Section ApiPagesOfARun.
Import JS Spec Props Api.

Variable net : nat -> jsstring -> fetch_outcome.
Variable extract : jsstring -> result (list Movie).
Variable username : jsstring.
Hypothesis extract_no_throw : forall html msg, extract html <> Throw msg.




End ApiPagesOfARun.

Section AnswersFromPages.
Import JS Spec Props.








End AnswersFromPages.

Section AggregateClaims.
Import JS Spec Examples.




Lemma worker_failure_from_fetch fuel net rnd req r :
  Worker.handleWatchlistAPI fuel net rnd req = Ok r -> status r = 500%Z ->
  exists k url msg, net k url = Worker.FetchError msg.
Proof.
  intros H Hs. unfold Worker.handleWatchlistAPI in H.
  destruct (String.eqb (req_method req) "OPTIONS").
  { inversion H; subst. discriminate. }
  destruct (first_truthy (q_username req) (q_user req)) as [username|].
  2:{ inversion H; subst. discriminate. }
  destruct (Worker.scrape 20 net Worker.parseMovies username fuel 0)
    as [[n [st|l]]|] eqn:E; [| |discriminate].
  - destruct (length (Worker.allMovies st) =? 0).
    + inversion H; subst. discriminate.
    + destruct (wants_random req); inversion H; subst; discriminate.
  - destruct (worker_scrape_leaves _ _ _ _ _ _ _ E)
      as [[msg [k [url [-> N]]]]|[r' [-> Hst]]].
    + eauto.
    + inversion H; subst. lia.
Qed.

Lemma fallback_failure_from_fetch fuel net calls0 username r :
  Fallback.fallbackScrape fuel net calls0 username = Ok r ->
  status r = 500%Z ->
  exists k url msg, net k url = Worker.FetchError msg.
Proof.
  intros H Hs. unfold Fallback.fallbackScrape in H.
  destruct (Worker.scrape 10 net Worker.parseMovies username fuel calls0)
    as [[n [st|l]]|] eqn:E; [| |discriminate].
  - destruct (length (Worker.allMovies st) =? 0);
      inversion H; subst; discriminate.
  - destruct (worker_scrape_leaves _ _ _ _ _ _ _ E)
      as [[msg [k [url [-> N]]]]|[r' [-> Hst]]].
    + eauto.
    + inversion H; subst. lia.
Qed.

Lemma api_never_fails fuel net rnd req r :
  Api.handler fuel net rnd req = Ok r -> status r <> 500%Z.
Proof.
  intros H. unfold Api.handler in H.
  destruct (String.eqb (req_method req) "OPTIONS").
  { inversion H; subst. discriminate. }
  destruct (first_truthy (q_username req) (q_user req)) as [username|].
  2:{ inversion H; subst. discriminate. }
  destruct (Api.scrape net Api.parseMovies username fuel)
    as [[n [st|l]]|] eqn:E; [| |discriminate].
  - destruct (length (Api.allMovies st) =? 0).
    + inversion H; subst. discriminate.
    + destruct (wants_random req); inversion H; subst; discriminate.
  - destruct (api_scrape_leaves _ _ _ _ _ E) as [r' [-> Hst]].
    inversion H; subst. lia.
Qed.

(** C10: on every string the extractor of the workers and the extractor of
    the serverless function return a list of records, without exception,
    and with any fuel from the length of the input on; so a 500 answer of
    the first worker or of the fallback of the second comes from a failed
    fetch, and the serverless function, whose inner handler catches what
    the loop body throws, has no 500 answer from its loop. *)
Theorem C10_extractor_total :
  (forall html, exists movies,
      Worker.parseMovies html = Ok movies /\
      forall fuel, length html <= fuel ->
                   Worker.parseMovies_fuel fuel html = Ok movies) /\
  (forall html, exists movies,
      Api.parseMovies html = Ok movies /\
      forall fuel, length html <= fuel ->
                   Api.parseMovies_fuel fuel html = Ok movies) /\
  (forall fuel net rnd req r,
      Worker.handleWatchlistAPI fuel net rnd req = Ok r ->
      status r = 500%Z ->
      exists k url msg, net k url = Worker.FetchError msg) /\
  (forall fuel net calls0 username r,
      Fallback.fallbackScrape fuel net calls0 username = Ok r ->
      status r = 500%Z ->
      exists k url msg, net k url = Worker.FetchError msg) /\
  (forall fuel net rnd req r,
      Api.handler fuel net rnd req = Ok r -> status r <> 500%Z).
Proof.
  split; [|split; [|split; [|split]]].
  - intro html. destruct (worker_parse_total html) as [movies [E _]].
    exists movies. split; [exact E|].
    intros fuel Hf. now apply worker_parse_more_fuel.
  - intro html. destruct (api_parse_total html) as [movies [E _]].
    exists movies. split; [exact E|].
    intros fuel Hf. now apply api_parse_more_fuel.
  - exact worker_failure_from_fetch.
  - exact fallback_failure_from_fetch.
  - exact api_never_fails.
Qed.

Lemma C10_witness :
  exists k url msg,
    (fun (_ : nat) (_ : jsstring) => Worker.FetchError "network down") k url
    = Worker.FetchError msg.
Proof.
  apply (proj1 (proj2 (proj2 C10_extractor_total)) 20
           (fun _ _ => Worker.FetchError "network down") zero
           (get_request None) (Worker.failure "network down")).
  - vm_compute. reflexivity.
  - reflexivity.
Defined.

End AggregateClaims.

(** * Further properties of the extractors *)

Section ExtractorProperties.
Import JS Spec Props Examples.

Lemma scan_empty_iff P s vs : scan P s vs -> (vs = [] <-> none_of P s).
Proof.
  intro S. destruct S as [s N|s pre tok v post vs [E [Pv _]] S'].
  - tauto.
  - split; [discriminate|]. intro N. exfalso. exact (N _ _ _ _ E Pv).
Qed.

Lemma quoted_slug_like key html pre tok post v :
  html = pre ++ tok ++ post -> quoted key v tok -> slug_like html (Str v).
Proof.
  intros E Q. destruct (quoted_page_string _ _ _ _ _ _ E Q) as [s [Es C]].
  injection Es as <-. destruct Q as [_ [Hne Hq]].
  exists v. auto.
Qed.

Lemma film_link_slug_like html pre tok post v :
  html = pre ++ tok ++ post -> film_link tok v -> slug_like html (Str v).
Proof.
  intros E Q. destruct (film_link_page_string _ _ _ _ _ E Q) as [s [Es C]].
  injection Es as <-. destruct Q as [_ [Hne [_ Hq]]].
  exists v. auto.
Qed.

Lemma successive_slug_like p html l :
  (forall pre tok post caps,
      html = pre ++ tok ++ post -> matches p tok caps ->
      slug_like html (cap1 caps)) ->
  successive p html l ->
  Forall (slug_like html) (map cap1 l).
Proof.
  intros Hp S. apply successive_occurs in S.
  apply Forall_map. eapply Forall_impl; [|exact S].
  intros c [pre [tok [post [E M]]]]. eapply Hp; eassumption.
Qed.

Lemma worker_seen_slug_like html seen :
  Worker.collect_slugs (length html) html = Ok seen ->
  Forall (slug_like html) seen.
Proof.
  intro E.
  destruct (worker_collect_slugs_spec html (length html) (le_n _))
    as [l1 [l2 [l3 [seen' [S1 [S2 [S3 [E' [_ [I _]]]]]]]]]].
  rewrite E in E'. injection E' as <-.
  assert (P1 : Forall (slug_like html) (map cap1 l1)).
  { apply (successive_slug_like Worker.slugPattern1); [|assumption].
    intros pre tok post caps Es M. apply slugPattern1_shape in M.
    destruct M as [v [Q ->]]. eapply quoted_slug_like; eassumption. }
  assert (P2 : Forall (slug_like html) (map cap1 l2)).
  { apply (successive_slug_like Worker.slugPattern2); [|assumption].
    intros pre tok post caps Es M. apply slugPattern2_shape in M.
    destruct M as [v [Q ->]]. eapply quoted_slug_like; eassumption. }
  assert (P3 : Forall (slug_like html) (map cap1 l3)).
  { apply (successive_slug_like Worker.slugPattern3); [|assumption].
    intros pre tok post caps Es M. apply slugPattern3_shape in M.
    destruct M as [v [Q ->]]. eapply film_link_slug_like; eassumption. }
  apply Forall_forall. intros v Hv. apply I in Hv.
  rewrite !map_app, !in_app_iff in Hv.
  rewrite Forall_forall in P1, P2, P3.
  destruct Hv as [Hv|[Hv|Hv]]; auto.
Qed.

Lemma api_seen_slug_like html seen :
  Api.collect_slugs (length html) html = Ok seen ->
  Forall (slug_like html) seen.
Proof.
  intro E.
  destruct (api_collect_slugs_spec html (length html) (le_n _))
    as [l [seen' [S [E' [_ [I _]]]]]].
  rewrite E in E'. injection E' as <-.
  assert (P : Forall (slug_like html) (map cap1 l)).
  { apply (successive_slug_like Api.slugPattern); [|assumption].
    intros pre tok post caps Es M. apply api_slugPattern_shape in M.
    destruct M as [v [[Q|Q] ->]]; eapply quoted_slug_like; eassumption. }
  apply Forall_forall. intros v Hv. apply I in Hv.
  rewrite Forall_forall in P. auto.
Qed.

Lemma Forall2_right (A B : Type) (R : A -> B -> Prop) (P : A -> Prop)
  (Q : B -> Prop) l l' :
  (forall a b, P a -> R a b -> Q b) ->
  Forall P l -> Forall2 R l l' -> Forall Q l'.
Proof.
  intros H F R2. induction R2 as [|a b l l' Rab _ IH]; constructor.
  - inversion F; subst. eauto.
  - apply IH. now inversion F.
Qed.

(** X1: every record of either extractor has a slug that is a non-empty
    string of the page without double quote, and a link that is the site's
    film address of that slug. *)
Theorem X1_slug_and_link : forall html,
  (exists movies,
      Worker.parseMovies html = Ok movies /\
      Forall (fun m => exists s,
                  Worker.slug m = Str s /\ s <> [] /\ ~ In dq s /\
                  contains html s /\
                  Worker.link m
                  = lit "https://letterboxd.com/film/" ++ s ++ lit "/")
        movies) /\
  (exists movies,
      Api.parseMovies html = Ok movies /\
      Forall (fun m => exists s,
                  Api.slug m = Str s /\ s <> [] /\ ~ In dq s /\
                  contains html s /\
                  Api.link m
                  = lit "https://letterboxd.com/film/" ++ s ++ lit "/")
        movies).
Proof.
  intro html. split.
  - destruct (worker_parseMovies_spec html (length html) (le_n _))
      as [l1 [l2 [l3 [seen [movies [_ [_ [_ [E [_ [_ [R P]]]]]]]]]]]].
    exists movies. split; [exact P|].
    eapply Forall2_right;
      [|exact (worker_seen_slug_like html seen E)|exact R].
    intros v m [s [-> [Hne [Hq C]]]]
           [s' [k [t [y [Es [_ [Em [_ [_ [_ [_ [_ El]]]]]]]]]]]].
    injection Es as <-. exists s. auto.
  - destruct (api_parseMovies_spec html (length html) (le_n _))
      as [l [seen [movies [_ [E [_ [_ [R P]]]]]]]].
    exists movies. split; [exact P|].
    eapply Forall2_right;
      [|exact (api_seen_slug_like html seen E)|exact R].
    intros v m [s [-> [Hne [Hq C]]]]
           [s' [k [t [p [Es [_ [Em [_ [_ [_ [_ El]]]]]]]]]]].
    injection Es as <-. exists s. auto.
Qed.

Lemma Forall2_nil_iff (A B : Type) (R : A -> B -> Prop) l l' :
  Forall2 R l l' -> (l = [] <-> l' = []).
Proof. intro F. destruct F; split; congruence. Qed.

Lemma in_nil_iff (A : Type) (l l' : list A) :
  (forall v, In v l <-> In v l') -> (l = [] <-> l' = []).
Proof.
  intro I. split; intros ->.
  - destruct l' as [|x l']; [reflexivity|].
    exfalso. apply (I x). now left.
  - destruct l as [|x l]; [reflexivity|].
    exfalso. apply (I x). now left.
Qed.

Lemma no_record_iff_no_identifier : forall html,
  (Worker.parseMovies html = Ok [] <->
   none_of film_slug_attr html /\ none_of item_slug_attr html /\
   none_of film_link html) /\
  (Api.parseMovies html = Ok [] <-> none_of slug_attr html).
Proof.
  intro html. split.
  - destruct (worker_parseMovies_spec html (length html) (le_n _))
      as [l1 [l2 [l3 [seen [movies [S1 [S2 [S3 [E [_ [I [R P]]]]]]]]]]]].
    destruct (successive_scan _ _ slugPattern1_shape _ _ S1) as [vs1 [C1 M1]].
    destruct (successive_scan _ _ slugPattern2_shape _ _ S2) as [vs2 [C2 M2]].
    destruct (successive_scan _ _ slugPattern3_shape _ _ S3) as [vs3 [C3 M3]].
    unfold Worker.parseMovies. rewrite P.
    rewrite <- (scan_empty_iff _ _ _ C1), <- (scan_empty_iff _ _ _ C2),
            <- (scan_empty_iff _ _ _ C3).
    pose proof (Forall2_nil_iff _ _ _ _ _ R) as Hn.
    pose proof (in_nil_iff _ _ _ I) as Hi.
    rewrite !map_app, M1, M2, M3, <- !map_app in Hi.
    assert (Hm : map Str (vs1 ++ vs2 ++ vs3) = [] <->
                 vs1 = [] /\ vs2 = [] /\ vs3 = []).
    { destruct vs1, vs2, vs3; simpl; split; intro H;
        try discriminate; try tauto;
        destruct H as [? [? ?]]; discriminate. }
    split.
    + intro H. injection H as H. tauto.
    + intro H. f_equal. tauto.
  - destruct (api_parseMovies_spec html (length html) (le_n _))
      as [l [seen [movies [S [E [_ [I [R P]]]]]]]].
    destruct (successive_scan _ _ slug_attr_shape _ _ S) as [vs [C M]].
    unfold Api.parseMovies. rewrite P.
    rewrite <- (scan_empty_iff _ _ _ C).
    pose proof (Forall2_nil_iff _ _ _ _ _ R) as Hn.
    pose proof (in_nil_iff _ _ _ I) as Hi.
    rewrite M in Hi.
    assert (Hm : map Str vs = [] <-> vs = []).
    { destruct vs; simpl; split; intro H; try discriminate; tauto. }
    split.
    + intro H. injection H as H. tauto.
    + intro H. f_equal. tauto.
Qed.

(** X2: the extractor of the workers returns no record exactly when the
    page has no [data-film-slug] attribute, no [data-item-slug] attribute
    and no link to a film; the extractor of the serverless function,
    exactly when the page has neither attribute. *)
Theorem X2_no_record_iff_no_identifier : forall html,
  (Worker.parseMovies html = Ok [] <->
   none_of film_slug_attr html /\ none_of item_slug_attr html /\
   none_of film_link html) /\
  (Api.parseMovies html = Ok [] <-> none_of slug_attr html).
Proof. exact no_record_iff_no_identifier. Qed.

End ExtractorProperties.

Section OrderAndTitle.
Import JS Spec Props Examples.

Lemma nodup_app_in (x : value) B : forall A,
  In x B ->
  nodup value_eq_dec (A ++ x :: B) = nodup value_eq_dec (A ++ B).
Proof.
  induction A as [|a A IH]; intro H; simpl.
  - destruct (in_dec value_eq_dec x B); [reflexivity|contradiction].
  - rewrite (IH H).
    destruct (in_dec value_eq_dec a (A ++ x :: B)) as [I1|I1],
             (in_dec value_eq_dec a (A ++ B)) as [I2|I2];
      try reflexivity; exfalso.
    + apply I2. apply in_app_iff in I1. apply in_app_iff.
      destruct I1 as [I1|[<-|I1]]; auto.
    + apply I1. apply in_app_iff in I2. apply in_app_iff.
      destruct I2 as [I2|I2]; [auto|right; now right].
Qed.

(** Adding the values of a list to the set, one after the other, keeps
    the first occurrence of each. *)
Lemma fold_set_add_first_seen : forall l acc,
  NoDup acc ->
  rev (fold_left set_add l acc) = nodup value_eq_dec (rev (acc ++ l)).
Proof.
  induction l as [|x l IH]; intros acc N; simpl.
  - rewrite app_nil_r. symmetry. apply nodup_fixed_point.
    now apply NoDup_rev.
  - destruct (set_add_spec acc x) as [[Hin ->]|[Hn ->]].
    + rewrite (IH acc N).
      rewrite !rev_app_distr. simpl. rewrite <- app_assoc. simpl.
      symmetry. apply nodup_app_in. now apply in_rev in Hin.
    + assert (N' : NoDup (acc ++ [x])).
      { apply NoDup_app; [assumption|repeat constructor; simpl; tauto|].
        intros y Hy [<-|[]]. contradiction. }
      rewrite (IH _ N'). now rewrite <- app_assoc.
Qed.

Lemma fold_set_add_map (l : list captures) : forall acc,
  fold_left (fun a c => set_add a (cap1 c)) l acc
  = fold_left set_add (map cap1 l) acc.
Proof.
  induction l as [|c l IH]; intro acc; simpl; [reflexivity|apply IH].
Qed.

Lemma fold_first_seen l : fold_left set_add l [] = first_seen l.
Proof.
  unfold first_seen.
  pose proof (fold_set_add_first_seen l [] (NoDup_nil _)) as H.
  simpl app in H. rewrite <- H. now rewrite rev_involutive.
Qed.

Lemma worker_collect_slugs_fold html :
  exists l1 l2 l3,
    successive Worker.slugPattern1 html l1 /\
    successive Worker.slugPattern2 html l2 /\
    successive Worker.slugPattern3 html l3 /\
    Worker.collect_slugs (length html) html
    = Ok (first_seen (map cap1 (l1 ++ l2 ++ l3))).
Proof.
  unfold Worker.collect_slugs.
  destruct (exec_loop_spec Worker.slugPattern1 _ Worker.collect
              (fun c a => set_add a (cap1 c)) html eq_refl
              worker_collect_set_add (length html) 0 [])
    as [l1 [S1 E1]]; [lia|lia|].
  rewrite E1. simpl bind.
  destruct (exec_loop_spec Worker.slugPattern2 _ Worker.collect
              (fun c a => set_add a (cap1 c)) html eq_refl
              worker_collect_set_add (length html) 0
              (fold_left (fun a c => set_add a (cap1 c)) l1 []))
    as [l2 [S2 E2]]; [lia|lia|].
  rewrite E2. simpl bind.
  destruct (exec_loop_spec Worker.slugPattern3 _ Worker.collect
              (fun c a => set_add a (cap1 c)) html eq_refl
              worker_collect_set_add (length html) 0
              (fold_left (fun a c => set_add a (cap1 c)) l2
                 (fold_left (fun a c => set_add a (cap1 c)) l1 [])))
    as [l3 [S3 E3]]; [lia|lia|].
  simpl skipn in *.
  exists l1, l2, l3. repeat split; try assumption.
  rewrite E3. f_equal.
  rewrite <- fold_first_seen, !map_app, !fold_left_app.
  now rewrite !fold_set_add_map.
Qed.

Lemma api_collect_slugs_fold html :
  exists l,
    successive Api.slugPattern html l /\
    Api.collect_slugs (length html) html = Ok (first_seen (map cap1 l)).
Proof.
  unfold Api.collect_slugs.
  destruct (exec_loop_spec Api.slugPattern _ Api.collect
              (fun c a => set_add a (cap1 c)) html eq_refl
              api_collect_set_add (length html) 0 [])
    as [l [S E]]; [lia|lia|].
  simpl skipn in *. exists l. split; [assumption|].
  rewrite E. f_equal. now rewrite <- fold_first_seen, fold_set_add_map.
Qed.

(** X3: the order of the records is fixed by the page: the slugs of the
    records are the values found by the scans, those of the first scan
    before those of the second and the third, each value at the place of
    its first occurrence. *)
Theorem X3_record_order : forall html,
  (exists vs1 vs2 vs3 movies,
      scan film_slug_attr html vs1 /\
      scan item_slug_attr html vs2 /\
      scan film_link html vs3 /\
      Worker.parseMovies html = Ok movies /\
      map Worker.slug movies = first_seen (map Str (vs1 ++ vs2 ++ vs3))) /\
  (exists vs movies,
      scan slug_attr html vs /\
      Api.parseMovies html = Ok movies /\
      map Api.slug movies = first_seen (map Str vs)).
Proof.
  intro html. split.
  - destruct (worker_collect_slugs_fold html) as [l1 [l2 [l3 [S1 [S2 [S3 E]]]]]].
    destruct (successive_scan _ _ slugPattern1_shape _ _ S1) as [vs1 [C1 M1]].
    destruct (successive_scan _ _ slugPattern2_shape _ _ S2) as [vs2 [C2 M2]].
    destruct (successive_scan _ _ slugPattern3_shape _ _ S3) as [vs3 [C3 M3]].
    destruct (worker_parseMovies_spec html (length html) (le_n _))
      as [_ [_ [_ [seen [movies [_ [_ [_ [E' [_ [_ [R P]]]]]]]]]]]].
    rewrite E in E'. injection E' as <-.
    exists vs1, vs2, vs3, movies. repeat split; try assumption.
    rewrite (worker_record_slug _ _ _ R).
    now rewrite !map_app, M1, M2, M3.
  - destruct (api_collect_slugs_fold html) as [l [S E]].
    destruct (successive_scan _ _ slug_attr_shape _ _ S) as [vs [C M]].
    destruct (api_parseMovies_spec html (length html) (le_n _))
      as [_ [seen [movies [_ [E' [_ [_ [R P]]]]]]]].
    rewrite E in E'. injection E' as <-.
    exists vs, movies. repeat split; try assumption.
    rewrite (api_record_slug _ _ _ R). now rewrite M.
Qed.

Lemma hyphens_to_spaces_nonempty s : s <> [] -> hyphens_to_spaces s <> [].
Proof. destruct s; [congruence|discriminate]. Qed.

Lemma worker_title_nonempty s section t :
  s <> [] -> Worker.resolve_name (Str s) section = Ok (Str t) -> t <> [].
Proof.
  intros Hs. unfold Worker.resolve_name. simpl.
  destruct (str_match section Worker.namePattern) as [nm|] eqn:En.
  - destruct (str_match_some_first_of _ _ namePattern_shape _ _ En)
      as [pre [v [post [[_ [[Q|Q] _]] [Ec _]]]]];
      rewrite group_cap1, Ec; intro H; injection H as <-; apply Q.
  - destruct (str_match section Worker.altPattern) as [am|] eqn:Ea.
    + destruct (str_match_some_first_of _ _ altPattern_shape _ _ Ea)
        as [pre [v [post [[_ [Q _]] [Ec _]]]]].
      rewrite group_cap1, Ec. simpl.
      change (cap1 [Some v]) with (Str v).
      destruct (1 <? length v); intro H; injection H as <-;
        [apply Q|now apply hyphens_to_spaces_nonempty].
    + intro H; injection H as <-. now apply hyphens_to_spaces_nonempty.
Qed.

Lemma api_title_nonempty s section t :
  s <> [] -> Api.resolve_name (Str s) section = Ok (Str t) -> t <> [].
Proof.
  intros Hs. unfold Api.resolve_name.
  destruct (str_match section Worker.namePattern) as [nm|] eqn:En.
  - destruct (str_match_some_first_of _ _ namePattern_shape _ _ En)
      as [pre [v [post [[_ [[Q|Q] _]] [Ec _]]]]];
      rewrite group_cap1, Ec; intro H; injection H as <-; apply Q.
  - destruct (str_match section Worker.altPattern) as [am|] eqn:Ea.
    + destruct (str_match_some_first_of _ _ altPattern_shape _ _ Ea)
        as [pre [v [post [[_ [[Et _] _]] _]]]].
      intro H; injection H as <-. rewrite Et. discriminate.
    + simpl. intro H; injection H as <-.
      now apply hyphens_to_spaces_nonempty.
Qed.

(** X4: no record of either extractor has an empty title. *)
Theorem X4_title_nonempty : forall html,
  (exists movies,
      Worker.parseMovies html = Ok movies /\
      Forall (fun m => exists t, Worker.title m = Str t /\ t <> []) movies) /\
  (exists movies,
      Api.parseMovies html = Ok movies /\
      Forall (fun m => exists t, Api.title m = Str t /\ t <> []) movies).
Proof.
  intro html. split.
  - destruct (worker_parseMovies_spec html (length html) (le_n _))
      as [l1 [l2 [l3 [seen [movies [_ [_ [_ [E [_ [_ [R P]]]]]]]]]]]].
    exists movies. split; [exact P|].
    eapply Forall2_right;
      [|exact (worker_seen_slug_like html seen E)|exact R].
    intros v m [s [-> [Hne _]]]
           [s' [k [t [y [Es [_ [_ [Et [_ [Er _]]]]]]]]]].
    injection Es as <-. exists t. split; [assumption|].
    eapply worker_title_nonempty; eassumption.
  - destruct (api_parseMovies_spec html (length html) (le_n _))
      as [l [seen [movies [_ [E [_ [_ [R P]]]]]]]].
    exists movies. split; [exact P|].
    eapply Forall2_right;
      [|exact (api_seen_slug_like html seen E)|exact R].
    intros v m [s [-> [Hne _]]]
           [s' [k [t [p [Es [_ [_ [Et [_ [Er _]]]]]]]]]].
    injection Es as <-. exists t. split; [assumption|].
    eapply api_title_nonempty; eassumption.
Qed.

End OrderAndTitle.

(** * Further properties of the loops and handlers *)

Section WorkerRuns.
Import JS Spec Props Worker.

Variable cap : nat.
Variable net : nat -> jsstring -> fetch_outcome.
Variable extract : jsstring -> result (list Movie).
Variable username : jsstring.

Lemma loop_body_not_found st ident html :
  net (calls st) (page_url username (page st)) = Response false ident html ->
  page st = 1 ->
  loop_body net extract username st
  = Leave (Return (respond 404
             (error_body "User not found or watchlist is private"))).
Proof.
  intros N P. unfold loop_body. rewrite N, P. reflexivity.
Qed.

Lemma loop_body_last st :
  worker_last_page net extract username (calls st) (page st) ->
  page st <> 1 ->
  loop_body net extract username st
  = Next {| allMovies := allMovies st; page := page st;
            hasMore := false; calls := S (calls st) |}.
Proof.
  intros [ok [ident [html [N H]]]] P. apply Nat.eqb_neq in P.
  unfold loop_body. rewrite N.
  destruct ok; simpl negb; cbv iota; [|now rewrite P].
  destruct (challenge html) eqn:C; [now rewrite P|].
  destruct H as [H|[H|H]]; try discriminate.
  rewrite H. reflexivity.
Qed.

Lemma loop_body_empty_first st :
  worker_last_page net extract username (calls st) (page st) ->
  (exists ident html,
      net (calls st) (page_url username (page st)) = Response true ident html /\
      challenge html = false) ->
  loop_body net extract username st
  = Next {| allMovies := allMovies st; page := page st;
            hasMore := false; calls := S (calls st) |}.
Proof.
  intros [ok [ident [html [N H]]]] [ident' [html' [N' C]]].
  rewrite N in N'. injection N' as -> -> ->.
  unfold loop_body. rewrite N. simpl negb. cbv iota. rewrite C.
  destruct H as [H|[H|H]]; try congruence.
  rewrite H. reflexivity.
Qed.

Lemma scrape_not_found fuel calls0 ident html :
  0 < fuel -> 1 <= cap ->
  net calls0 (page_url username 1) = Response false ident html ->
  scrape cap net extract username fuel calls0
  = Some (1, Leave (Return (respond 404
                      (error_body "User not found or watchlist is private")))).
Proof.
  intros Hf Hc N. destruct fuel as [|fuel]; [lia|].
  unfold scrape. apply while_leave.
  - unfold loop_cond. cbn [hasMore page andb]. apply Nat.leb_le. lia.
  - now apply (loop_body_not_found _ ident html).
Qed.

Lemma scrape_empty_first fuel calls0 ident html :
  0 < fuel -> 1 <= cap ->
  net calls0 (page_url username 1) = Response true ident html ->
  challenge html = false -> extract html = Ok [] ->
  scrape cap net extract username fuel calls0
  = Some (1, Next {| allMovies := []; page := 1; hasMore := false;
                     calls := S calls0 |}).
Proof.
  intros Hf Hc N C E. destruct fuel as [|fuel]; [lia|].
  unfold scrape.
  rewrite (while_next _ _ (loop_cond cap) (loop_body net extract username)
             fuel 0 _
             {| allMovies := []; page := 1; hasMore := false;
                calls := S calls0 |}).
  - apply while_exit. reflexivity.
  - unfold loop_cond. cbn [hasMore page andb]. apply Nat.leb_le. lia.
  - apply (loop_body_empty_first
             {| allMovies := []; page := 1; hasMore := true;
                calls := calls0 |}).
    + exists true, ident, html. auto.
    + exists ident, html. auto.
Qed.

(** Good pages, then a page that ends the loop. *)
Lemma scrape_complete fuel calls0 lists :
  worker_pages net extract username calls0 1 lists ->
  lists <> [] -> length lists < cap -> length lists < fuel ->
  worker_last_page net extract username (calls0 + length lists)
    (S (length lists)) ->
  scrape cap net extract username fuel calls0
  = Some (S (length lists),
          Next {| allMovies := concat lists; page := S (length lists);
                  hasMore := false; calls := S (calls0 + length lists) |}).
Proof.
  intros W Hne Hc Hf L. unfold scrape.
  replace fuel with (length lists + S (fuel - length lists - 1)) by lia.
  rewrite (worker_prefix cap net extract username lists calls0 1 []
             (S (fuel - length lists - 1)) 0 W) by lia.
  simpl app. simpl plus.
  rewrite (while_next _ _ (loop_cond cap) (loop_body net extract username)
             _ _ _
             {| allMovies := concat lists; page := S (length lists);
                hasMore := false; calls := S (calls0 + length lists) |}).
  - apply while_exit. reflexivity.
  - unfold loop_cond. cbn [hasMore page andb]. apply Nat.leb_le. lia.
  - apply (loop_body_last
             {| allMovies := concat lists; page := S (length lists);
                hasMore := true; calls := calls0 + length lists |} L).
    simpl. destruct lists; [congruence|simpl; lia].
Qed.

(** As many good pages as the cap: the loop ends without another fetch. *)
Lemma scrape_truncated fuel calls0 lists :
  worker_pages net extract username calls0 1 lists ->
  length lists = cap -> cap <= fuel ->
  scrape cap net extract username fuel calls0
  = Some (cap,
          Next {| allMovies := concat lists; page := S cap;
                  hasMore := true; calls := calls0 + cap |}).
Proof.
  intros W Hl Hf. unfold scrape.
  replace fuel with (length lists + (fuel - length lists)) by lia.
  rewrite (worker_prefix cap net extract username lists calls0 1 []
             (fuel - length lists) 0 W) by lia.
  simpl app. simpl plus. rewrite Hl.
  apply while_exit.
  unfold loop_cond. cbn [hasMore page andb]. apply Nat.leb_gt. lia.
Qed.

(** The loop asks call [c0 + k] for page [k + 1], and nothing else. *)
Lemma while_same_pages net' c0 :
  same_pages cap c0 username net net' ->
  forall fuel it st,
    (hasMore st = true -> 1 <= page st /\ calls st = c0 + (page st - 1)) ->
    while (loop_cond cap) (loop_body net extract username) fuel it st
    = while (loop_cond cap) (loop_body net' extract username) fuel it st.
Proof.
  intro A. induction fuel as [|fuel IH]; intros it st I; simpl.
  - reflexivity.
  - destruct (loop_cond cap st) eqn:C; [|reflexivity].
    unfold loop_cond in C. apply andb_true_iff in C.
    destruct C as [Hm Hp]. apply Nat.leb_le in Hp.
    destruct (I Hm) as [H1 Hc].
    assert (B : loop_body net' extract username st
                = loop_body net extract username st).
    { unfold loop_body. rewrite Hc.
      pose proof (A (page st - 1) ltac:(lia)) as Ak.
      replace (S (page st - 1)) with (page st) in Ak by lia.
      rewrite Ak. reflexivity. }
    rewrite B.
    destruct (loop_body net extract username st) as [st'|l] eqn:Eb;
      [|reflexivity].
    apply IH. intro Hm'.
    destruct (loop_body_cases net extract username st)
      as [[s1 [B1 [F1 _]]]|[[s1 [B1 [_ [F2 F3]]]]|[r B1]]];
      rewrite Eb in B1; inversion B1; subst s1.
    + congruence.
    + rewrite F2, F3. lia.
Qed.

Lemma scrape_same_pages net' fuel calls0 :
  same_pages cap calls0 username net net' ->
  scrape cap net extract username fuel calls0
  = scrape cap net' extract username fuel calls0.
Proof.
  intro A. unfold scrape. apply (while_same_pages net' calls0 A).
  simpl. intros _. lia.
Qed.

End WorkerRuns.

Section ApiRuns.
Import JS Spec Props Api.

Variable net : nat -> jsstring -> fetch_outcome.
Variable extract : jsstring -> result (list Movie).
Variable username : jsstring.

Lemma api_loop_body_last st :
  api_last_page net extract username (calls st) (page st) ->
  page st <> 1 ->
  loop_body net extract username st
  = Next {| allMovies := allMovies st; page := page st;
            hasMore := false; calls := S (calls st) |}.
Proof.
  intros H P. apply Nat.eqb_neq in P. unfold loop_body.
  destruct H as [N|[html [N H]]]; rewrite N; [now rewrite P|].
  destruct (Worker.challenge html) eqn:C; [now rewrite P|].
  destruct H as [H|H]; [discriminate|]. rewrite H. reflexivity.
Qed.

Lemma api_scrape_not_found fuel :
  0 < fuel ->
  net 0 (Worker.page_url username 1) = Rejected ->
  scrape net extract username fuel
  = Some (1, Leave (Return (respond 404
                      (error_body "User not found or watchlist is private")))).
Proof.
  intros Hf N. destruct fuel as [|fuel]; [lia|].
  unfold scrape. apply while_leave; [reflexivity|].
  unfold loop_body. cbn [calls page]. rewrite N. reflexivity.
Qed.

Lemma api_scrape_empty_first fuel html :
  0 < fuel ->
  net 0 (Worker.page_url username 1) = Resolved html ->
  Worker.challenge html = false -> extract html = Ok [] ->
  scrape net extract username fuel
  = Some (1, Next {| allMovies := []; page := 1; hasMore := false;
                     calls := 1 |}).
Proof.
  intros Hf N C E. destruct fuel as [|fuel]; [lia|].
  unfold scrape.
  rewrite (while_next _ _ loop_cond (loop_body net extract username)
             fuel 0 _
             {| allMovies := []; page := 1; hasMore := false; calls := 1 |}).
  - apply while_exit. reflexivity.
  - reflexivity.
  - unfold loop_body. cbn [calls page allMovies]. rewrite N, C, E.
    reflexivity.
Qed.

Lemma api_scrape_complete fuel lists :
  api_pages net extract username 0 1 lists ->
  lists <> [] -> length lists < 20 -> length lists < fuel ->
  api_last_page net extract username (length lists) (S (length lists)) ->
  scrape net extract username fuel
  = Some (S (length lists),
          Next {| allMovies := concat lists; page := S (length lists);
                  hasMore := false; calls := S (length lists) |}).
Proof.
  intros W Hne Hc Hf L. unfold scrape.
  replace fuel with (length lists + S (fuel - length lists - 1)) by lia.
  rewrite (api_prefix net extract username lists 0 1 []
             (S (fuel - length lists - 1)) 0 W) by lia.
  simpl app. simpl plus.
  rewrite (while_next _ _ loop_cond (loop_body net extract username) _ _ _
             {| allMovies := concat lists; page := S (length lists);
                hasMore := false; calls := S (length lists) |}).
  - apply while_exit. reflexivity.
  - unfold loop_cond. cbn [hasMore page andb]. apply Nat.leb_le. lia.
  - apply (api_loop_body_last
             {| allMovies := concat lists; page := S (length lists);
                hasMore := true; calls := length lists |} L).
    simpl. destruct lists; [congruence|simpl; lia].
Qed.

Lemma api_scrape_truncated fuel lists :
  api_pages net extract username 0 1 lists ->
  length lists = 20 -> 20 <= fuel ->
  scrape net extract username fuel
  = Some (20, Next {| allMovies := concat lists; page := 21;
                      hasMore := true; calls := 20 |}).
Proof.
  intros W Hl Hf. unfold scrape.
  replace fuel with (length lists + (fuel - length lists)) by lia.
  rewrite (api_prefix net extract username lists 0 1 []
             (fuel - length lists) 0 W) by lia.
  simpl app. simpl plus. rewrite Hl.
  apply while_exit. reflexivity.
Qed.

Lemma api_while_same_pages net' :
  same_pages 20 0 username net net' ->
  forall fuel it st,
    (hasMore st = true -> 1 <= page st /\ calls st = page st - 1) ->
    while loop_cond (loop_body net extract username) fuel it st
    = while loop_cond (loop_body net' extract username) fuel it st.
Proof.
  intro A. induction fuel as [|fuel IH]; intros it st I; simpl.
  - reflexivity.
  - destruct (loop_cond st) eqn:C; [|reflexivity].
    unfold loop_cond in C. apply andb_true_iff in C.
    destruct C as [Hm Hp]. apply Nat.leb_le in Hp.
    destruct (I Hm) as [H1 Hc].
    assert (B : loop_body net' extract username st
                = loop_body net extract username st).
    { unfold loop_body. rewrite Hc.
      pose proof (A (page st - 1) ltac:(lia)) as Ak. simpl plus in Ak.
      replace (S (page st - 1)) with (page st) in Ak by lia.
      rewrite Ak. reflexivity. }
    rewrite B.
    destruct (loop_body net extract username st) as [st'|l] eqn:Eb;
      [|reflexivity].
    apply IH. intro Hm'.
    destruct (api_loop_body_cases net extract username st)
      as [[s1 [B1 [F1 _]]]|[[s1 [B1 [_ [F2 F3]]]]|[r B1]]];
      rewrite Eb in B1; inversion B1; subst s1.
    + congruence.
    + rewrite F2, F3. lia.
Qed.

Lemma api_scrape_same_pages net' fuel :
  same_pages 20 0 username net net' ->
  scrape net extract username fuel = scrape net' extract username fuel.
Proof.
  intro A. unfold scrape. apply (api_while_same_pages net' A).
  simpl. intros _. lia.
Qed.

End ApiRuns.

Section HandlerProperties.
Import JS Spec Props Examples.

Lemma first_truthy_none a b :
  (a = None \/ a = Some []) -> (b = None \/ b = Some []) ->
  first_truthy a b = None.
Proof. intros [->| ->] [->| ->]; reflexivity. Qed.

(** X5: a request with the method [OPTIONS] is answered 200 with an empty
    body whatever its query is, and any other request whose [username] and
    [user] are both missing or empty is answered 400 with the error
    [Username required]; no page is fetched for either. *)
Theorem X5_request_validation : forall fuel rnd req,
  (req_method req = "OPTIONS"%string ->
   (forall net, Worker.handleWatchlistAPI fuel net rnd req
                = Ok {| status := 200; body := None |}) /\
   (forall decode net, Fallback.handleWatchlistAPI decode fuel net rnd req
                       = Ok {| status := 200; body := None |}) /\
   (forall net, Api.handler fuel net rnd req
                = Ok {| status := 200; body := None |})) /\
  (req_method req <> "OPTIONS"%string ->
   (q_username req = None \/ q_username req = Some []) ->
   (q_user req = None \/ q_user req = Some []) ->
   (forall net, Worker.handleWatchlistAPI fuel net rnd req
                = Ok (respond 400 (error_body "Username required"))) /\
   (forall decode net, Fallback.handleWatchlistAPI decode fuel net rnd req
                       = Ok (respond 400 (error_body "Username required"))) /\
   (forall net, Api.handler fuel net rnd req
                = Ok (respond 400 (error_body "Username required")))).
Proof.
  intros fuel rnd req. split.
  - intro Hm. apply String.eqb_eq in Hm.
    unfold Worker.handleWatchlistAPI, Fallback.handleWatchlistAPI, Api.handler.
    rewrite Hm. auto.
  - intros Hm Hu Hv. apply String.eqb_neq in Hm.
    unfold Worker.handleWatchlistAPI, Fallback.handleWatchlistAPI, Api.handler.
    rewrite Hm, (first_truthy_none _ _ Hu Hv). auto.
Qed.

Lemma X5_witness :
  Worker.handleWatchlistAPI 20 (serve [named_page]) zero
    {| req_method := "GET"; q_username := None; q_user := Some [];
       q_random := None |}
  = Ok (respond 400 (error_body "Username required")).
Proof.
  apply (proj2 (X5_request_validation 20 zero
                  {| req_method := "GET"; q_username := None;
                     q_user := Some []; q_random := None |})).
  - discriminate.
  - now left.
  - now right.
Defined.

(** X6: when the fetch of the first page fails (a response that is not OK
    in the workers, a rejected fetch in the serverless function) the answer
    is 404 with the error [User not found or watchlist is private]. *)
Theorem X6_first_page_not_found :
  (forall fuel net rnd req username ident html,
      String.eqb (req_method req) "OPTIONS" = false ->
      first_truthy (q_username req) (q_user req) = Some username ->
      0 < fuel ->
      net 0 (Worker.page_url username 1) = Worker.Response false ident html ->
      Worker.handleWatchlistAPI fuel net rnd req
      = Ok (respond 404
              (error_body "User not found or watchlist is private"))) /\
  (forall fuel net calls0 username ident html,
      0 < fuel ->
      net calls0 (Worker.page_url username 1)
      = Worker.Response false ident html ->
      Fallback.fallbackScrape fuel net calls0 username
      = Ok (respond 404
              (error_body "User not found or watchlist is private"))) /\
  (forall fuel net rnd req username,
      String.eqb (req_method req) "OPTIONS" = false ->
      first_truthy (q_username req) (q_user req) = Some username ->
      0 < fuel ->
      net 0 (Worker.page_url username 1) = Api.Rejected ->
      Api.handler fuel net rnd req
      = Ok (respond 404
              (error_body "User not found or watchlist is private"))).
Proof.
  split; [|split].
  - intros fuel net rnd req username ident html Hm Hu Hf N.
    rewrite (worker_handler_run fuel net rnd req username Hm Hu).
    now rewrite (scrape_not_found 20 net Worker.parseMovies username fuel 0
                   ident html Hf ltac:(lia) N).
  - intros fuel net calls0 username ident html Hf N.
    unfold Fallback.fallbackScrape.
    now rewrite (scrape_not_found 10 net Worker.parseMovies username fuel
                   calls0 ident html Hf ltac:(lia) N).
  - intros fuel net rnd req username Hm Hu Hf N.
    rewrite (api_handler_run fuel net rnd req username Hm Hu).
    now rewrite (api_scrape_not_found net Api.parseMovies username fuel Hf N).
Qed.

Lemma X6_witness :
  Api.handler 20 (fun _ _ => Api.Rejected) zero (get_request None)
  = Ok (respond 404 (error_body "User not found or watchlist is private")).
Proof.
  apply (proj2 (proj2 X6_first_page_not_found) 20 (fun _ _ => Api.Rejected)
           zero (get_request None) (lit "bob")).
  - reflexivity.
  - reflexivity.
  - lia.
  - reflexivity.
Defined.

Lemma not_challenge html : ~ challenge_page html -> Worker.challenge html = false.
Proof.
  intro N. destruct (Worker.challenge html) eqn:C; [|reflexivity].
  exfalso. apply N. now apply challenge_spec.
Qed.

(** X7: when the first page is fetched, is no challenge page and holds no
    film identifier, the answer is 404 with the error
    [Watchlist is empty or not accessible]. *)
Theorem X7_empty_watchlist :
  (forall fuel net rnd req username ident html,
      String.eqb (req_method req) "OPTIONS" = false ->
      first_truthy (q_username req) (q_user req) = Some username ->
      0 < fuel ->
      net 0 (Worker.page_url username 1) = Worker.Response true ident html ->
      ~ challenge_page html ->
      none_of film_slug_attr html -> none_of item_slug_attr html ->
      none_of film_link html ->
      Worker.handleWatchlistAPI fuel net rnd req
      = Ok (respond 404
              (error_body "Watchlist is empty or not accessible"))) /\
  (forall fuel net calls0 username ident html,
      0 < fuel ->
      net calls0 (Worker.page_url username 1)
      = Worker.Response true ident html ->
      ~ challenge_page html ->
      none_of film_slug_attr html -> none_of item_slug_attr html ->
      none_of film_link html ->
      Fallback.fallbackScrape fuel net calls0 username
      = Ok (respond 404
              (error_body "Watchlist is empty or not accessible"))) /\
  (forall fuel net rnd req username html,
      String.eqb (req_method req) "OPTIONS" = false ->
      first_truthy (q_username req) (q_user req) = Some username ->
      0 < fuel ->
      net 0 (Worker.page_url username 1) = Api.Resolved html ->
      ~ challenge_page html ->
      none_of slug_attr html ->
      Api.handler fuel net rnd req
      = Ok (respond 404
              (error_body "Watchlist is empty or not accessible"))).
Proof.
  split; [|split].
  - intros fuel net rnd req username ident html Hm Hu Hf N C N1 N2 N3.
    rewrite (worker_handler_run fuel net rnd req username Hm Hu).
    rewrite (scrape_empty_first 20 net Worker.parseMovies username fuel 0
               ident html Hf ltac:(lia) N (not_challenge _ C)
               (proj2 (proj1 (no_record_iff_no_identifier html))
                  (conj N1 (conj N2 N3)))).
    reflexivity.
  - intros fuel net calls0 username ident html Hf N C N1 N2 N3.
    unfold Fallback.fallbackScrape.
    rewrite (scrape_empty_first 10 net Worker.parseMovies username fuel calls0
               ident html Hf ltac:(lia) N (not_challenge _ C)
               (proj2 (proj1 (no_record_iff_no_identifier html))
                  (conj N1 (conj N2 N3)))).
    reflexivity.
  - intros fuel net rnd req username html Hm Hu Hf N C N1.
    rewrite (api_handler_run fuel net rnd req username Hm Hu).
    rewrite (api_scrape_empty_first net Api.parseMovies username fuel html
               Hf N (not_challenge _ C)
               (proj2 (proj2 (no_record_iff_no_identifier html)) N1)).
    reflexivity.
Qed.

Lemma challenge_false_not_page html :
  Worker.challenge html = false -> ~ challenge_page html.
Proof. intros C H. apply challenge_spec in H. congruence. Qed.

Lemma X7_witness :
  Worker.handleWatchlistAPI 20 (serve [empty_page]) zero (get_request None)
  = Ok (respond 404 (error_body "Watchlist is empty or not accessible")).
Proof.
  apply (proj1 X7_empty_watchlist 20 (serve [empty_page]) zero
           (get_request None) (lit "bob") None empty_page).
  - reflexivity.
  - reflexivity.
  - lia.
  - reflexivity.
  - apply challenge_false_not_page. vm_compute. reflexivity.
  - apply (none_of_check _ _ slugPattern1_shape). vm_compute. reflexivity.
  - apply (none_of_check _ _ slugPattern2_shape). vm_compute. reflexivity.
  - apply (none_of_check _ _ slugPattern3_shape). vm_compute. reflexivity.
Defined.

End HandlerProperties.

Section RunProperties.
Import JS Spec Props Examples.

(** X8: when the first pages are good ones and the next page ends the
    loop (a response that is not OK or a rejected fetch, a challenge, or a
    page without films), the failure of that page is not reported: the
    answer is 200 and made from the records of the pages before it, in
    page order. *)
Theorem X8_later_failure_swallowed :
  (forall fuel net rnd req username lists,
      String.eqb (req_method req) "OPTIONS" = false ->
      first_truthy (q_username req) (q_user req) = Some username ->
      worker_pages net Worker.parseMovies username 0 1 lists ->
      lists <> [] -> length lists < 20 -> length lists < fuel ->
      worker_last_page net Worker.parseMovies username (length lists)
        (S (length lists)) ->
      Worker.handleWatchlistAPI fuel net rnd req
      = Ok (if wants_random req then Worker.random_pick rnd (concat lists)
            else Worker.full_list (concat lists))) /\
  (forall fuel net calls0 username lists,
      worker_pages net Worker.parseMovies username calls0 1 lists ->
      lists <> [] -> length lists < 10 -> length lists < fuel ->
      worker_last_page net Worker.parseMovies username
        (calls0 + length lists) (S (length lists)) ->
      Fallback.fallbackScrape fuel net calls0 username
      = Ok (Worker.full_list (concat lists))) /\
  (forall fuel net rnd req username lists,
      String.eqb (req_method req) "OPTIONS" = false ->
      first_truthy (q_username req) (q_user req) = Some username ->
      api_pages net Api.parseMovies username 0 1 lists ->
      lists <> [] -> length lists < 20 -> length lists < fuel ->
      api_last_page net Api.parseMovies username (length lists)
        (S (length lists)) ->
      Api.handler fuel net rnd req
      = Ok (if wants_random req then Api.random_pick rnd (concat lists)
            else Api.full_list (concat lists))).
Proof.
  split; [|split].
  - intros fuel net rnd req username lists Hm Hu W Hne Hc Hf L.
    rewrite (worker_handler_run fuel net rnd req username Hm Hu).
    rewrite (scrape_complete 20 net Worker.parseMovies username fuel 0
               lists W Hne Hc Hf L).
    cbn [Worker.allMovies].
    rewrite (length_eqb_nonempty _ _
               (worker_pages_nonempty _ _ _ _ _ _ W Hne)).
    destruct (wants_random req); reflexivity.
  - intros fuel net calls0 username lists W Hne Hc Hf L.
    unfold Fallback.fallbackScrape.
    rewrite (scrape_complete 10 net Worker.parseMovies username fuel calls0
               lists W Hne Hc Hf L).
    cbn [Worker.allMovies].
    now rewrite (length_eqb_nonempty _ _
                   (worker_pages_nonempty _ _ _ _ _ _ W Hne)).
  - intros fuel net rnd req username lists Hm Hu W Hne Hc Hf L.
    rewrite (api_handler_run fuel net rnd req username Hm Hu).
    rewrite (api_scrape_complete net Api.parseMovies username fuel
               lists W Hne Hc Hf L).
    cbn [Api.allMovies].
    rewrite (length_eqb_nonempty _ _ (api_pages_nonempty _ _ _ _ _ _ W Hne)).
    destruct (wants_random req); reflexivity.
Qed.

Lemma X8_witness :
  Worker.handleWatchlistAPI 20
    (fun k _ => if k =? 0 then Worker.Response true None named_page
                else Worker.Response false None [])
    zero (get_request None)
  = Ok (Worker.full_list (concat [[dune_movie]])).
Proof.
  apply (proj1 X8_later_failure_swallowed 20
           (fun k _ => if k =? 0 then Worker.Response true None named_page
                       else Worker.Response false None [])
           zero (get_request None) (lit "bob") [[dune_movie]]).
  - reflexivity.
  - reflexivity.
  - eapply wp_cons with (html := named_page).
    + reflexivity.
    + vm_compute. reflexivity.
    + vm_compute. reflexivity.
    + discriminate.
    + constructor.
  - discriminate.
  - simpl. lia.
  - simpl. lia.
  - exists false, None, []. split; [reflexivity|]. now left.
Defined.

(** X9: when as many pages as the cap are good ones (20 in the first
    worker and in the serverless function, 10 in the fallback of the second
    worker), the answer is 200 and made from the records of exactly those
    pages: nothing tells that the list may go on, and no further page is
    asked for. *)
Theorem X9_truncated_at_cap :
  (forall fuel net rnd req username lists,
      String.eqb (req_method req) "OPTIONS" = false ->
      first_truthy (q_username req) (q_user req) = Some username ->
      worker_pages net Worker.parseMovies username 0 1 lists ->
      length lists = 20 -> 20 <= fuel ->
      Worker.handleWatchlistAPI fuel net rnd req
      = Ok (if wants_random req then Worker.random_pick rnd (concat lists)
            else Worker.full_list (concat lists))) /\
  (forall fuel net calls0 username lists,
      worker_pages net Worker.parseMovies username calls0 1 lists ->
      length lists = 10 -> 10 <= fuel ->
      Fallback.fallbackScrape fuel net calls0 username
      = Ok (Worker.full_list (concat lists))) /\
  (forall fuel net rnd req username lists,
      String.eqb (req_method req) "OPTIONS" = false ->
      first_truthy (q_username req) (q_user req) = Some username ->
      api_pages net Api.parseMovies username 0 1 lists ->
      length lists = 20 -> 20 <= fuel ->
      Api.handler fuel net rnd req
      = Ok (if wants_random req then Api.random_pick rnd (concat lists)
            else Api.full_list (concat lists))).
Proof.
  split; [|split].
  - intros fuel net rnd req username lists Hm Hu W Hl Hf.
    assert (Hne : lists <> []) by (destruct lists; [discriminate|congruence]).
    rewrite (worker_handler_run fuel net rnd req username Hm Hu).
    rewrite (scrape_truncated 20 net Worker.parseMovies username fuel 0
               lists W Hl Hf).
    cbn [Worker.allMovies].
    rewrite (length_eqb_nonempty _ _
               (worker_pages_nonempty _ _ _ _ _ _ W Hne)).
    destruct (wants_random req); reflexivity.
  - intros fuel net calls0 username lists W Hl Hf.
    assert (Hne : lists <> []) by (destruct lists; [discriminate|congruence]).
    unfold Fallback.fallbackScrape.
    rewrite (scrape_truncated 10 net Worker.parseMovies username fuel calls0
               lists W Hl Hf).
    cbn [Worker.allMovies].
    now rewrite (length_eqb_nonempty _ _
                   (worker_pages_nonempty _ _ _ _ _ _ W Hne)).
  - intros fuel net rnd req username lists Hm Hu W Hl Hf.
    assert (Hne : lists <> []) by (destruct lists; [discriminate|congruence]).
    rewrite (api_handler_run fuel net rnd req username Hm Hu).
    rewrite (api_scrape_truncated net Api.parseMovies username fuel
               lists W Hl Hf).
    cbn [Api.allMovies].
    rewrite (length_eqb_nonempty _ _ (api_pages_nonempty _ _ _ _ _ _ W Hne)).
    destruct (wants_random req); reflexivity.
Qed.

Lemma X9_witness :
  Fallback.fallbackScrape 10
    (fun _ _ => Worker.Response true None named_page) 0 (lit "bob")
  = Ok (Worker.full_list (concat (repeat [dune_movie] 10))).
Proof.
  apply (proj1 (proj2 X9_truncated_at_cap) 10
           (fun _ _ => Worker.Response true None named_page) 0 (lit "bob")
           (repeat [dune_movie] 10)).
  - simpl repeat.
    repeat (eapply wp_cons with (html := named_page);
            [reflexivity|vm_compute; reflexivity|vm_compute; reflexivity
            |discriminate|]).
    apply wp_nil.
  - reflexivity.
  - lia.
Defined.

Lemma worker_handler_status fuel net rnd req r :
  Worker.handleWatchlistAPI fuel net rnd req = Ok r ->
  In (status r) [200; 400; 404; 500; 503]%Z.
Proof.
  intro H. unfold Worker.handleWatchlistAPI in H.
  destruct (String.eqb (req_method req) "OPTIONS").
  { inversion H; subst. simpl. auto. }
  destruct (first_truthy (q_username req) (q_user req)) as [username|].
  2:{ inversion H; subst. simpl. auto. }
  destruct (Worker.scrape 20 net Worker.parseMovies username fuel 0)
    as [[n [st|l]]|] eqn:E; [| |discriminate].
  - destruct (length (Worker.allMovies st) =? 0).
    + inversion H; subst. simpl. auto.
    + destruct (wants_random req); inversion H; subst; simpl; auto.
  - destruct (worker_scrape_leaves _ _ _ _ _ _ _ E)
      as [[msg [k [url [-> N]]]]|[r' [-> Hst]]];
      inversion H; subst; simpl; [auto 6|].
    destruct Hst as [-> | ->]; auto 6.
Qed.

Lemma fallback_scrape_status fuel net calls0 username r :
  Fallback.fallbackScrape fuel net calls0 username = Ok r ->
  In (status r) [200; 404; 500; 503]%Z.
Proof.
  intro H. unfold Fallback.fallbackScrape in H.
  destruct (Worker.scrape 10 net Worker.parseMovies username fuel calls0)
    as [[n [st|l]]|] eqn:E; [| |discriminate].
  - destruct (length (Worker.allMovies st) =? 0);
      inversion H; subst; simpl; auto.
  - destruct (worker_scrape_leaves _ _ _ _ _ _ _ E)
      as [[msg [k [url [-> N]]]]|[r' [-> Hst]]];
      inversion H; subst; simpl; [auto 6|].
    destruct Hst as [-> | ->]; auto 6.
Qed.

Lemma api_handler_status fuel net rnd req r :
  Api.handler fuel net rnd req = Ok r ->
  In (status r) [200; 400; 404; 503]%Z.
Proof.
  intro H. unfold Api.handler in H.
  destruct (String.eqb (req_method req) "OPTIONS").
  { inversion H; subst. simpl. auto. }
  destruct (first_truthy (q_username req) (q_user req)) as [username|].
  2:{ inversion H; subst. simpl. auto. }
  destruct (Api.scrape net Api.parseMovies username fuel)
    as [[n [st|l]]|] eqn:E; [| |discriminate].
  - destruct (length (Api.allMovies st) =? 0).
    + inversion H; subst. simpl. auto.
    + destruct (wants_random req); inversion H; subst; simpl; auto.
  - destruct (api_scrape_leaves _ _ _ _ _ E) as [r' [-> Hst]].
    inversion H; subst. destruct Hst as [-> | ->]; simpl; auto 6.
Qed.

(** X10: the status of an answer is one of 200, 400, 404, 500 and 503 in
    the first worker, one of 200, 404, 500 and 503 in the fallback of the
    second worker, and one of 200, 400, 404 and 503 in the serverless
    function. *)
Theorem X10_status_codes :
  (forall fuel net rnd req r,
      Worker.handleWatchlistAPI fuel net rnd req = Ok r ->
      In (status r) [200; 400; 404; 500; 503]%Z) /\
  (forall fuel net calls0 username r,
      Fallback.fallbackScrape fuel net calls0 username = Ok r ->
      In (status r) [200; 404; 500; 503]%Z) /\
  (forall fuel net rnd req r,
      Api.handler fuel net rnd req = Ok r ->
      In (status r) [200; 400; 404; 503]%Z).
Proof.
  split; [exact worker_handler_status|].
  split; [exact fallback_scrape_status|exact api_handler_status].
Qed.

Lemma X10_witness :
  In (status (Worker.full_list [dune_movie])) [200; 400; 404; 500; 503]%Z.
Proof.
  apply (proj1 X10_status_codes 20 (serve [named_page]) zero
           (get_request None)).
  vm_compute. reflexivity.
Defined.

(** X11: an answer depends on the network through the pages of the loop
    only, call [k] being for page [k + 1]: two networks that agree on
    these, up to the cap, get the same answer. *)
Theorem X11_pages_in_order :
  (forall fuel net net' rnd req,
      (forall username,
          first_truthy (q_username req) (q_user req) = Some username ->
          same_pages 20 0 username net net') ->
      Worker.handleWatchlistAPI fuel net rnd req
      = Worker.handleWatchlistAPI fuel net' rnd req) /\
  (forall fuel net net' calls0 username,
      same_pages 10 calls0 username net net' ->
      Fallback.fallbackScrape fuel net calls0 username
      = Fallback.fallbackScrape fuel net' calls0 username) /\
  (forall fuel net net' rnd req,
      (forall username,
          first_truthy (q_username req) (q_user req) = Some username ->
          same_pages 20 0 username net net') ->
      Api.handler fuel net rnd req = Api.handler fuel net' rnd req).
Proof.
  split; [|split].
  - intros fuel net net' rnd req A. unfold Worker.handleWatchlistAPI.
    destruct (String.eqb (req_method req) "OPTIONS"); [reflexivity|].
    destruct (first_truthy (q_username req) (q_user req)) as [username|];
      [|reflexivity].
    now rewrite (scrape_same_pages 20 net Worker.parseMovies username net'
                   fuel 0 (A username eq_refl)).
  - intros fuel net net' calls0 username A. unfold Fallback.fallbackScrape.
    now rewrite (scrape_same_pages 10 net Worker.parseMovies username net'
                   fuel calls0 A).
  - intros fuel net net' rnd req A. unfold Api.handler.
    destruct (String.eqb (req_method req) "OPTIONS"); [reflexivity|].
    destruct (first_truthy (q_username req) (q_user req)) as [username|];
      [|reflexivity].
    now rewrite (api_scrape_same_pages net Api.parseMovies username net'
                   fuel (A username eq_refl)).
Qed.

Lemma X11_witness :
  Fallback.fallbackScrape 10 (serve [named_page]) 0 (lit "bob")
  = Fallback.fallbackScrape 10
      (fun k url => if k <? 10 then serve [named_page] k url
                    else Worker.FetchError "never asked")
      0 (lit "bob").
Proof.
  apply (proj1 (proj2 X11_pages_in_order)).
  intros k Hk. simpl plus.
  destruct (k <? 10) eqn:E; [reflexivity|].
  apply Nat.ltb_ge in E. lia.
Defined.






End RunProperties.

Section FetchProperties.
Import JS Props Examples.

Lemma is_redirect_some statusCode location target :
  Fetch.is_redirect statusCode location = Some target <->
  (300 <= statusCode < 400)%Z /\ location = Some target /\ target <> [].
Proof.
  unfold Fetch.is_redirect, Fetch.location_of. split.
  - destruct (300 <=? statusCode)%Z eqn:A; [|discriminate].
    destruct (statusCode <? 400)%Z eqn:B; [|discriminate].
    apply Z.leb_le in A. apply Z.ltb_lt in B. simpl.
    destruct location as [[|c r]|]; try discriminate.
    intro H. injection H as <-. repeat split; try lia. discriminate.
  - intros [[A B] [-> N]].
    apply Z.leb_le in A. apply Z.ltb_lt in B. rewrite A, B. simpl.
    destruct target; [contradiction|reflexivity].
Qed.

Lemma is_redirect_none statusCode location :
  Fetch.is_redirect statusCode location = None <->
  ~ (300 <= statusCode < 400)%Z \/ location = None \/ location = Some [].
Proof.
  unfold Fetch.is_redirect, Fetch.location_of. split.
  - destruct (300 <=? statusCode)%Z eqn:A.
    2:{ apply Z.leb_gt in A. intros _. left. lia. }
    destruct (statusCode <? 400)%Z eqn:B.
    2:{ apply Z.ltb_ge in B. intros _. left. lia. }
    simpl. destruct location as [[|c r]|]; auto; discriminate.
  - intros [N|[->| ->]].
    + destruct (300 <=? statusCode)%Z eqn:A; [|reflexivity].
      destruct (statusCode <? 400)%Z eqn:B; [|reflexivity].
      apply Z.leb_le in A. apply Z.ltb_lt in B. lia.
    + now destruct (_ && _).
    + now destruct (_ && _).
Qed.

(** Following a chain of redirects is what [fetchUrl] does first. *)
Lemma fetchUrl_chain get k url targets last :
  redirects get k url targets last ->
  forall fuel,
    length targets <= fuel ->
    Fetch.fetchUrl fuel get k url
    = Fetch.fetchUrl (fuel - length targets) get (k + length targets) last.
Proof.
  induction 1 as [k url|k url sc c target body rest last G R C IH];
    intros fuel Hf.
  - simpl. now rewrite Nat.sub_0_r, Nat.add_0_r.
  - simpl in Hf. destruct fuel as [|fuel]; [lia|].
    cbn [Fetch.fetchUrl]. rewrite G.
    rewrite (proj2 (is_redirect_some sc (Some (c :: target)) (c :: target)))
      by (repeat split; try lia; discriminate).
    rewrite (IH fuel) by lia. simpl length.
    now replace (k + S (length rest)) with (S k + length rest) by lia.
Qed.

Lemma fetchUrl_chain_long get k url targets last :
  redirects get k url targets last ->
  forall fuel,
    fuel < length targets ->
    Fetch.fetchUrl fuel get k url = OutOfFuel.
Proof.
  induction 1 as [k url|k url sc c target body rest last G R C IH];
    intros fuel Hf; simpl in Hf; [lia|].
  destruct fuel as [|fuel]; cbn [Fetch.fetchUrl]; rewrite G;
    rewrite (proj2 (is_redirect_some sc (Some (c :: target)) (c :: target)))
      by (repeat split; try lia; discriminate).
  - reflexivity.
  - apply IH. lia.
Qed.

Lemma fetchUrl_resolved fuel : forall get k url data,
  Fetch.fetchUrl fuel get k url = Ok data ->
  exists targets last location chunks,
    redirects get k url targets last /\ length targets <= fuel /\
    get (k + length targets) last
    = Fetch.GetResponse 200 location (Fetch.BodyEnd chunks) /\
    data = concat chunks.
Proof.
  induction fuel as [|fuel IH]; intros get k url data H;
    cbn [Fetch.fetchUrl] in H;
    destruct (get k url) as [msg|sc loc body] eqn:G; try discriminate;
    destruct (Fetch.is_redirect sc loc) as [target|] eqn:E;
    try discriminate.
  - destruct (sc =? 200)%Z eqn:S; [|discriminate]. apply Z.eqb_eq in S.
    subst sc. destruct body as [chunks|msg]; [|discriminate].
    injection H as <-. exists [], url, loc, chunks.
    rewrite Nat.add_0_r. repeat split; auto. constructor.
  - apply is_redirect_some in E. destruct E as [Hs [-> Hn]].
    destruct target as [|c target]; [contradiction|].
    destruct (IH _ _ _ _ H) as [targets [last [loc [chunks [R [L [G' D]]]]]]].
    exists ((c :: target) :: targets), last, loc, chunks.
    repeat split; auto.
    + econstructor; eauto.
    + simpl. lia.
    + simpl length.
      now replace (k + S (length targets)) with (S k + length targets)
        by lia.
  - destruct (sc =? 200)%Z eqn:S; [|discriminate]. apply Z.eqb_eq in S.
    subst sc. destruct body as [chunks|msg]; [|discriminate].
    injection H as <-. exists [], url, loc, chunks.
    rewrite Nat.add_0_r. repeat split; auto; [constructor|simpl; lia].
Qed.

(** X13: [fetchUrl] resolves only with the whole body of a response of
    status 200 that a chain of redirects from the URL leads to, the chunks
    of the body put together in their order; the responses of the chain
    itself are not read. *)
Theorem X13_fetch_resolves :
  forall fuel get k url data,
    Fetch.fetchUrl fuel get k url = Ok data <->
    exists targets last location chunks,
      redirects get k url targets last /\ length targets <= fuel /\
      get (k + length targets) last
      = Fetch.GetResponse 200 location (Fetch.BodyEnd chunks) /\
      data = concat chunks.
Proof.
  intros fuel get k url data. split; [apply fetchUrl_resolved|].
  intros [targets [last [loc [chunks [R [L [G ->]]]]]]].
  rewrite (fetchUrl_chain get k url targets last R fuel L).
  destruct (fuel - length targets); cbn [Fetch.fetchUrl]; rewrite G;
    rewrite (proj2 (is_redirect_none 200 loc)) by (left; lia);
    reflexivity.
Qed.

Lemma fetchUrl_last fuel get k url :
  Fetch.fetchUrl fuel get k url
  = match get k url with
    | Fetch.GetError msg => Throw msg
    | Fetch.GetResponse statusCode location body =>
        match Fetch.is_redirect statusCode location with
        | Some target =>
            match fuel with
            | 0 => OutOfFuel
            | S fuel' => Fetch.fetchUrl fuel' get (S k) target
            end
        | None =>
            if negb (statusCode =? 200)%Z
            then Throw (Fetch.http_error statusCode)
            else match body with
                 | Fetch.BodyEnd chunks => Ok (concat chunks)
                 | Fetch.BodyError msg => Throw msg
                 end
        end
    end.
Proof. destruct fuel; reflexivity. Qed.

(** X14: when the chain of redirects ends at a response whose status is
    not 200 and which is no redirect (a status outside 300 to 399, or no
    [Location], or an empty one), [fetchUrl] rejects with the message
    [HTTP] and the status, whatever the body; so it does for 201, 204 and
    304. When it ends at a request that fails, it rejects with that
    error. *)
Theorem X14_fetch_rejects :
  forall fuel get k url targets last,
    redirects get k url targets last -> length targets <= fuel ->
    (forall statusCode location body,
        get (k + length targets) last
        = Fetch.GetResponse statusCode location body ->
        statusCode <> 200%Z ->
        ~ (300 <= statusCode < 400)%Z \/ location = None
        \/ location = Some [] ->
        Fetch.fetchUrl fuel get k url
        = Throw (Fetch.http_error statusCode)) /\
    (forall msg,
        get (k + length targets) last = Fetch.GetError msg ->
        Fetch.fetchUrl fuel get k url = Throw msg) /\
    (forall location msg,
        get (k + length targets) last
        = Fetch.GetResponse 200 location (Fetch.BodyError msg) ->
        Fetch.fetchUrl fuel get k url = Throw msg).
Proof.
  intros fuel get k url targets last R L.
  rewrite (fetchUrl_chain get k url targets last R fuel L).
  rewrite fetchUrl_last. split; [|split].
  - intros sc loc body G N E. rewrite G.
    rewrite (proj2 (is_redirect_none sc loc) E).
    apply Z.eqb_neq in N. now rewrite N.
  - intros msg G. now rewrite G.
  - intros loc msg G. rewrite G.
    now rewrite (proj2 (is_redirect_none 200 loc)) by (left; lia).
Qed.

Lemma X14_witness :
  Fetch.fetchUrl 0
    (fun _ _ => Fetch.GetResponse 304 None (Fetch.BodyEnd [])) 0 plain_url
  = Throw "HTTP 304".
Proof.
  apply (proj1 (X14_fetch_rejects 0
                  (fun _ _ => Fetch.GetResponse 304 None (Fetch.BodyEnd []))
                  0 plain_url [] plain_url (rd_nil _ 0 plain_url)
                  (Nat.le_refl 0))
           304%Z None (Fetch.BodyEnd [])).
  - reflexivity.
  - discriminate.
  - right. left. reflexivity.
Defined.

(** X15: the redirects are followed without a bound: when the chains of
    redirects from the URL are of every length, [fetchUrl] does not
    settle. *)
Theorem X15_fetch_redirects_unbounded :
  forall get k url,
    (forall n, exists targets last,
        redirects get k url targets last /\ n < length targets) ->
    forall fuel, Fetch.fetchUrl fuel get k url = OutOfFuel.
Proof.
  intros get k url H fuel.
  destruct (H fuel) as [targets [last [R L]]].
  exact (fetchUrl_chain_long get k url targets last R fuel L).
Qed.

Lemma self_redirects url n : forall k,
  url <> [] ->
  redirects (fun _ _ => Fetch.GetResponse 301 (Some url) (Fetch.BodyEnd []))
    k url (repeat url n) url.
Proof.
  induction n as [|n IH]; intros k N; simpl.
  - constructor.
  - destruct url as [|c r] eqn:E; [contradiction|].
    eapply rd_cons; [reflexivity|lia|]. apply IH. discriminate.
Qed.

Lemma X15_witness :
  Fetch.fetchUrl 1000
    (fun _ _ => Fetch.GetResponse 301 (Some plain_url) (Fetch.BodyEnd []))
    0 plain_url
  = OutOfFuel.
Proof.
  apply (X15_fetch_redirects_unbounded
           (fun _ _ =>
              Fetch.GetResponse 301 (Some plain_url) (Fetch.BodyEnd []))
           0 plain_url).
  intro n. exists (repeat plain_url (S n)), plain_url. split.
  - apply self_redirects. discriminate.
  - rewrite repeat_length. lia.
Defined.

End FetchProperties.

Section FetchedPages.
Import JS Spec Props Examples.

Lemma fetchUrl_rejects_status fuel get k url targets last
    statusCode location body :
  redirects get k url targets last -> length targets <= fuel ->
  get (k + length targets) last
  = Fetch.GetResponse statusCode location body ->
  statusCode <> 200%Z ->
  ~ (300 <= statusCode < 400)%Z \/ location = None \/ location = Some [] ->
  Fetch.fetchUrl fuel get k url = Throw (Fetch.http_error statusCode).
Proof.
  intros R L G N E.
  rewrite (fetchUrl_chain get k url targets last R fuel L).
  rewrite fetchUrl_last, G.
  rewrite (proj2 (is_redirect_none statusCode location) E).
  apply Z.eqb_neq in N. now rewrite N.
Qed.

(** X16: the serverless function fetching with [fetchUrl]: when the
    first page, after the redirects followed, is answered with a status
    other than 200 that is no redirect (a 403, a 429, a 500, a 204), the
    answer is 404 with the error [User not found or watchlist is
    private]. *)
Theorem X16_status_as_not_found :
  forall hops get net fuel rnd req username targets last
         statusCode location body,
    fetched hops get net ->
    String.eqb (req_method req) "OPTIONS" = false ->
    first_truthy (q_username req) (q_user req) = Some username ->
    0 < fuel ->
    redirects (get 0) 0 (Worker.page_url username 1) targets last ->
    length targets <= hops ->
    get 0 (length targets) last
    = Fetch.GetResponse statusCode location body ->
    statusCode <> 200%Z ->
    ~ (300 <= statusCode < 400)%Z \/ location = None \/ location = Some [] ->
    Api.handler fuel net rnd req
    = Ok (respond 404
            (error_body "User not found or watchlist is private")).
Proof.
  intros hops get net fuel rnd req username targets last sc loc body
    F Hm Hu Hf R L G N E.
  pose proof (F 0 (Worker.page_url username 1)) as F0.
  rewrite (fetchUrl_rejects_status hops (get 0) 0 _ targets last sc loc body
             R L G N E) in F0.
  rewrite (api_handler_run fuel net rnd req username Hm Hu).
  now rewrite (api_scrape_not_found net Api.parseMovies username fuel Hf F0).
Qed.

Lemma X16_witness :
  Api.handler 20 (fun _ _ => Api.Rejected) zero (get_request None)
  = Ok (respond 404 (error_body "User not found or watchlist is private")).
Proof.
  apply (X16_status_as_not_found 0
           (fun _ _ _ => Fetch.GetResponse 429 None (Fetch.BodyEnd []))
           (fun _ _ => Api.Rejected) 20 zero (get_request None) (lit "bob")
           [] (Worker.page_url (lit "bob") 1) 429%Z None (Fetch.BodyEnd [])).
  - intros k url. reflexivity.
  - reflexivity.
  - reflexivity.
  - lia.
  - constructor.
  - simpl. lia.
  - reflexivity.
  - discriminate.
  - right. left. reflexivity.
Defined.

End FetchedPages.

Section WorkerRaise.
Import JS Spec Props Examples Worker.

(** Good pages, then a fetch that throws. *)
Lemma scrape_raise cap net extract username fuel calls0 lists msg :
  worker_pages net extract username calls0 1 lists ->
  length lists < cap -> length lists < fuel ->
  net (calls0 + length lists) (page_url username (S (length lists)))
  = FetchError msg ->
  scrape cap net extract username fuel calls0
  = Some (S (length lists), Leave (Raise msg)).
Proof.
  intros W Hc Hf N. unfold scrape.
  replace fuel with (length lists + S (fuel - length lists - 1)) by lia.
  rewrite (worker_prefix cap net extract username lists calls0 1 []
             (S (fuel - length lists - 1)) 0 W) by lia.
  simpl app. simpl plus.
  apply while_leave.
  - unfold loop_cond. cbn [hasMore page andb]. apply Nat.leb_le. lia.
  - unfold loop_body. cbn [calls page]. now rewrite N.
Qed.

(** X17: in the workers a fetch that throws makes the answer 500 with the
    message of the error, on whatever page of the loop it happens: the
    records of the pages before it are not served. *)
Theorem X17_fetch_error_drops_records :
  (forall fuel net rnd req username lists msg,
      String.eqb (req_method req) "OPTIONS" = false ->
      first_truthy (q_username req) (q_user req) = Some username ->
      worker_pages net parseMovies username 0 1 lists ->
      length lists < 20 -> length lists < fuel ->
      net (length lists) (page_url username (S (length lists)))
      = FetchError msg ->
      handleWatchlistAPI fuel net rnd req = Ok (failure msg)) /\
  (forall fuel net calls0 username lists msg,
      worker_pages net parseMovies username calls0 1 lists ->
      length lists < 10 -> length lists < fuel ->
      net (calls0 + length lists) (page_url username (S (length lists)))
      = FetchError msg ->
      Fallback.fallbackScrape fuel net calls0 username = Ok (failure msg)).
Proof.
  split.
  - intros fuel net rnd req username lists msg Hm Hu W Hc Hf N.
    rewrite (worker_handler_run fuel net rnd req username Hm Hu).
    now rewrite (scrape_raise 20 net parseMovies username fuel 0 lists msg
                   W Hc Hf N).
  - intros fuel net calls0 username lists msg W Hc Hf N.
    unfold Fallback.fallbackScrape.
    now rewrite (scrape_raise 10 net parseMovies username fuel calls0 lists
                   msg W Hc Hf N).
Qed.

Lemma X17_witness :
  handleWatchlistAPI 20
    (fun k _ => if k =? 0 then Response true None named_page
                else FetchError "connection lost")
    zero (get_request None)
  = Ok (failure "connection lost").
Proof.
  apply (proj1 X17_fetch_error_drops_records 20
           (fun k _ => if k =? 0 then Response true None named_page
                       else FetchError "connection lost")
           zero (get_request None) (lit "bob") [[dune_movie]]).
  - reflexivity.
  - reflexivity.
  - eapply wp_cons with (html := named_page).
    + reflexivity.
    + vm_compute. reflexivity.
    + vm_compute. reflexivity.
    + discriminate.
    + constructor.
  - simpl. lia.
  - simpl. lia.
  - reflexivity.
Defined.

End WorkerRaise.

Section StremthruProperties.
Import JS Props Examples Stremthru.
Variable num : Type.
Variable nonzero : num -> bool.
Variable show : num -> jsstring.

Lemma jv_induction (P : jv num -> Prop) :
  P JNull ->
  (forall b, P (JBool b)) ->
  (forall n, P (JNumber n)) ->
  (forall s, P (JString s)) ->
  (forall l, Forall P l -> P (JArray l)) ->
  (forall fields, P (JObject fields)) ->
  forall v, P v.
Proof.
  intros HN HB HNum HS HA HO. fix IH 1. intros [|b|n|s|l|fields];
    [apply HN|apply HB|apply HNum|apply HS| |apply HO].
  apply HA. induction l as [|e l IHl]; constructor; [apply IH|exact IHl].
Qed.

(** The conversion of an array, one element after the other. *)
Lemma to_String_array (e : jv num) (r : list (jv num)) :
  to_String show (JArray (e :: r))
  = (s <- match e with JNull => Ok [] | _ => to_String show e end ;;
     match r with
     | [] => Ok s
     | _ => t <- to_String show (JArray r) ;; Ok (s ++ lit "," ++ t)
     end).
Proof. reflexivity. Qed.

Lemma to_String_settles (v : jv num) : to_String show v <> OutOfFuel.
Proof.
  induction v as [|b|n|s|l IH|fields] using jv_induction;
    try (cbn; discriminate).
  - destruct b; cbn; discriminate.
  - induction IH as [|e l He Hl IHl]; [cbn; discriminate|].
    rewrite to_String_array.
    assert (A : match e with JNull => Ok [] | _ => to_String show e end
                <> OutOfFuel) by (destruct e; auto; discriminate).
    destruct (match e with JNull => Ok [] | _ => to_String show e end);
      cbn [bind]; [|discriminate|congruence].
    destruct l; [discriminate|].
    destruct (to_String show (JArray (j :: l))); cbn [bind];
      [discriminate|discriminate|congruence].
  - cbn. destruct (lookup _ fields); discriminate.
Qed.

Lemma to_String_plain (v : jv num) :
  plain v = true -> exists s, to_String show v = Ok s.
Proof.
  induction v as [|b|n|s|l IH|fields] using jv_induction; intro H;
    try (cbn; eauto; fail).
  - destruct b; cbn; eauto.
  - induction IH as [|e l He Hl IHl]; [cbn; eauto|].
    cbn [plain forallb] in H. apply andb_true_iff in H. destruct H as [H1 H2].
    rewrite to_String_array.
    assert (A : exists s,
               match e with JNull => Ok [] | _ => to_String show e end
               = Ok s) by (destruct e; eauto).
    destruct A as [s ->]. cbn [bind].
    destruct l; [eauto|].
    destruct (IHl H2) as [t ->]. cbn [bind]. eauto.
  - cbn in *. destruct (lookup _ fields); [discriminate|eauto].
Qed.

Lemma prop_object key fields :
  prop (num := num) key (JObject fields) = Ok (lookup (lit key) fields).
Proof. reflexivity. Qed.

Lemma prop_settles key (v : jv num) : prop key v <> OutOfFuel.
Proof. destruct v; discriminate. Qed.

Lemma prop_not_null key (v : jv num) :
  v <> JNull -> prop key v = Ok (get key v).
Proof. destruct v; try reflexivity. contradiction. Qed.

Lemma or_else_cases (a b : option (jv num)) :
  or_else nonzero a b = a \/ or_else nonzero a b = b.
Proof. unfold or_else. destruct (truthy nonzero a); auto. Qed.

Lemma to_String_opt_settles (v : option (jv num)) :
  to_String_opt show v <> OutOfFuel.
Proof. destruct v; [apply to_String_settles|discriminate]. Qed.

Lemma movie_of_item_settles (item : jv num) :
  movie_of_item nonzero show item <> OutOfFuel.
Proof.
  destruct item; try discriminate; unfold movie_of_item; cbn.
  all: repeat match goal with
         | |- context [if ?c then _ else _] => destruct c; cbn
         | |- context [bind ?t _] =>
             let E := fresh in
             destruct t eqn:E; cbn;
             [|discriminate
              |exfalso; first [exact (to_String_opt_settles _ E)
                              |exact (to_String_settles _ E)]]
         end; try discriminate.
Qed.

Lemma movie_of_null : exists msg,
  movie_of_item (num := num) nonzero show JNull = Throw msg.
Proof. eexists. reflexivity. Qed.

Lemma map_items_settles (l : list (jv num)) :
  map_items nonzero show l <> OutOfFuel.
Proof.
  induction l as [|item l IH]; cbn; [discriminate|].
  pose proof (movie_of_item_settles item) as A.
  destruct (movie_of_item nonzero show item); cbn;
    try discriminate; try congruence.
  destruct (map_items nonzero show l); cbn;
    try discriminate; congruence.
Qed.

Lemma map_items_null (l : list (jv num)) :
  In JNull l -> exists msg, map_items nonzero show l = Throw msg.
Proof.
  induction l as [|item l IH]; [intros []|intros [E|I]]; cbn.
  - subst item. cbn. eauto.
  - pose proof (movie_of_item_settles item) as A.
    destruct (movie_of_item nonzero show item); cbn; eauto;
      try congruence.
    destruct (IH I) as [msg ->]. cbn. eauto.
Qed.

Lemma movie_of_plain (item : jv num) :
  plain_item item ->
  exists m,
    movie_of_item nonzero show item = Ok m /\ record_of nonzero show item m.
Proof.
  intros [fields [-> Hp]]. unfold movie_of_item. cbn [prop bind].
  assert (Y : exists y,
             (if truthy nonzero (lookup (lit "year") fields)
              then to_String_opt show (lookup (lit "year") fields)
              else Ok []) = Ok y).
  { destruct (truthy nonzero (lookup (lit "year") fields)) eqn:T; [|eauto].
    destruct (lookup (lit "year") fields) as [v|] eqn:L; [|discriminate].
    apply to_String_plain. apply (Hp "year"%string v); simpl; auto. }
  destruct Y as [y ->]. cbn [bind].
  assert (S : exists s,
             to_String_opt show
               (or_else nonzero (lookup (lit "slug") fields)
                  (lookup (lit "id") fields)) = Ok s).
  { destruct (or_else_cases (lookup (lit "slug") fields)
                (lookup (lit "id") fields)) as [-> | ->].
    - destruct (lookup (lit "slug") fields) as [v|] eqn:L; [|cbn; eauto].
      apply to_String_plain. apply (Hp "slug"%string v); simpl; auto.
    - destruct (lookup (lit "id") fields) as [v|] eqn:L; [|cbn; eauto].
      apply to_String_plain. apply (Hp "id"%string v); simpl; auto. }
  destruct S as [s Es]. rewrite Es. cbn [bind].
  eexists. split; [reflexivity|].
  unfold record_of. cbn [slug title tmdb imdb link get].
  repeat split. exists s. split; [exact Es|reflexivity].
Qed.

Lemma map_items_plain (l : list (jv num)) :
  Forall plain_item l ->
  exists ms,
    map_items nonzero show l = Ok ms /\
    Forall2 (record_of nonzero show) l ms.
Proof.
  induction 1 as [|item l Hi Hl [ms [E R]]]; cbn [map_items].
  - exists []. split; [reflexivity|constructor].
  - destruct (movie_of_plain item Hi) as [m [-> Rm]]. rewrite E.
    cbn [bind]. exists (m :: ms). split; [reflexivity|now constructor].
Qed.

Lemma map_items_length (l : list (jv num)) : forall ms,
  map_items nonzero show l = Ok ms -> length ms = length l.
Proof.
  induction l as [|item l IH]; intros ms H; cbn [map_items] in H.
  - now injection H as <-.
  - destruct (movie_of_item nonzero show item); try discriminate.
    destruct (map_items nonzero show l) as [ms'| |]; try discriminate.
    cbn [bind] in H. injection H as <-. simpl. now rewrite (IH ms').
Qed.

(** The run of lines 290-326 on a parsed value that is not [null]. *)
Lemma from_items_run (data : jv num) random rnd :
  data <> JNull ->
  from_items nonzero show data random rnd
  = match items_of nonzero data with
    | None => Ok empty_watchlist
    | Some iv =>
        if negb (truthy nonzero (Some iv)) then Ok empty_watchlist
        else if length_is_zero nonzero iv then Ok empty_watchlist
        else
          movies <- call_map nonzero show iv ;;
          if random then
            Ok {| status := 200;
                  content :=
                    Movie (nth_error movies
                             (random_index rnd (length movies)))
                      (length movies) |}
          else
            Ok {| status := 200;
                  content := Movies movies (length movies) |}
    end.
Proof.
  intro N. unfold from_items, items_of.
  rewrite (prop_not_null "data" data N). cbn [bind].
  destruct (get "data" data) as [dv|]; [|reflexivity].
  destruct (truthy nonzero (Some dv)) eqn:T; cbn [negb]; [|reflexivity].
  assert (Nd : dv <> JNull) by (intros ->; discriminate).
  rewrite (prop_not_null "items" dv Nd). cbn [bind].
  destruct (get "items" dv); reflexivity.
Qed.

Lemma items_not_null (data : jv num) iv :
  items_of nonzero data = Some iv -> data <> JNull.
Proof. intros H ->. discriminate. Qed.

(** X18: the third-party answer gives 404 with the error
    [Watchlist is empty] exactly when the parsed value is not [null] and
    either [data.data.items] is missing or falsy (also when [data.data]
    is), or its length is zero. *)
Theorem X18_stremthru_empty :
  forall (data : jv num) req rnd,
    answer nonzero show (Parsed data) req rnd = Ok empty_watchlist <->
    data <> JNull /\
    (truthy nonzero (items_of nonzero data) = false \/
     exists iv,
       items_of nonzero data = Some iv /\
       length_is_zero nonzero iv = true).
Proof.
  intros data req rnd. unfold answer. split.
  - intro H.
    assert (N : data <> JNull).
    { intros ->. cbn in H. discriminate. }
    split; [exact N|]. rewrite (from_items_run data _ rnd N) in H.
    destruct (items_of nonzero data) as [iv|]; [|now left].
    destruct (truthy nonzero (Some iv)) eqn:T; [|now left].
    cbn [negb] in H.
    destruct (length_is_zero nonzero iv) eqn:Z; [right; eauto|].
    destruct (call_map nonzero show iv); cbn [bind] in H;
      try discriminate.
    destruct (wants_random req); discriminate.
  - intros [N H]. rewrite (from_items_run data _ rnd N).
    destruct H as [H|[iv [-> Z]]].
    + destruct (items_of nonzero data) as [iv|]; [|reflexivity].
      now rewrite H.
    + rewrite Z. now destruct (negb _).
Qed.

Lemma array_truthy (l : list (jv num)) :
  truthy nonzero (Some (JArray l)) = true.
Proof. reflexivity. Qed.

Lemma array_length (l : list (jv num)) :
  l <> [] -> length_is_zero nonzero (JArray l) = false.
Proof. destruct l; [contradiction|reflexivity]. Qed.

(** X19: when [data.data.items] is a non-empty array of objects whose
    [slug], [id] and [year] can be made strings, the answer is 200 with
    one record for each item, in the order of the items, none left out
    and none merged: an item without [slug] and [id] has its record too,
    with the link of the film [undefined]. [total] is the number of
    items. *)
Theorem X19_stremthru_records :
  forall (data : jv num) l req rnd,
    items_of nonzero data = Some (JArray l) -> l <> [] ->
    Forall plain_item l ->
    exists ms,
      Forall2 (record_of nonzero show) l ms /\
      answer nonzero show (Parsed data) req rnd
      = Ok {| status := 200;
              content :=
                if wants_random req
                then Movie (nth_error ms (random_index rnd (length l)))
                       (length l)
                else Movies ms (length l) |}.
Proof.
  intros data l req rnd I N P.
  destruct (map_items_plain l P) as [ms [E R]].
  exists ms. split; [exact R|]. unfold answer.
  rewrite (from_items_run data _ rnd (items_not_null data _ I)), I.
  rewrite array_truthy, (array_length l N). cbn [negb call_map].
  rewrite E. cbn [bind]. rewrite (map_items_length l ms E).
  destruct (wants_random req); reflexivity.
Qed.

(** X20: one [null] among the items, or an [items] that is truthy, of a
    length that is not zero and no array, or a parsed value that is
    [null], or a body that is no JSON text: each makes the whole answer
    500, whatever else the third party sent. *)
Theorem X20_stremthru_failure :
  (forall (data : jv num) l req rnd,
      items_of nonzero data = Some (JArray l) -> In JNull l ->
      exists msg,
        answer nonzero show (Parsed data) req rnd
        = Ok {| status := 500; content := Failure msg |}) /\
  (forall (data : jv num) iv req rnd,
      items_of nonzero data = Some iv ->
      truthy nonzero (Some iv) = true ->
      length_is_zero nonzero iv = false ->
      (forall l, iv <> JArray l) ->
      exists msg,
        answer nonzero show (Parsed data) req rnd
        = Ok {| status := 500; content := Failure msg |}) /\
  (forall req rnd,
      exists msg,
        answer nonzero show (Parsed JNull) req rnd
        = Ok {| status := 500; content := Failure msg |}) /\
  (forall msg req rnd,
      answer nonzero show (SyntaxError msg) req rnd
      = Ok {| status := 500; content := Failure msg |}).
Proof.
  split; [|split; [|split]].
  - intros data l req rnd I J. unfold answer.
    rewrite (from_items_run data _ rnd (items_not_null data _ I)), I.
    rewrite array_truthy, array_length by (intros ->; contradiction).
    cbn [negb call_map]. destruct (map_items_null l J) as [msg ->].
    cbn [bind]. eauto.
  - intros data iv req rnd I T Z A. unfold answer.
    rewrite (from_items_run data _ rnd (items_not_null data _ I)), I.
    rewrite T, Z. cbn [negb].
    destruct iv; cbn [call_map bind]; eauto. now elim (A l).
  - intros req rnd. cbn. eauto.
  - reflexivity.
Qed.

(** X21: the third-party answer always settles, with the status 200, 404
    or 500; with [random=true] an answer of status 200 holds under
    [movie] one of the records made from the items and under [total]
    their number, the draw of [Math.random] being any binary64 number of
    [0, 1) and the items fewer than [2^53]. *)
Theorem X21_stremthru_answer :
  forall (p : parsed num) req rnd,
    exists r,
      answer nonzero show p req rnd = Ok r /\
      In (status r) [200; 404; 500]%Z /\
      (status r = 200%Z -> wants_random req = true ->
       valid_double01 rnd ->
       exists data l ms,
         p = Parsed data /\ items_of nonzero data = Some (JArray l) /\
         map_items nonzero show l = Ok ms /\
         ((Z.of_nat (length l) < 2 ^ 53)%Z ->
          exists m, In m ms /\ content r = Movie (Some m) (length l))).
Proof.
  intros [data|msg] req rnd; unfold answer.
  2:{ eexists. split; [reflexivity|]. split; [simpl; auto|].
      discriminate. }
  assert (N : data = JNull \/ data <> JNull)
    by (destruct data; auto; right; discriminate).
  destruct N as [->|N].
  1:{ cbn. eexists. split; [reflexivity|]. split; [simpl; auto|].
      discriminate. }
  rewrite (from_items_run data _ rnd N).
  all: destruct (items_of nonzero data) as [iv|] eqn:I;
    [|eexists; split; [reflexivity|]; split; [simpl; auto|discriminate]].
  all: destruct (truthy nonzero (Some iv)) eqn:T; cbn [negb];
    [|eexists; split; [reflexivity|]; split; [simpl; auto|discriminate]].
  all: destruct (length_is_zero nonzero iv) eqn:Z;
    [eexists; split; [reflexivity|]; split; [simpl; auto|discriminate]|].
  all: destruct (call_map nonzero show iv) as [ms|msg|] eqn:M;
    cbn [bind];
    [|eexists; split; [reflexivity|]; split; [simpl; auto|discriminate]
     |destruct iv; try discriminate;
      exfalso; exact (map_items_settles _ M)].
  all: destruct (wants_random req) eqn:W;
    (eexists; split; [reflexivity|]; split; [simpl; auto|]);
    intros _ W' V; try discriminate.
  all: destruct iv as [| | | |l|]; try discriminate; cbn [call_map] in M.
  all: exists data, l, ms; repeat split; auto.
  all: intro B; cbn [content];
    pose proof (map_items_length l ms M) as L; rewrite L;
    assert (Hl : (0 < length l)%nat)
      by (destruct l; [discriminate|simpl; lia]);
    pose proof (random_index_lt rnd (length l) V Hl B) as R;
    destruct (nth_error ms (random_index rnd (length l))) as [m|] eqn:E;
    [exists m; split; [exact (nth_error_In _ _ E)|reflexivity]
    |apply nth_error_None in E; lia].
Qed.

End StremthruProperties.

Section StremthruWitnesses.
Import JS Props Examples Stremthru.

Lemma X19_witness :
  exists ms,
    Forall2 (record_of z_nonzero z_show)
      [dune_item; JObject []] ms /\
    answer z_nonzero z_show
      (Parsed (watchlist_of (JArray [dune_item; JObject []])))
      (get_request None) zero
    = Ok {| status := 200; content := Movies ms 2 |}.
Proof.
  apply (X19_stremthru_records Z z_nonzero z_show
           (watchlist_of (JArray [dune_item; JObject []]))
           [dune_item; JObject []] (get_request None) zero).
  - reflexivity.
  - discriminate.
  - repeat constructor.
    + eexists. split; [reflexivity|].
      intros key v [<-|[<-|[<-|[]]]] L; vm_compute in L;
        try discriminate; injection L as <-; reflexivity.
    + eexists. split; [reflexivity|]. intros key v _ L. discriminate.
Defined.

Lemma X20_witness :
  exists msg,
    answer z_nonzero z_show
      (Parsed (watchlist_of (JArray [dune_item; JNull])))
      (get_request None) zero
    = Ok {| status := 500; content := Failure msg |}.
Proof.
  apply (proj1 (X20_stremthru_failure Z z_nonzero z_show)
           (watchlist_of (JArray [dune_item; JNull]))
           [dune_item; JNull] (get_request None) zero).
  - reflexivity.
  - simpl. auto.
Defined.

Lemma X21_witness :
  exists r,
    answer z_nonzero z_show
      (Parsed (watchlist_of (JArray [dune_item])))
      (get_request (Some (lit "true"))) zero = Ok r /\
    In (status r) [200; 404; 500]%Z /\
    (status r = 200%Z ->
     wants_random (get_request (Some (lit "true"))) = true ->
     valid_double01 zero ->
     exists data l ms,
       Parsed (watchlist_of (JArray [dune_item])) = Parsed data /\
       items_of z_nonzero data = Some (JArray l) /\
       map_items z_nonzero z_show l = Ok ms /\
       ((Z.of_nat (length l) < 2 ^ 53)%Z ->
        exists m, In m ms /\ content r = Movie (Some m) (length l))).
Proof.
  exact (X21_stremthru_answer Z z_nonzero z_show
           (Parsed (watchlist_of (JArray [dune_item])))
           (get_request (Some (lit "true"))) zero).
Defined.

End StremthruWitnesses.

Section SecondWorker.
Import JS Spec Props Examples Worker.

(** X22: the second worker asks for the watchlist page first and uses of
    the response whether it is OK and its identifier header only: the body
    of that page is never read, the films being asked for again from the
    third party or page by page. Two networks that differ in that body
    only get the same answer. *)
Theorem X22_first_body_unread :
  forall decode fuel net net' rnd req,
    (forall url, same_head (net 0 url) (net' 0 url)) ->
    (forall k url, 0 < k -> net k url = net' k url) ->
    Fallback.handleWatchlistAPI decode fuel net rnd req
    = Fallback.handleWatchlistAPI decode fuel net' rnd req.
Proof.
  intros decode fuel net net' rnd req H0 H.
  assert (F : forall c username,
             0 < c ->
             Fallback.fallbackScrape fuel net c username
             = Fallback.fallbackScrape fuel net' c username).
  { intros c username Hc. unfold Fallback.fallbackScrape.
    rewrite (scrape_same_pages 10 net parseMovies username net' fuel c);
      [reflexivity|].
    intros k _. apply H. lia. }
  unfold Fallback.handleWatchlistAPI.
  destruct (String.eqb (req_method req) "OPTIONS"); [reflexivity|].
  destruct (first_truthy (q_username req) (q_user req)) as [username|];
    [|reflexivity].
  specialize (H0 (Fallback.watchlist_url username)).
  destruct (net 0 (Fallback.watchlist_url username)) as [m|ok ident html];
    destruct (net' 0 (Fallback.watchlist_url username))
      as [m'|ok' ident' html'];
    cbn [same_head] in H0; try contradiction.
  - now subst.
  - destruct H0 as [<- <-].
    destruct (negb ok); [reflexivity|].
    destruct (Fallback.header_value ident) as [letterboxdId|].
    + rewrite <- (H 1 (Fallback.stremthru_url letterboxdId)) by lia.
      destruct (net 1 (Fallback.stremthru_url letterboxdId))
        as [m|ok1 ident1 text]; [reflexivity|].
      destruct (negb ok1); [apply F; lia|reflexivity].
    + apply F. lia.
Qed.

Lemma X22_witness :
  Fallback.handleWatchlistAPI (fun _ _ _ => Throw "unused") 10
    (fun k _ => Response true None named_page) zero (get_request None)
  = Fallback.handleWatchlistAPI (fun _ _ _ => Throw "unused") 10
      (fun k _ => if k =? 0 then Response true None empty_page
                  else Response true None named_page)
      zero (get_request None).
Proof.
  apply (X22_first_body_unread (fun _ _ _ => Throw "unused") 10
           (fun k _ => Response true None named_page)
           (fun k _ => if k =? 0 then Response true None empty_page
                       else Response true None named_page)
           zero (get_request None)).
  - intro url. simpl. auto.
  - intros k url Hk. destruct k; [lia|reflexivity].
Defined.

End SecondWorker.
